(** * stat-plugin: a shallow embedding of [src/main.ts] and [src/editor-suggest.ts]

    The plugin runs the script of every [statblock] fenced block against a
    capability object [sp], keeps a registry of the mounted blocks and reruns
    all of them, debounced, when the vault or the workspace changes.

    The definitions follow the source:
    - [Vault]: the part of the host's document store the plugin reads, and
      the queries [sp.page], [sp.pages], [sp.folder];
    - [Js]: what a call can throw;
    - [Dom]: the part of the host's element tree the plugin writes;
    - [Names]: the three lists of member names (sandbox, suggestions,
      highlighter);
    - [Sp]: the rendering members [sp.header] ... [sp.chart];
    - [Plugin]: the plugin object ([codeBlockInstances], [debounceTimer]),
      [runCodeBlock], [refreshCodeBlock], [refreshAllCodeBlocks], the
      debounced watcher, the block processor and the host's timer queue.

    The modules whose names end in [Spec] hold the vocabulary of the
    statements, the modules whose names start with [Demo] hold concrete
    hosts for examples. The properties come last. *)

From Stdlib Require Import ZArith Ascii String.
From stdpp Require Import gmap strings list fin_maps pretty sorting.

Set Warnings "-register-all".
Local Open Scope string_scope.
Local Open Scope list_scope.
Local Open Scope nat_scope.

(** ** The document store *)

Module Vault.

(** [file.stat] *)
Record FileStats := { mtime : Z; ctime : Z; size : Z }.

(** [TFile] *)
Record TFile := {
  path : string;
  name : string;
  basename : string;
  extension : string;
  stat : FileStats
}.

(** [TAbstractFile]: a [TFile] or a [TFolder] with its [children]. *)
Inductive TAbstractFile :=
| File (f : TFile)
| Folder (folderPath folderName : string) (children : list TAbstractFile).

(** Values of front-matter fields. *)
Inductive FMValue :=
| FMStr (s : string)
| FMNum (z : Z)
| FMBool (b : bool)
| FMList (l : list FMValue).

(** [CachedMetadata]: only [frontmatter] is read, and it may be missing. *)
Record CachedMetadata := { frontmatter : option (gmap string FMValue) }.

(** [this.app], as far as the sandbox reads it: [vault.getAbstractFileByPath],
    [vault.getMarkdownFiles] and [metadataCache.getFileCache]. *)
Record App := {
  getAbstractFileByPath : string → option TAbstractFile;
  getMarkdownFiles : list TFile;
  getFileCache : TFile → option CachedMetadata
}.

(** The nested [file: {...}] object of [sp.page] and [sp.pages]. *)
Record FileDescriptor := {
  fd_path : string;
  fd_name : string;
  fd_basename : string;
  fd_extension : string;
  fd_mtime : Z;
  fd_ctime : Z;
  fd_size : Z
}.

(** A property of the object literal returned by [sp.page]: either a
    front-matter field that was spread into it, or the [file] descriptor. *)
Inductive PageField :=
| FrontMatterField (v : FMValue)
| FileField (d : FileDescriptor).

Definition describe (file : TFile) : FileDescriptor :=
  {| fd_path := path file;
     fd_name := name file;
     fd_basename := basename file;
     fd_extension := extension file;
     fd_mtime := mtime (stat file);
     fd_ctime := ctime (stat file);
     fd_size := size (stat file) |}.

(** [cache?.frontmatter]: [undefined] when there is no cache or no
    front matter. *)
Definition cache_frontmatter (cache : option CachedMetadata)
  : option (gmap string FMValue) :=
  match cache with
  | Some c => frontmatter c
  | None => None
  end.

(** [{...cache?.frontmatter, file: {...}}]: spreading [undefined] adds
    nothing; the later [file] key overrides a spread field of that name. *)
Definition page_record (app : App) (file : TFile) : gmap string PageField :=
  let cache := getFileCache app file in
  let spread : gmap string PageField :=
    match cache_frontmatter cache with
    | Some fm => FrontMatterField <$> fm
    | None => ∅
    end in
  <["file" := FileField (describe file)]> spread.

(** [sp.page] (main.ts 263-281); [None] is JavaScript's [null]. *)
Definition page (app : App) (p : string) : option (gmap string PageField) :=
  match getAbstractFileByPath app p with
  | Some (File file) => Some (page_record app file)
  | _ => None
  end.

(** [String.prototype.startsWith] *)
Fixpoint startsWith (s pre : string) : bool :=
  match pre, s with
  | EmptyString, _ => true
  | String c pre', String d s' =>
      if decide (c = d) then startsWith s' pre' else false
  | String _ _, EmptyString => false
  end.

(** Truthiness of a string: only the empty string is falsy. *)
Definition truthy (s : string) : bool :=
  match s with EmptyString => false | _ => true end.

(** [sp.pages] (main.ts 283-301). The argument is optional and defaults
    to the empty string. *)
Definition pages (app : App) (arg : option string)
  : list (gmap string PageField) :=
  let folder := default "" arg in
  page_record app <$>
    filter (λ file, (if truthy folder then startsWith (path file) folder
                     else true) = true)
           (getMarkdownFiles app).

(** An element of the array returned by [sp.folder]. [properties] is a
    getter: it looks the front matter up when it is read, so the record
    keeps the file it closes over. *)
Record FolderEntry := {
  fe_name : string;
  fe_basename : string;
  fe_extension : string;
  fe_path : string;
  fe_mtime : Z;
  fe_ctime : Z;
  fe_size : Z;
  fe_isMarkdown : bool;
  fe_file : TFile
}.

(** [get properties()] *)
Definition properties (app : App) (e : FolderEntry)
  : option (gmap string FMValue) :=
  cache_frontmatter (getFileCache app (fe_file e)).

(** What [sp.folder] returns: the object with [files], [folders] and
    [error], or a plain array. *)
Inductive FolderResult :=
| FolderError (files folders : list FolderEntry) (error : string)
| FolderArray (entries : list FolderEntry).

Definition folder_entry (f : TFile) : FolderEntry :=
  {| fe_name := name f;
     fe_basename := basename f;
     fe_extension := extension f;
     fe_path := path f;
     fe_mtime := mtime (stat f);
     fe_ctime := ctime (stat f);
     fe_size := size (stat f);
     fe_isMarkdown := bool_decide (extension f = "md");
     fe_file := f |}.

(** [children.filter(child => child instanceof TFile)] *)
Fixpoint file_children (children : list TAbstractFile) : list TFile :=
  match children with
  | [] => []
  | File f :: rest => f :: file_children rest
  | Folder _ _ _ :: rest => file_children rest
  end.

(** The double-quote character of the error text. *)
Definition dquote : string := String (Ascii.ascii_of_nat 34) EmptyString.

(** [sp.folder] (main.ts 302-334) *)
Definition folder (app : App) (folderPath : string) : FolderResult :=
  match getAbstractFileByPath app folderPath with
  | Some (Folder _ _ children) =>
      FolderArray (folder_entry <$> file_children children)
  | _ =>
      FolderError [] []
        ("Folder " +:+ dquote +:+ folderPath +:+ dquote
           +:+ " not found or is not a folder")
  end.

End Vault.

(** ** JavaScript completions *)

Module Js.

(** What a [catch (e)] clause can receive. [e.message] is a string for an
    [Error] (or any object with that property), [undefined] for a value
    without it, and reading it fails for [null] and [undefined]. *)
Inductive Thrown :=
| ThrownError (message : string)
| ThrownPlain
| ThrownNullish.

(** The outcome of a call: it returns, or it throws. *)
Inductive Completion (A : Type) :=
| Normal (a : A)
| Abrupt (e : Thrown).
Arguments Normal {A} a.
Arguments Abrupt {A} e.

(** [`${e.message}`]: the text, or the [TypeError] raised by the property
    access on [null] or [undefined]. *)
Definition message_text (e : Thrown) : Completion string :=
  match e with
  | ThrownError m => Normal m
  | ThrownPlain => Normal "undefined"
  | ThrownNullish =>
      Abrupt (ThrownError "Cannot read properties of null (reading 'message')")
  end.

End Js.

(** ** The element tree *)

Module Dom.
Import Js.

(** An element: its tag, [className], the text set on it, [style.color],
    [style.cursor], [parentNode] and its child elements in order. *)
Record Node := {
  tag : string;
  cls : string;
  text : string;
  color : string;
  cursor : string;
  parent : option nat;
  children : list nat
}.

(** All elements ever created, attached or not, by reference. *)
Record Dom := { nodes : gmap nat Node; next : nat }.

Definition blank (t : string) : Node :=
  {| tag := t; cls := ""; text := ""; color := ""; cursor := "";
     parent := None; children := [] |}.

Definition set_cls (c : string) (n : Node) : Node :=
  {| tag := tag n; cls := c; text := text n; color := color n;
     cursor := cursor n; parent := parent n; children := children n |}.
Definition set_text (t : string) (n : Node) : Node :=
  {| tag := tag n; cls := cls n; text := t; color := color n;
     cursor := cursor n; parent := parent n; children := children n |}.
Definition set_color (c : string) (n : Node) : Node :=
  {| tag := tag n; cls := cls n; text := text n; color := c;
     cursor := cursor n; parent := parent n; children := children n |}.
Definition set_cursor (c : string) (n : Node) : Node :=
  {| tag := tag n; cls := cls n; text := text n; color := color n;
     cursor := c; parent := parent n; children := children n |}.
Definition set_parent (p : option nat) (n : Node) : Node :=
  {| tag := tag n; cls := cls n; text := text n; color := color n;
     cursor := cursor n; parent := p; children := children n |}.
Definition set_children (k : list nat) (n : Node) : Node :=
  {| tag := tag n; cls := cls n; text := text n; color := color n;
     cursor := cursor n; parent := parent n; children := k |}.

Definition update (f : Node → Node) (id : nat) (d : Dom) : Dom :=
  {| nodes := alter f id (nodes d); next := next d |}.

Definition parentNode (d : Dom) (id : nat) : option nat :=
  n ← nodes d !! id; parent n.

Definition childrenOf (d : Dom) (id : nat) : list nat :=
  match nodes d !! id with Some n => children n | None => [] end.

(** [document.createElement(tag)]: a new, detached element. *)
Definition createElement (d : Dom) (t : string) : Dom * nat :=
  let id := next d in
  ({| nodes := <[id := blank t]> (nodes d); next := S id |}, id).

(** Take [child] out of its parent's child list, if it has a parent. *)
Definition detach (d : Dom) (child : nat) : Dom :=
  match parentNode d child with
  | Some p =>
      update (set_parent None) child
        (update (λ n, set_children (filter (λ k, k ≠ child) (children n)) n) p d)
  | None => d
  end.

(** Make [child] the last child of [par]. *)
Definition attach (d : Dom) (par child : nat) : Dom :=
  update (set_parent (Some par)) child
    (update (λ n, set_children (children n ++ [child]) n) par d).

(** [a.contains(b)]: [b] is [a] or a descendant of it. The walk follows
    [parentNode] from [b]; no chain is longer than the number of elements
    created so far. *)
Fixpoint walks_to (fuel : nat) (d : Dom) (a x : nat) : bool :=
  if decide (x = a) then true
  else match fuel with
       | O => false
       | S f => match parentNode d x with
                | Some p => walks_to f d a p
                | None => false
                end
       end.

Definition contains (d : Dom) (a b : nat) : bool := walks_to (next d) d a b.

Definition HierarchyRequestError : Thrown :=
  ThrownError "The new child element contains the parent.".

(** [par.appendChild(child)] and [par.append(child)] for an element
    [child]: refused when [child] contains [par]; otherwise [child] is
    moved from where it was to the end of [par]. *)
Definition appendChild (d : Dom) (par child : nat) : Dom * Completion unit :=
  if contains d child par then (d, Abrupt HierarchyRequestError)
  else (attach (detach d child) par child, Normal ()).

(** Obsidian's [par.createEl(tag, {cls, text})] (and [createDiv]): create
    the element, set its class and text, append it to [par]. The element
    is new, so the append is never refused. *)
Definition createEl (d : Dom) (par : nat) (t c txt : string) : Dom * nat :=
  let '(d1, id) := createElement d t in
  (attach (update (set_text txt) id (update (set_cls c) id d1)) par id, id).

(** Obsidian's [el.setText(text)] on an element without children. *)
Definition setText (d : Dom) (id : nat) (txt : string) : Dom :=
  update (set_text txt) id d.

(** [el.style.color = c] *)
Definition setColor (d : Dom) (id : nat) (c : string) : Dom :=
  update (set_color c) id d.

(** All descendants of the listed elements, themselves included, in
    document order. *)
Fixpoint subtree (fuel : nat) (d : Dom) (ids : list nat) : list nat :=
  match fuel with
  | O => []
  | S f => flat_map (λ id, id :: subtree f d (childrenOf d id)) ids
  end.

Definition has_class (d : Dom) (c : string) (id : nat) : bool :=
  match nodes d !! id with
  | Some n => bool_decide (cls n = c)
  | None => false
  end.

(** [el.querySelectorAll('.' + c)]: a static list of the descendants of
    [el] with class [c], in document order. *)
Definition querySelectorAll (d : Dom) (el : nat) (c : string) : list nat :=
  filter (λ id, has_class d c id = true) (subtree (next d) d (childrenOf d el)).

(** [if (x.parentNode) x.parentNode.removeChild(x)] *)
Definition removeFromParent (d : Dom) (x : nat) : Dom := detach d x.

End Dom.

(** ** Member names: sandbox, suggestions, highlighter *)

Module Names.

(** [Object.keys(sandbox.sp)] in [runCodeBlock] (main.ts 261-451), in
    the order of the object literal. *)
Definition sandbox_members : list string :=
  ["page"; "pages"; "folder"; "header"; "paragraph"; "span"; "list";
   "table"; "chart"; "app"; "container"; "refresh"].

(** [StatPluginSuggestion] (editor-suggest.ts 5-8) *)
Record StatPluginSuggestion := { text : string; description : string }.

(** The [suggestions] array of [getSuggestions] (editor-suggest.ts 55-92). *)
Definition suggestions : list StatPluginSuggestion :=
  [ {| text := "pages()";
       description := "Get all pages or pages in a specific folder" |};
    {| text := "page(path)";
       description := "Get a specific page by path" |};
    {| text := "header(level, text)";
       description := "Create a header element" |};
    {| text := "span(text)";
       description := "Create a span element" |};
    {| text := "list(items)";
       description := "Create a list from an array of items" |};
    {| text := "table(headers, rows)";
       description := "Create a table with headers and data rows" |};
    {| text := "chart(label, values, labels)";
       description := "Create a chart with the given data" |};
    {| text := "folder(folderPath)";
       description := "List files and folders in the specified folder" |};
    {| text := "app";
       description := "Access the Obsidian API" |} ].

(** [toLowerCase] on ASCII letters. *)
Definition lower (c : ascii) : ascii :=
  let n := Ascii.nat_of_ascii c in
  if (65 <=? n)%nat && (n <=? 90)%nat then Ascii.ascii_of_nat (n + 32) else c.

Fixpoint toLowerCase (s : string) : string :=
  match s with
  | EmptyString => EmptyString
  | String c s' => String (lower c) (toLowerCase s')
  end.

(** [s.includes(q)] *)
Fixpoint includes (s q : string) : bool :=
  Vault.startsWith s q ||
  match s with
  | EmptyString => false
  | String _ s' => includes s' q
  end.

(** [getSuggestions] (editor-suggest.ts 54-97) for [context.query]. *)
Definition getSuggestions (query : string) : list StatPluginSuggestion :=
  let q := toLowerCase query in
  filter (λ s, includes (toLowerCase (text s)) q = true) suggestions.

(** The member a suggestion stands for: its text up to the parenthesis. *)
Fixpoint member_name (t : string) : string :=
  match t with
  | EmptyString => EmptyString
  | String c t' =>
      if decide (c = "("%char) then EmptyString else String c (member_name t')
  end.

(** The names offered when nothing is typed after [sp.]. *)
Definition suggested_members : list string :=
  (λ s, member_name (text s)) <$> getSuggestions "".

(** The alternatives of the highlighter's pattern
    [/sp\.(pages|page|header|span|list|table|chart|folder|refresh)\b/g]
    (main.ts 168), in order. *)
Definition highlight_alternatives : list string :=
  ["pages"; "page"; "header"; "span"; "list"; "table"; "chart"; "folder";
   "refresh"].

(** [\w] *)
Definition word_char (c : ascii) : bool :=
  let n := Ascii.nat_of_ascii c in
  ((48 <=? n)%nat && (n <=? 57)%nat) || ((65 <=? n)%nat && (n <=? 90)%nat)
  || ((97 <=? n)%nat && (n <=? 122)%nat) || (n =? 95)%nat.

(** What is left of [s] after the prefix [pre], when it is one. *)
Fixpoint after_prefix (s pre : string) : option string :=
  match pre, s with
  | EmptyString, _ => Some s
  | String c pre', String d s' =>
      if decide (c = d) then after_prefix s' pre' else None
  | String _ _, EmptyString => None
  end.

(** [\b] after an alternative: the text ends or goes on with a character
    that is not a word character. *)
Definition at_boundary (rest : string) : bool :=
  match rest with
  | EmptyString => true
  | String c _ => negb (word_char c)
  end.

(** The alternative the pattern matches on the text that follows [sp.]:
    the first one, in order, that is a prefix ending at a word boundary. *)
Fixpoint match_alternative (alts : list string) (rest : string) : option string :=
  match alts with
  | [] => None
  | alt :: alts' =>
      match after_prefix rest alt with
      | Some r => if at_boundary r then Some alt
                  else match_alternative alts' rest
      | None => match_alternative alts' rest
      end
  end.

(** The member name [m] is decorated in [sp.m]. *)
Definition highlighted (m : string) : bool :=
  bool_decide (match_alternative highlight_alternatives m = Some m).

End Names.

(** ** The rendering members of the sandbox *)

Module Sp.
Import Js Dom.

(** An element of the [items] array of [sp.list]: a string, or anything
    else, which the code hands to [li.append] as an element. *)
Inductive Item :=
| ItemStr (s : string)
| ItemEl (el : nat).

(** An entry of a row of [sp.table]: a string, a number, or anything else,
    which the code hands to [td.append] as an element. *)
Inductive Cell :=
| CellStr (s : string)
| CellNum (z : Z)
| CellEl (el : nat).

(** [DataSet] (main.ts 18-21) *)
Record DataSet := { label : string; data : list Z }.

(** [String(n)] and [`${n}`] for an integer [n]. *)
Definition String_of_number (z : Z) : string := pretty z.

(** [sp.header] (main.ts 336-339) *)
Definition header (d : Dom) (outputContainer : nat) (level : Z) (txt : string)
  : Dom * nat :=
  createEl d outputContainer ("h" +:+ String_of_number level) "" txt.

(** [sp.paragraph] (main.ts 341-343) *)
Definition paragraph (d : Dom) (outputContainer : nat) (txt : string)
  : Dom * nat :=
  createEl d outputContainer "p" "" txt.

(** [sp.span] (main.ts 345-347) *)
Definition span (d : Dom) (outputContainer : nat) (txt : string) : Dom * nat :=
  createEl d outputContainer "span" "" txt.

(** The loop of [sp.list] over [items]. *)
Fixpoint list_items (d : Dom) (ul : nat) (items : list Item)
  : Dom * Completion unit :=
  match items with
  | [] => (d, Normal ())
  | ItemStr s :: rest =>
      let '(d1, _) := createEl d ul "li" "" s in
      list_items d1 ul rest
  | ItemEl e :: rest =>
      let '(d1, li) := createEl d ul "li" "" "" in
      match appendChild d1 li e with
      | (d2, Normal _) => list_items d2 ul rest
      | (d2, Abrupt x) => (d2, Abrupt x)
      end
  end.

(** [for (const header of headers) headerRow.createEl('th', {text: header})] *)
Fixpoint header_cells (d : Dom) (headerRow : nat) (headers : list string) : Dom :=
  match headers with
  | [] => d
  | h :: rest => header_cells (fst (createEl d headerRow "th" "" h)) headerRow rest
  end.

(** [for (const cell of row) ...] *)
Fixpoint row_cells (d : Dom) (tr : nat) (row : list Cell)
  : Dom * Completion unit :=
  match row with
  | [] => (d, Normal ())
  | CellStr s :: rest =>
      row_cells (fst (createEl d tr "td" "" s)) tr rest
  | CellNum z :: rest =>
      row_cells (fst (createEl d tr "td" "" (String_of_number z))) tr rest
  | CellEl e :: rest =>
      let '(d1, td) := createEl d tr "td" "" "" in
      match appendChild d1 td e with
      | (d2, Normal _) => row_cells d2 tr rest
      | (d2, Abrupt x) => (d2, Abrupt x)
      end
  end.

(** [for (const row of rows) ...] *)
Fixpoint body_rows (d : Dom) (tbody : nat) (rows : list (list Cell))
  : Dom * Completion unit :=
  match rows with
  | [] => (d, Normal ())
  | row :: rest =>
      let '(d1, tr) := createEl d tbody "tr" "" "" in
      match row_cells d1 tr row with
      | (d2, Normal _) => body_rows d2 tbody rest
      | (d2, Abrupt x) => (d2, Abrupt x)
      end
  end.

(** [sp.table] (main.ts 362-387) *)
Definition table (d : Dom) (outputContainer : nat)
    (headers : list string) (rows : list (list Cell))
  : Dom * Completion nat :=
  let '(d1, tbl) := createEl d outputContainer "table" "" "" in
  let '(d2, thead) := createEl d1 tbl "thead" "" "" in
  let '(d3, headerRow) := createEl d2 thead "tr" "" "" in
  let d4 := header_cells d3 headerRow headers in
  let '(d5, tbody) := createEl d4 tbl "tbody" "" "" in
  match body_rows d5 tbody rows with
  | (d6, Normal _) => (d6, Normal tbl)
  | (d6, Abrupt x) => (d6, Abrupt x)
  end.

(** [sp.chart] (main.ts 390-439), up to the canvas it appends and
    returns; the drawing is the charting library's. *)
Definition chart (d : Dom) (outputContainer : nat) : Dom * nat :=
  let '(d1, canvas) := createEl d outputContainer "canvas" "" "" in
  (update (set_cursor "pointer") canvas d1, canvas).

(** [sp.list] (main.ts 349-360) *)
Definition list (d : Dom) (outputContainer : nat) (items : list Item)
  : Dom * Completion nat :=
  let '(d1, ul) := createEl d outputContainer "ul" "" "" in
  match list_items d1 ul items with
  | (d2, Normal _) => (d2, Normal ul)
  | (d2, Abrupt x) => (d2, Abrupt x)
  end.

End Sp.

(** ** The plugin *)

Module Plugin.
Import Js Dom Vault.

(** *** Scripts

    A script is the body of [new Function('sp', source)]. What it does to
    the plugin goes through the members of [sp]; it sees what each call
    returns or throws and goes on from there, returns, or throws. Of
    [sp.app], which reaches the whole host, a script here uses what the
    three queries use. *)

Inductive Call : Type → Type :=
| CallPage (p : string) : Call (option (gmap string PageField))
| CallPages (folder : option string) : Call (list (gmap string PageField))
| CallFolder (folderPath : string) : Call FolderResult
| CallHeader (level : Z) (txt : string) : Call nat
| CallParagraph (txt : string) : Call nat
| CallSpan (txt : string) : Call nat
| CallList (items : list Sp.Item) : Call nat
| CallTable (headers : list string) (rows : list (list Sp.Cell)) : Call nat
| CallChart (datasets : list Sp.DataSet) (labels : list string)
            (type : option string) : Call nat
| CallContainer : Call nat
| CallRefresh : Call unit.

Inductive Script :=
| Return
| Throw (e : Thrown)
| Bind {R : Type} (c : Call R) (k : Completion R → Script).

(** The JavaScript engine: [new Function('sp', source)] gives the script
    or throws a [SyntaxError]; below a call from the host, refreshes nest
    up to [stackDepth] deep. *)
Record Engine := {
  compile : string → Completion Script;
  stackDepth : nat
}.

(** *** The plugin object and the host's timer queue *)

(** A value of [codeBlockInstances]. [context] is kept as the source path
    of the rendering context. *)
Record Instance := { source : string; element : nat; context : string }.

(** The two functions the plugin passes to [setTimeout]. *)
Inductive Callback :=
| DebouncedRefresh
| RemoveIndicator (refreshIndicator : nat).

#[global] Instance Callback_eq_dec : EqDecision Callback.
Proof. solve_decision. Defined.

Record Timer := { timer_id : nat; deadline : nat; callback : Callback }.

(** A connected [MutationObserver] of the block processor: the instance
    and element its callback closes over, and the observed parent. *)
Record Observer := { obs_instance : string; obs_el : nat; obs_target : nat }.

#[global] Instance Observer_eq_dec : EqDecision Observer.
Proof. solve_decision. Defined.

Inductive MutationType := ChildList | Attributes | CharacterData.
Record MutationRecord := { mtype : MutationType; removedNodes : list nat }.

Record State := {
  app : App;
  dom : Dom;
  codeBlockInstances : list (string * Instance);
  debounceTimer : option nat;
  timers : list Timer;
  nextTimer : nat;
  now : nat;
  observers : list Observer
}.

Definition debounceInterval : nat := 1000.

Definition with_dom (d : Dom) (s : State) : State :=
  {| app := app s; dom := d; codeBlockInstances := codeBlockInstances s;
     debounceTimer := debounceTimer s; timers := timers s;
     nextTimer := nextTimer s; now := now s; observers := observers s |}.
Definition with_app (a : App) (s : State) : State :=
  {| app := a; dom := dom s; codeBlockInstances := codeBlockInstances s;
     debounceTimer := debounceTimer s; timers := timers s;
     nextTimer := nextTimer s; now := now s; observers := observers s |}.
Definition with_instances (m : list (string * Instance)) (s : State) : State :=
  {| app := app s; dom := dom s; codeBlockInstances := m;
     debounceTimer := debounceTimer s; timers := timers s;
     nextTimer := nextTimer s; now := now s; observers := observers s |}.
Definition with_debounceTimer (t : option nat) (s : State) : State :=
  {| app := app s; dom := dom s; codeBlockInstances := codeBlockInstances s;
     debounceTimer := t; timers := timers s;
     nextTimer := nextTimer s; now := now s; observers := observers s |}.
Definition with_timers (ts : list Timer) (s : State) : State :=
  {| app := app s; dom := dom s; codeBlockInstances := codeBlockInstances s;
     debounceTimer := debounceTimer s; timers := ts;
     nextTimer := nextTimer s; now := now s; observers := observers s |}.
Definition with_observers (os : list Observer) (s : State) : State :=
  {| app := app s; dom := dom s; codeBlockInstances := codeBlockInstances s;
     debounceTimer := debounceTimer s; timers := timers s;
     nextTimer := nextTimer s; now := now s; observers := os |}.

(** [Map.prototype.get] *)
Fixpoint map_get (k : string) (m : list (string * Instance)) : option Instance :=
  match m with
  | [] => None
  | (k', v) :: rest => if decide (k' = k) then Some v else map_get k rest
  end.

(** [Map.prototype.set]: a present key keeps its place, a new one goes
    last. *)
Fixpoint map_set (k : string) (v : Instance) (m : list (string * Instance))
  : list (string * Instance) :=
  match m with
  | [] => [(k, v)]
  | (k', v') :: rest =>
      if decide (k' = k) then (k, v) :: rest else (k', v') :: map_set k v rest
  end.

(** [Map.prototype.delete] *)
Definition map_delete (k : string) (m : list (string * Instance))
  : list (string * Instance) :=
  filter (λ kv, kv.1 ≠ k) m.

(** [setTimeout(cb, delay)]: a new timer with the next identifier; the
    identifiers start at one, so each is truthy. *)
Definition setTimeout (s : State) (cb : Callback) (delay : nat) : State * nat :=
  let id := nextTimer s in
  ({| app := app s; dom := dom s; codeBlockInstances := codeBlockInstances s;
      debounceTimer := debounceTimer s;
      timers := timers s ++ [{| timer_id := id; deadline := now s + delay;
                                callback := cb |}];
      nextTimer := S id; now := now s; observers := observers s |}, id).

(** [clearTimeout(id)] *)
Definition clearTimeout (s : State) (id : nat) : State :=
  with_timers (filter (λ t, timer_id t ≠ id) (timers s)) s.

(** *** [runCodeBlock] (main.ts 259-463) *)

(** One call of a member of [sandbox.sp], bound to [outputContainer] and
    [instanceId]; [refresh] is [this.refreshCodeBlock]. *)
Definition perform (refresh : string → State → State * Completion unit)
    {R : Type} (c : Call R) (outputContainer : nat) (instanceId : string)
    (s : State) : State * Completion R :=
  match c in Call R return State * Completion R with
  | CallPage p => (s, Normal (page (app s) p))
  | CallPages f => (s, Normal (pages (app s) f))
  | CallFolder p => (s, Normal (folder (app s) p))
  | CallHeader level txt =>
      let '(d, el) := Sp.header (dom s) outputContainer level txt in
      (with_dom d s, Normal el)
  | CallParagraph txt =>
      let '(d, el) := Sp.paragraph (dom s) outputContainer txt in
      (with_dom d s, Normal el)
  | CallSpan txt =>
      let '(d, el) := Sp.span (dom s) outputContainer txt in
      (with_dom d s, Normal el)
  | CallList items =>
      let '(d, r) := Sp.list (dom s) outputContainer items in (with_dom d s, r)
  | CallTable headers rows =>
      let '(d, r) := Sp.table (dom s) outputContainer headers rows in
      (with_dom d s, r)
  | CallChart _ _ _ =>
      let '(d, el) := Sp.chart (dom s) outputContainer in
      (with_dom d s, Normal el)
  | CallContainer => (s, Normal outputContainer)
  | CallRefresh => refresh instanceId s
  end.

(** [fn(...Object.values(sandbox))] *)
Fixpoint exec (refresh : string → State → State * Completion unit)
    (sc : Script) (outputContainer : nat) (instanceId : string) (s : State)
  : State * Completion unit :=
  match sc with
  | Return => (s, Normal ())
  | Throw e => (s, Abrupt e)
  | Bind c k =>
      let '(s1, r) := perform refresh c outputContainer instanceId s in
      exec refresh (k r) outputContainer instanceId s1
  end.

(** The body of both [catch (e)] clauses: a [div] in [target], then its
    text from [e.message], then its colour. *)
Definition render_error (d : Dom) (target : nat) (e : Thrown)
  : Dom * Completion unit :=
  let '(d1, errorEl) := createEl d target "div" "" "" in
  match message_text e with
  | Abrupt e' => (d1, Abrupt e')
  | Normal m =>
      (setColor (setText d1 errorEl ("Error executing code: " +:+ m)) errorEl "red",
       Normal ())
  end.

(** The [try] block of [runCodeBlock]: compile, then call. *)
Definition try_run (js : Engine)
    (refresh : string → State → State * Completion unit)
    (src : string) (outputContainer : nat) (instanceId : string) (s : State)
  : State * Completion unit :=
  match compile js src with
  | Abrupt e => (s, Abrupt e)
  | Normal sc => exec refresh sc outputContainer instanceId s
  end.

Definition runCodeBlock (js : Engine)
    (refresh : string → State → State * Completion unit)
    (src : string) (outputContainer : nat) (instanceId : string) (s : State)
  : State * Completion unit :=
  match try_run js refresh src outputContainer instanceId s with
  | (s1, Normal _) => (s1, Normal ())
  | (s1, Abrupt e) =>
      let '(d, r) := render_error (dom s1) outputContainer e in
      (with_dom d s1, r)
  end.

(** *** [refreshCodeBlock] (main.ts 514-545) *)

(** The [forEach] over the old output containers. *)
Definition remove_all (d : Dom) (containers : list nat) : Dom :=
  foldl (λ d container,
           match parentNode d container with
           | Some _ => removeFromParent d container
           | None => d
           end) d containers.

(** The body of [refreshCodeBlock], with [run] for [this.runCodeBlock].
    The timer that removes the indicator is set after [run] returns. *)
Definition refreshCodeBlock_body
    (run : string → nat → string → State → State * Completion unit)
    (instanceId : string) (s : State) : State * Completion unit :=
  match map_get instanceId (codeBlockInstances s) with
  | None => (s, Normal ())
  | Some instance =>
      let '(d1, refreshIndicator) :=
        createEl (dom s) (element instance) "div" "statblock-refreshing"
                 "Refreshing..." in
      let d2 :=
        remove_all d1
          (querySelectorAll d1 (element instance) "statblock-output-container") in
      let '(d3, outputContainer) :=
        createEl d2 (element instance) "div" "statblock-output-container" "" in
      match run (source instance) outputContainer instanceId (with_dom d3 s) with
      | (s1, Normal _) =>
          (fst (setTimeout s1 (RemoveIndicator refreshIndicator) 500), Normal ())
      | (s1, Abrupt e) => (s1, Abrupt e)
      end
  end.

Definition RangeError : Thrown :=
  ThrownError "Maximum call stack size exceeded".

(** [refreshCodeBlock] with [depth] nested calls left: a script may call
    [sp.refresh()], which runs the script again. *)
Fixpoint refreshCodeBlock_at (js : Engine) (depth : nat)
    (instanceId : string) (s : State) : State * Completion unit :=
  match depth with
  | O => (s, Abrupt RangeError)
  | S depth' =>
      refreshCodeBlock_body
        (runCodeBlock js (refreshCodeBlock_at js depth')) instanceId s
  end.

(** A call from the host (a timer, the block processor) starts with the
    whole stack: its own frame and [stackDepth] nested ones. *)
Definition refreshCodeBlock (js : Engine) : string → State → State * Completion unit :=
  refreshCodeBlock_at js (S (stackDepth js)).

(** [refreshAllCodeBlocks] (main.ts 253-257): the loop stops at the first
    refresh that throws. *)
Fixpoint refresh_each (js : Engine) (ids : list string) (s : State)
  : State * Completion unit :=
  match ids with
  | [] => (s, Normal ())
  | instanceId :: rest =>
      match refreshCodeBlock js instanceId s with
      | (s1, Normal _) => refresh_each js rest s1
      | (s1, Abrupt e) => (s1, Abrupt e)
      end
  end.

(** Nothing in the body of the loop writes the Map, so the keys found at
    the start are the keys the iteration visits. *)
Definition refreshAllCodeBlocks (js : Engine) (s : State)
  : State * Completion unit :=
  refresh_each js (fst <$> codeBlockInstances s) s.

(** *** The debounced watcher (main.ts 196-250) *)

(** [debouncedRefresh] *)
Definition debouncedRefresh (s : State) : State :=
  let s1 := match debounceTimer s with
            | Some t => clearTimeout s t
            | None => s
            end in
  let '(s2, id) := setTimeout s1 DebouncedRefresh debounceInterval in
  with_debounceTimer (Some id) s2.

(** The events the watcher subscribes to; every handler calls
    [debouncedRefresh] and nothing else. *)
Inductive TriggerKind :=
| Modify | Create | Delete | ActiveLeafChange | LayoutChange | Resolved.

Definition on_trigger (k : TriggerKind) (s : State) : State :=
  match k with
  | Modify | Create | Delete | ActiveLeafChange | LayoutChange | Resolved =>
      debouncedRefresh s
  end.

(** What a timer runs when it fires. *)
Definition run_callback (js : Engine) (cb : Callback) (s : State)
  : State * Completion unit :=
  match cb with
  | DebouncedRefresh =>
      match refreshAllCodeBlocks js s with
      | (s1, Normal _) => (with_debounceTimer None s1, Normal ())
      | (s1, Abrupt e) => (s1, Abrupt e)
      end
  | RemoveIndicator refreshIndicator =>
      match parentNode (dom s) refreshIndicator with
      | Some _ => (with_dom (removeFromParent (dom s) refreshIndicator) s, Normal ())
      | None => (s, Normal ())
      end
  end.

(** The host fires the timers that are due, oldest first; a timer cleared
    in the meantime does not fire, and what a callback throws stays with
    the host. The second component lists the callbacks that ran. *)
Fixpoint fire (js : Engine) (due : list Timer) (s : State)
  : State * list Callback :=
  match due with
  | [] => (s, [])
  | t :: rest =>
      if bool_decide (timer_id t ∈ timer_id <$> timers s) then
        let s1 := fst (run_callback js (callback t) (clearTimeout s (timer_id t))) in
        let '(s2, log) := fire js rest s1 in
        (s2, callback t :: log)
      else fire js rest s
  end.

(** One millisecond passes. *)
Definition tick (js : Engine) (s : State) : State * list Callback :=
  let s1 :=
    {| app := app s; dom := dom s; codeBlockInstances := codeBlockInstances s;
       debounceTimer := debounceTimer s; timers := timers s;
       nextTimer := nextTimer s; now := S (now s); observers := observers s |} in
  fire js (filter (λ t, deadline t ≤ now s1) (timers s1)) s1.

(** *** The block processor (main.ts 46-82) *)

(** The handler of [registerMarkdownCodeBlockProcessor], with the value
    [Math.random().toString(36).substring(2, 9)] took. *)
Definition mount (js : Engine) (src : string) (el : nat) (sourcePath : string)
    (random : string) (s : State) : State * Completion unit :=
  let instanceId := sourcePath +:+ ":" +:+ random in
  let s1 :=
    with_instances
      (map_set instanceId
         {| source := src; element := el; context := sourcePath |}
         (codeBlockInstances s)) s in
  let s2 :=
    match parentNode (dom s1) el with
    | Some p =>
        with_observers
          (observers s1 ++
             [{| obs_instance := instanceId; obs_el := el; obs_target := p |}]) s1
    | None => s1
    end in
  let '(d, outputContainer) :=
    createEl (dom s2) el "div" "statblock-output-container" "" in
  match runCodeBlock js (refreshCodeBlock js) src outputContainer instanceId
          (with_dom d s2) with
  | (s3, Normal _) => (s3, Normal ())
  | (s3, Abrupt e) =>
      let '(d', r) := render_error (dom s3) el e in
      (with_dom d' s3, r)
  end.

(** [removed.some(node => node === el || node.contains(el))] for the
    records that are child-list changes with removed nodes. *)
Definition evicts (d : Dom) (el : nat) (m : MutationRecord) : bool :=
  match mtype m, removedNodes m with
  | ChildList, _ :: _ =>
      existsb (λ node, bool_decide (node = el) || contains d node el)
              (removedNodes m)
  | _, _ => false
  end.

(** The observer's callback: at the first such record, delete the
    instance and disconnect. *)
Definition observer_callback (o : Observer) (mutations : list MutationRecord)
    (s : State) : State :=
  if existsb (evicts (dom s) (obs_el o)) mutations then
    with_observers (filter (λ o', o' ≠ o) (observers s))
      (with_instances (map_delete (obs_instance o) (codeBlockInstances s)) s)
  else s.

(** [onunload] (main.ts 547-556), and the [observer.disconnect] calls
    registered for unloading. *)
Definition onunload (s : State) : State :=
  let s1 := with_observers [] (with_instances [] s) in
  match debounceTimer s1 with
  | Some t => with_debounceTimer None (clearTimeout s1 t)
  | None => s1
  end.

(** *** What happens to a loaded plugin *)

Inductive Event :=
| Mounted (src : string) (el : nat) (sourcePath : string) (random : string)
| Triggered (k : TriggerKind)
| VaultChanged (a : App)
| Observed (o : Observer) (mutations : list MutationRecord)
| Tick
| Unloaded.

Definition step (js : Engine) (e : Event) (s : State) : State * list Callback :=
  match e with
  | Mounted src el sourcePath random =>
      (fst (mount js src el sourcePath random s), [])
  | Triggered k => (on_trigger k s, [])
  | VaultChanged a => (with_app a s, [])
  | Observed o mutations =>
      if bool_decide (o ∈ observers s)
      then (observer_callback o mutations s, [])
      else (s, [])
  | Tick => tick js s
  | Unloaded => (onunload s, [])
  end.

(** A sequence of events; the log lists, in order, the timer callbacks
    that ran with the time at which each did. *)
Fixpoint run (js : Engine) (es : list Event) (s : State)
  : State * list (nat * Callback) :=
  match es with
  | [] => (s, [])
  | e :: rest =>
      let '(s1, fired) := step js e s in
      let '(s2, log) := run js rest s1 in
      (s2, ((λ cb, (now s1, cb)) <$> fired) ++ log)
  end.

(** The plugin right after [onload], on a host with vault [a] and
    elements [d]. *)
Definition loaded (a : App) (d : Dom) : State :=
  {| app := a; dom := d; codeBlockInstances := []; debounceTimer := None;
     timers := []; nextTimer := 1; now := 0; observers := [] |}.

End Plugin.

(** ** Vocabulary of the statements *)

Module Spec.
Import Vault.

(** The front matter of a file, empty when the cache has none. *)
Definition declared (app : App) (file : TFile) : gmap string FMValue :=
  default ∅ (cache_frontmatter (getFileCache app file)).

(** A child that is a file. *)
Definition is_file (c : TAbstractFile) : bool :=
  match c with File _ => true | Folder _ _ _ => false end.

(** A record of [sp.page] or [sp.pages] for [file]: the [file] descriptor
    with the seven fields, and every other key as the front matter has it. *)
Definition record_of (app : App) (file : TFile) (r : gmap string PageField) : Prop :=
  r !! "file" =
    Some (FileField {| fd_path := path file; fd_name := name file;
                       fd_basename := basename file;
                       fd_extension := extension file;
                       fd_mtime := mtime (stat file);
                       fd_ctime := ctime (stat file);
                       fd_size := size (stat file) |})
  ∧ ∀ k, k ≠ "file" → r !! k = FrontMatterField <$> (declared app file !! k).

(** An entry of the array of [sp.folder] for [file]. *)
Definition entry_of (app : App) (file : TFile) (e : FolderEntry) : Prop :=
  fe_name e = name file ∧ fe_basename e = basename file
  ∧ fe_extension e = extension file ∧ fe_path e = path file
  ∧ fe_mtime e = mtime (stat file) ∧ fe_ctime e = ctime (stat file)
  ∧ fe_size e = size (stat file)
  ∧ properties app e = cache_frontmatter (getFileCache app file).

End Spec.

(** ** A small vault, for examples *)

Module Demo.
Import Vault.

Definition note_a : TFile :=
  {| path := "folderA/a.md"; name := "a.md"; basename := "a"; extension := "md";
     stat := {| mtime := 20; ctime := 10; size := 120 |} |}.
Definition note_b : TFile :=
  {| path := "folderB/b.md"; name := "b.md"; basename := "b"; extension := "md";
     stat := {| mtime := 21; ctime := 11; size := 64 |} |}.
Definition picture : TFile :=
  {| path := "folderA/p.png"; name := "p.png"; basename := "p"; extension := "png";
     stat := {| mtime := 22; ctime := 12; size := 4096 |} |}.

Definition folderA : TAbstractFile :=
  Folder "folderA" "folderA" [File note_a; Folder "folderA/sub" "sub" []; File picture].

Definition vault : App :=
  {| getAbstractFileByPath := λ p,
       if decide (p = "folderA/a.md") then Some (File note_a)
       else if decide (p = "folderB/b.md") then Some (File note_b)
       else if decide (p = "folderA/p.png") then Some (File picture)
       else if decide (p = "folderA") then Some folderA
       else None;
     getMarkdownFiles := [note_a; note_b];
     getFileCache := λ f,
       if decide (path f = "folderA/a.md")
       then Some {| frontmatter := Some {[ "status" := FMStr "done" ]} |}
       else None |}.

End Demo.

(** ** Vocabulary of the statements about the plugin *)

Module PluginSpec.
Import Js Dom Plugin.

(** [s'] is [s] after scripts ran: the plugin's own fields and the clock are
    as they were, and the timer queue is longer by timers that remove a
    refresh indicator, numbered on from [nextTimer s]. *)
Definition extends (s s' : State) : Prop :=
  app s' = app s
  ∧ codeBlockInstances s' = codeBlockInstances s
  ∧ debounceTimer s' = debounceTimer s
  ∧ observers s' = observers s
  ∧ now s' = now s
  ∧ ∃ new,
      timers s' = timers s ++ new
      ∧ nextTimer s' = nextTimer s + length new
      ∧ timer_id <$> new = seq (nextTimer s) (length new)
      ∧ Forall (λ t, (∃ ind, callback t = RemoveIndicator ind)
                     ∧ deadline t = now s + 500) new.

(** A function that runs scripts and only does to the plugin what
    [extends] allows. *)
Definition framed (f : State → State * Completion unit) : Prop :=
  ∀ s, extends s (f s).1.

(** The pending timers of the scheduler. *)
Definition pending_refreshes (s : State) : list Timer :=
  filter (λ t, callback t = DebouncedRefresh) (timers s).

End PluginSpec.

(** ** A small host, for examples *)

Module DemoHost.
Import Js Dom Plugin.

(** A body with the elements of two rendered blocks: 0 is the body, 1 and
    2 are the blocks. *)
Definition page_dom : Dom :=
  let '(d0, body) := createElement {| nodes := ∅; next := 0 |} "body" in
  let '(d1, _) := createEl d0 body "div" "block-language-statblock" "" in
  let '(d2, _) := createEl d1 body "div" "block-language-statblock" "" in
  d2.

(** An engine that knows a few scripts. *)
Definition engine : Engine :=
  {| compile := λ src,
       if decide (src = "throw null") then Normal (Throw ThrownNullish)
       else if decide (src = "throw new Error('boom')")
       then Normal (Throw (ThrownError "boom"))
       else if decide (src = "sp.paragraph('ok')")
       then Normal (Bind (CallParagraph "ok")
                      (λ r, match r with
                            | Normal _ => Return
                            | Abrupt e => Throw e
                            end))
       else if decide (src = "sp.(")
       then Abrupt (ThrownError "Unexpected token '('")
       else Normal Return;
     stackDepth := 8 |}.

Definition start : State := loaded Demo.vault page_dom.

End DemoHost.

(** ** Vocabulary of the statements about mounted blocks *)

Module MountSpec.
Import Plugin.

(** The key the block processor composes. *)
Definition key_of (sourcePath random : string) : string :=
  sourcePath +:+ ":" +:+ random.

(** The event is a mount that draws the key [k]. *)
Definition mounts_key (k : string) (e : Event) : Prop :=
  match e with
  | Mounted _ _ sourcePath random => key_of sourcePath random = k
  | _ => False
  end.


End MountSpec.

(** ** A short history, for examples *)

Module DemoRun.
Import Plugin.

(** What happens after the block is mounted: the vault changes, the change
    is announced, a millisecond passes. *)
Definition afterwards : list Event :=
  [VaultChanged Demo.vault; Triggered Modify; Tick].

Definition mounted_record : Instance :=
  {| source := "sp.paragraph('ok')"; element := 1; context := "note.md" |}.

End DemoRun.

(** ** Vocabulary of the statements about elements *)

Module DomSpec.
Import Dom.

(** Identifiers not yet handed out name no element. *)
Definition wf (d : Dom) : Prop := ∀ x, next d ≤ x → nodes d !! x = None.

Definition exists_in (d : Dom) (x : nat) : Prop := is_Some (nodes d !! x).

Definition tagOf (d : Dom) (x : nat) : string :=
  match nodes d !! x with Some n => tag n | None => "" end.
Definition clsOf (d : Dom) (x : nat) : string :=
  match nodes d !! x with Some n => cls n | None => "" end.
Definition textOf (d : Dom) (x : nat) : string :=
  match nodes d !! x with Some n => text n | None => "" end.
Definition colorOf (d : Dom) (x : nat) : string :=
  match nodes d !! x with Some n => color n | None => "" end.

(** [x] has the ancestors [l], nearest first, and the last of them has no
    parent. *)
Fixpoint chain (d : Dom) (x : nat) (l : list nat) : Prop :=
  exists_in d x
  ∧ match l with
    | [] => parentNode d x = None
    | p :: l' => parentNode d x = Some p ∧ chain d p l'
    end.

(** [d'] is [d] after elements among [E] were moved and new elements were
    created, the elements of [G] being the ones that were given new
    children. An element of [d] is still there with its tag and text; it
    has the parent it had unless it was moved; unless it was given
    children, it has the children it had, less some that were moved. *)
Definition evolves (E G : list nat) (d d' : Dom) : Prop :=
  wf d' ∧ next d ≤ next d'
  ∧ ∀ x, x < next d →
      (exists_in d x → exists_in d' x)
      ∧ tagOf d' x = tagOf d x
      ∧ textOf d' x = textOf d x
      ∧ (x ∉ E → parentNode d' x = parentNode d x)
      ∧ (x ∉ G → ∃ S, S ⊆ E
                    ∧ childrenOf d' x = filter (λ k, k ∉ S) (childrenOf d x)).

End DomSpec.

(** ** Two mounted blocks, for examples *)

Module DemoBulk.
Import Plugin.

(** Two blocks are mounted, the first with the text [first]; a file is
    modified; 999 milliseconds pass. *)
Definition pending (first : string) : State :=
  (run DemoHost.engine
     ([Mounted first 1 "a.md" "r1"; Mounted "sp.paragraph('ok')" 2 "b.md" "r2";
       Triggered Modify] ++ repeat Tick 999) DemoHost.start).1.

(** One more millisecond: the debounce timer fires. *)
Definition fired (first : string) : State * list Callback :=
  step DemoHost.engine Tick (pending first).

End DemoBulk.

(** ** Vocabulary of the statements about the scheduler *)

Module SchedulerSpec.
Import Plugin PluginSpec.

(** The identifiers of the timers in a list. *)
Definition ids (ts : list Timer) : list nat := timer_id <$> ts.

(** The timer queue is in order: identifiers are distinct and below
    [nextTimer], no deadline has passed, and a pending timer of the
    scheduler is the one [debounceTimer] names. *)
Definition sched_ok (s : State) : Prop :=
  NoDup (ids (timers s))
  ∧ (∀ t, t ∈ timers s → timer_id t < nextTimer s ∧ now s < deadline t)
  ∧ (∀ t, t ∈ timers s → callback t = DebouncedRefresh →
          debounceTimer s = Some (timer_id t)).

(** The timer queue of [s'] is that of [s] followed by new timers that
    each remove a refresh indicator half a second from now; the clock has
    not moved. *)
Definition grows (s s' : State) : Prop :=
  now s' = now s
  ∧ ∃ new,
      timers s' = timers s ++ new
      ∧ nextTimer s' = nextTimer s + length new
      ∧ timer_id <$> new = seq (nextTimer s) (length new)
      ∧ Forall (λ t, (∃ ind, callback t = RemoveIndicator ind)
                     ∧ deadline t = now s + 500) new.

(** *Pending* with the deadline [dl], and *Idle*. *)
Definition armed (dl : nat) (s : State) : Prop :=
  sched_ok s ∧ ∃ t, pending_refreshes s = [t] ∧ deadline t = dl.
Definition idle (s : State) : Prop :=
  sched_ok s ∧ pending_refreshes s = [].

(** A burst: a trigger, then for each [(gap, k)] that many milliseconds and
    the trigger [k]. *)
Definition burst (first : TriggerKind) (more : list (nat * TriggerKind))
  : list Event :=
  Triggered first
  :: flat_map (λ gk, repeat Tick gk.1 ++ [Triggered gk.2]) more.

(** The firings of the scheduler's timer in a log. *)
Definition refreshes (log : list (nat * Callback)) : list (nat * Callback) :=
  filter (λ e, e.2 = DebouncedRefresh) log.

End SchedulerSpec.

(** ** Vocabulary of the statements about tables *)

Module TableSpec.
Import Dom DomSpec.







End TableSpec.

(** ** Tables, for examples *)

Module DemoTable.




(** The rows of the example in the specification. *)
Definition spec_rows : list (list Sp.Cell) :=
  [[Sp.CellNum 1; Sp.CellStr "x"]; [Sp.CellNum 2; Sp.CellStr "y"]].

End DemoTable.

(** ** The palette of the charts *)

Module Palette.

(** [isDarkMode] (main.ts 465-467), on the class list of [document.body]. *)
Definition isDarkMode (bodyClasses : list string) : bool :=
  bool_decide ("theme-dark" ∈ bodyClasses).

(** The two arrays of [getColor] (main.ts 470-493). *)
Definition darkModeColors : list string :=
  ["rgba(78, 121, 167, 0.7)"; "rgba(242, 142, 43, 0.7)";
   "rgba(225, 87, 89, 0.7)"; "rgba(118, 183, 178, 0.7)";
   "rgba(89, 161, 79, 0.7)"; "rgba(237, 201, 72, 0.7)";
   "rgba(176, 122, 161, 0.7)"; "rgba(255, 157, 167, 0.7)";
   "rgba(156, 117, 95, 0.7)"; "rgba(186, 176, 172, 0.7)"].

Definition lightModeColors : list string :=
  ["rgba(0, 114, 178, 0.7)"; "rgba(230, 159, 0, 0.7)";
   "rgba(204, 51, 17, 0.7)"; "rgba(0, 158, 115, 0.7)";
   "rgba(116, 83, 165, 0.7)"; "rgba(240, 228, 66, 0.7)";
   "rgba(0, 136, 153, 0.7)"; "rgba(213, 94, 0, 0.7)";
   "rgba(86, 180, 233, 0.7)"; "rgba(106, 61, 154, 0.7)"].

(** [getColor] (main.ts 469-497) for an integer [index]. The remainder of
    JavaScript has the sign of the dividend; an index that is not in the
    array gives [undefined], here [None]. *)
Definition getColor (bodyClasses : list string) (index : Z) : option string :=
  let colors := if isDarkMode bodyClasses then darkModeColors
                else lightModeColors in
  let r := Z.rem index (Z.of_nat (length colors)) in
  if (0 <=? r)%Z then colors !! Z.to_nat r else None.

(** A dataset as [sp.chart] hands it to the charting library
    (main.ts 399-405). *)
Record ChartDataset := {
  cd_label : string;
  cd_data : list Z;
  cd_borderWidth : Z;
  cd_borderColor : string;
  cd_backgroundColor : option string
}.

(** [datasets.map((dataset, index) => ({...}))] (main.ts 399-405) *)
Definition chart_datasets (bodyClasses : list string)
    (datasets : list Sp.DataSet) : list ChartDataset :=
  imap (λ index dataset,
          {| cd_label := Sp.label dataset;
             cd_data := Sp.data dataset;
             cd_borderWidth := 1;
             cd_borderColor := if isDarkMode bodyClasses
                               then "rgba(255, 255, 255, 0.7)"
                               else "rgba(20, 20, 20, 0.7)";
             cd_backgroundColor := getColor bodyClasses (Z.of_nat index) |})
       datasets.

End Palette.

(** ** The suggestions of the editor *)

Module Suggest.

(** [EditorPosition] *)
Record EditorPosition := { line : nat; ch : nat }.

(** [EditorSuggestTriggerInfo] *)
Record EditorSuggestTriggerInfo := {
  start : EditorPosition;
  end_ : EditorPosition;
  query : string
}.

(** The editor, as the lines of its document. *)
Definition getLine (editor : list string) (n : nat) : string :=
  default "" (editor !! n).

(** [[a-zA-Z]] *)
Definition is_letter (c : ascii) : bool :=
  let n := Ascii.nat_of_ascii c in
  ((65 <=? n) && (n <=? 90)) || ((97 <=? n) && (n <=? 122)).

Fixpoint all_letters (s : string) : bool :=
  match s with
  | EmptyString => true
  | String c s' => is_letter c && all_letters s'
  end.

(** [\s], for code units below 256. *)
Definition is_space (c : ascii) : bool :=
  let n := Ascii.nat_of_ascii c in
  ((9 <=? n) && (n <=? 13)) || (n =? 32) || (n =? 160).

Fixpoint all_space (s : string) : bool :=
  match s with
  | EmptyString => true
  | String c s' => is_space c && all_space s'
  end.

(** [s.substring(0, n)] *)
Fixpoint take_str (n : nat) (s : string) : string :=
  match n, s with
  | S n', String c s' => String c (take_str n' s')
  | _, _ => EmptyString
  end.

(** [s.substring(n)] *)
Fixpoint drop_str (n : nat) (s : string) : string :=
  match n, s with
  | S n', String _ s' => drop_str n' s'
  | _, _ => s
  end.

(** [s.match] with the pattern of [onTrigger], [sp.] followed by letters
    up to the end of the string: the index of the match and its group. The
    first position is taken at which the pattern matches. *)
Fixpoint match_trigger (s : string) : option (nat * string) :=
  let here :=
    match Names.after_prefix s "sp." with
    | Some q => if all_letters q then Some (0, q) else None
    | None => None
    end in
  match here with
  | Some m => Some m
  | None =>
      match s with
      | EmptyString => None
      | String _ s' =>
          match match_trigger s' with
          | Some (i, q) => Some (S i, q)
          | None => None
          end
      end
  end.

(** [text.match(/^```statblock\s*$/)] *)
Definition opens_statblock (text : string) : bool :=
  match Names.after_prefix text "```statblock" with
  | Some rest => all_space rest
  | None => false
  end.

(** [text.match(/^```/)] *)
Definition starts_fence (text : string) : bool :=
  Vault.startsWith text "```".

(** The loop of [onTrigger]: from [lineNum] upwards, the first line that
    starts with three backticks decides. *)
Fixpoint inStatBlock (editor : list string) (lineNum : nat) : bool :=
  let text := getLine editor lineNum in
  if opens_statblock text then true
  else if starts_fence text then false
  else match lineNum with
       | O => false
       | S above => inStatBlock editor above
       end.

(** [onTrigger] (editor-suggest.ts 19-52) *)
Definition onTrigger (cursor : EditorPosition) (editor : list string)
  : option EditorSuggestTriggerInfo :=
  let subString := take_str (ch cursor) (getLine editor (line cursor)) in
  match match_trigger subString with
  | None => None
  | Some (index, group) =>
      if inStatBlock editor (line cursor)
      then Some {| start := {| line := line cursor; ch := index + 3 |};
                   end_ := cursor;
                   query := group |}
      else None
  end.

(** [editor.replaceRange(text, from, to)] within one line. *)
Definition replaceRange (editor : list string) (text : string)
    (from to : EditorPosition) : list string :=
  alter (λ l, take_str (ch from) l +:+ text +:+ drop_str (ch to) l)
        (line from) editor.

(** [selectSuggestion] (editor-suggest.ts 104-111), with [this.context]
    as [onTrigger] returned it. *)
Definition selectSuggestion (suggestion : Names.StatPluginSuggestion)
    (context : EditorSuggestTriggerInfo) (editor : list string) : list string :=
  replaceRange editor (Names.text suggestion) (start context) (end_ context).

End Suggest.

(** ** The highlighting of the editor *)

Module Highlight.

(** The two classes of marks of [createCodeBlockExtension]
    (main.ts 158-160 and 172-174). *)
Inductive Mark := SpBlockKeyword | SpBlockFunction.

(** A decoration: [mark.range(from, to)]. *)
Record Range := { mark : Mark; from : nat; to : nat }.

(** The alternatives of the keyword pattern (main.ts 155). *)
Definition keywords : list string :=
  ["const"; "let"; "var"; "function"; "return"; "if"; "else"; "for";
   "while"; "switch"; "case"; "break"; "continue"; "new"].

(** [\b] before a word character: the start of the text or a character
    that is no word character. *)
Definition boundary_before (prev : option ascii) : bool :=
  match prev with
  | None => true
  | Some c => negb (Names.word_char c)
  end.

(** [text.matchAll] with the keyword pattern: index and matched text of
    each match, from left to right. [skip] counts the characters of the
    last match that are still to be passed. *)
Fixpoint keyword_scan (prev : option ascii) (skip pos : nat) (s : string)
  : list (nat * string) :=
  match s with
  | EmptyString => []
  | String c rest =>
      match skip with
      | S k => keyword_scan (Some c) k (S pos) rest
      | O =>
          match (if boundary_before prev
                 then Names.match_alternative keywords s else None) with
          | Some alt =>
              (pos, alt)
                :: keyword_scan (Some c) (String.length alt - 1) (S pos) rest
          | None => keyword_scan (Some c) 0 (S pos) rest
          end
      end
  end.

Definition keyword_matches (text : string) : list (nat * string) :=
  keyword_scan None 0 0 text.

(** [text.matchAll] with the pattern of the members (main.ts 168): index
    of each match and the member's name. *)
Fixpoint prop_scan (skip pos : nat) (s : string) : list (nat * string) :=
  match s with
  | EmptyString => []
  | String c rest =>
      match skip with
      | S k => prop_scan k (S pos) rest
      | O =>
          match Names.after_prefix s "sp." with
          | Some r =>
              match Names.match_alternative Names.highlight_alternatives r with
              | Some alt =>
                  (pos, alt) :: prop_scan (2 + String.length alt) (S pos) rest
              | None => prop_scan 0 (S pos) rest
              end
          | None => prop_scan 0 (S pos) rest
          end
      end
  end.

Definition prop_matches (text : string) : list (nat * string) :=
  prop_scan 0 0 text.

(** The decorations pushed for one line inside a block (main.ts 153-180):
    first those of the keywords, then those of the members, of which the
    part after the dot is marked. *)
Definition line_decorations (lineFrom : nat) (text : string) : list Range :=
  map (λ m, {| mark := SpBlockKeyword;
               from := lineFrom + m.1;
               to := lineFrom + m.1 + String.length m.2 |})
      (keyword_matches text)
  ++ map (λ m, {| mark := SpBlockFunction;
                  from := lineFrom + m.1 + 2 + 1;
                  to := lineFrom + m.1 + (3 + String.length m.2) |})
         (prop_matches text).

(** [text.match] with the pattern of the closing fence (main.ts 149). *)
Definition closes_block (text : string) : bool :=
  match Names.after_prefix text "```" with
  | Some rest => Suggest.all_space rest
  | None => false
  end.

(** The loop over the lines (main.ts 142-181); [lineFrom] is [line.from],
    the offset of the line in the document. *)
Fixpoint scan (inCodeBlock : bool) (lineFrom : nat) (lines : list string)
  : list Range :=
  match lines with
  | [] => []
  | text :: rest =>
      let next := lineFrom + String.length text + 1 in
      if Suggest.opens_statblock text then scan true next rest
      else if inCodeBlock && closes_block text then scan false next rest
      else if inCodeBlock
           then line_decorations lineFrom text ++ scan inCodeBlock next rest
           else scan inCodeBlock next rest
  end.

(** The list handed to [Decoration.set] by [update] (main.ts 133-185). *)
Definition update (doc : list string) : list Range := scan false 0 doc.

End Highlight.

(** *** What the highlighting is compared with *)

Module HighlightSpec.

(** [line.from] of line [i]. *)
Definition line_from (doc : list string) (i : nat) : nat :=
  sum_list (map (λ l, String.length l + 1) (take i doc)).

(** Line [i] lies inside a block: a line above it opens one and no line in
    between closes it; the line itself is no fence. *)
Definition in_block (doc : list string) (i : nat) : Prop :=
  (∃ text, doc !! i = Some text
           ∧ Suggest.opens_statblock text = false
           ∧ Highlight.closes_block text = false)
  ∧ ∃ k, k < i
         ∧ (∃ t, doc !! k = Some t ∧ Suggest.opens_statblock t = true)
         ∧ ∀ j t, k < j < i → doc !! j = Some t
                  → Highlight.closes_block t = false.

(** The part of [text] from [a] up to [b]. *)
Definition slice (a b : nat) (text : string) : string :=
  Suggest.take_str (b - a) (Suggest.drop_str a text).

(** The flag [inCodeBlock] of the loop after the lines [lines], from the
    value [b]. *)
Fixpoint flag_after (b : bool) (lines : list string) : bool :=
  match lines with
  | [] => b
  | text :: rest =>
      flag_after (if Suggest.opens_statblock text then true
                  else if b && Highlight.closes_block text then false
                  else b) rest
  end.

(** [s] is made of word characters. *)
Fixpoint all_word (s : string) : bool :=
  match s with
  | EmptyString => true
  | String c s' => Names.word_char c && all_word s'
  end.

(** The ends of [s] that are not empty, longest first. *)
Fixpoint suffixes (s : string) : list string :=
  match s with
  | EmptyString => []
  | String _ s' => s :: suffixes s'
  end.

(** What the scan for members may still have to pass after a match: an end
    of [p.] followed by the name of a member. *)
Definition passed_after_member : list string :=
  flat_map (λ alt, suffixes ("p." +:+ alt)) Names.highlight_alternatives.

(** The last character of [a], or [prev] when [a] is empty. *)
Fixpoint last_or (prev : option ascii) (a : string) : option ascii :=
  match a with
  | EmptyString => prev
  | String c a' => last_or (Some c) a'
  end.

(** [word] stands in [text] at offset [at_], as a whole word when [whole]
    is set: no word character before it. In either case none follows. *)
Definition stands_at (whole : bool) (word : string) (at_ : nat) (text : string)
  : Prop :=
  ∃ a b, text = a +:+ word +:+ b ∧ String.length a = at_
         ∧ Names.at_boundary b = true
         ∧ (whole = true → Highlight.boundary_before (last_or None a) = true).

(** What a decoration [r] marks on the line [text] that starts at offset
    [lineFrom]: a keyword that stands there as a whole word, or the name of
    a member after [sp.] and the dot. *)
Definition marks (lineFrom : nat) (text : string) (r : Highlight.Range)
  : Prop :=
  ∃ word at_,
    match Highlight.mark r with
    | Highlight.SpBlockKeyword =>
        word ∈ Highlight.keywords
        ∧ stands_at true word at_ text
        ∧ Highlight.from r = lineFrom + at_
    | Highlight.SpBlockFunction =>
        word ∈ Names.highlight_alternatives
        ∧ stands_at false ("sp." +:+ word) at_ text
        ∧ Highlight.from r = lineFrom + at_ + 3
    end
    ∧ Highlight.to r = Highlight.from r + String.length word.

(** Some line of [lines] opens a block and none after it closes one, or
    [b] is set and no line closes a block. *)
Definition open_after (b : bool) (lines : list string) : Prop :=
  (∃ k, (∃ t, lines !! k = Some t ∧ Suggest.opens_statblock t = true)
        ∧ ∀ j t, k < j → lines !! j = Some t
                 → Highlight.closes_block t = false)
  ∨ (b = true
     ∧ ∀ j t, lines !! j = Some t → Highlight.closes_block t = false).

(** In ascending order of [from], as [Decoration.set] expects its ranges
    unless told to sort them. *)
Definition ascending (l : list Highlight.Range) : Prop :=
  StronglySorted (λ a b, Highlight.from a ≤ Highlight.from b) l.

End HighlightSpec.

(** ** Vocabulary of the statements about rendered elements *)

Module RenderSpec.
Import Dom DomSpec.


End RenderSpec.

(** ** A document in the editor *)

Module DemoEditor.
Import Suggest.

Definition doc : list string :=
  ["# Totals"; "```statblock"; "const n = sp.pag + 1"; "```"].

Definition cursor : EditorPosition := {| line := 2; ch := 16 |}.

Definition context : EditorSuggestTriggerInfo :=
  {| start := {| line := 2; ch := 13 |}; end_ := cursor; query := "pag" |}.

Definition pages_suggestion : Names.StatPluginSuggestion :=
  {| Names.text := "pages()";
     Names.description := "Get all pages or pages in a specific folder" |}.

(** A member before a keyword on one line of a block. *)
Definition member_first : list string :=
  ["```statblock"; "sp.list(x); return 1"; "```"].

(** A block that holds a line starting with three backticks. *)
Definition inner_fence : list string :=
  ["```statblock"; "```js"; "sp.page"].

End DemoEditor.

(** * Properties *)

(** ** Queries over the document store *)

Section VaultFacts.
Import Vault Spec.
Variable app : App.

Lemma page_record_file (file : TFile) :
  page_record app file !! "file" = Some (FileField (describe file)).
Proof. unfold page_record. by rewrite lookup_insert_eq. Qed.

Lemma page_record_field (file : TFile) (k : string) :
  k ≠ "file" →
  page_record app file !! k = FrontMatterField <$> (declared app file !! k).
Proof.
  intros Hk. unfold page_record, declared.
  rewrite lookup_insert_ne by done.
  destruct (cache_frontmatter (getFileCache app file)) as [fm|]; simpl.
  - by rewrite lookup_fmap.
  - by rewrite !lookup_empty.
Qed.

Lemma startsWith_prefix (s pre : string) :
  startsWith s pre = true ↔ ∃ rest, s = pre +:+ rest.
Proof.
  revert s. induction pre as [|c pre IH]; intros [|d s]; simpl.
  - split; [by exists "" | done].
  - split; [intros _; by eexists | done].
  - split; [done | intros [rest Hr]; discriminate].
  - case_decide as Hcd.
    + subst d. rewrite IH. split; intros [rest Hr]; exists rest.
      * by rewrite Hr.
      * by injection Hr.
    + split; [done | intros [rest Hr]]. injection Hr as Hc _. by subst.
Qed.

Lemma page_record_is_record (file : TFile) :
  record_of app file (page_record app file).
Proof.
  split; [apply page_record_file | apply page_record_field].
Qed.

(** C5. [page(p)] is [null] when [p] is not the path of a file (nothing is
    there, or a folder is); otherwise it is a record with the front-matter
    fields of that file and, under [file], its path, name, basename,
    extension, modify time, create time and size. *)
Theorem page_null_or_record (p : string) :
  match getAbstractFileByPath app p with
  | Some (File f) => ∃ r, page app p = Some r ∧ record_of app f r
  | _ => page app p = None
  end.
Proof.
  unfold page.
  destruct (getAbstractFileByPath app p) as [[f|fp fn ch]|]; try done.
  exists (page_record app f). split; [done | apply page_record_is_record].
Qed.

(** C4. [pages(p)] is, in the order of the store's enumeration, one record
    for each enumerated document whose path starts with [p]; without an
    argument, or with the empty string, that is every enumerated document. *)
Theorem pages_by_prefix (arg : option string) :
  let p := default "" arg in
  let docs := filter (λ f, startsWith (path f) p = true) (getMarkdownFiles app) in
  Forall2 (record_of app) docs (pages app arg)
  ∧ sublist docs (getMarkdownFiles app)
  ∧ (∀ f, f ∈ docs ↔ f ∈ getMarkdownFiles app ∧ ∃ rest, path f = p +:+ rest)
  ∧ (p = "" → docs = getMarkdownFiles app).
Proof.
  intros p docs.
  assert (Hsame : pages app arg = page_record app <$> docs).
  { unfold pages, docs. fold p. f_equal.
    destruct p as [|c p']; simpl; [|done].
    apply list_filter_iff. intros f. by destruct (path f). }
  split; [|split; [|split]].
  - rewrite Hsame. apply Forall2_fmap_r, Forall_Forall2_diag, Forall_forall.
    intros f _. apply page_record_is_record.
  - apply sublist_filter.
  - intros f. unfold docs. rewrite list_elem_of_filter, startsWith_prefix. tauto.
  - intros Hp. unfold docs. clear Hsame docs. rewrite Hp. clear Hp.
    induction (getMarkdownFiles app) as [|f l IH]; [done|].
    rewrite filter_cons. destruct (decide _) as [_|Hn].
    + by rewrite IH.
    + exfalso. apply Hn. by destruct (path f).
Qed.

(** C6. When [p] is not the path of a folder, [folder(p)] returns the object
    with empty [files] and [folders] and a non-empty [error]; the call
    completes normally. *)
Theorem folder_not_found (p : string) :
  (∀ fp fn ch, getAbstractFileByPath app p ≠ Some (Folder fp fn ch)) →
  ∃ e, folder app p = FolderError [] [] e ∧ e ≠ ""
     ∧ ∀ refresh oc id s, Plugin.app s = app →
         Plugin.perform refresh (Plugin.CallFolder p) oc id s
         = (s, Js.Normal (FolderError [] [] e)).
Proof.
  intros Hno.
  exists ("Folder " +:+ dquote +:+ p +:+ dquote +:+ " not found or is not a folder").
  assert (Hf : folder app p
               = FolderError [] []
                   ("Folder " +:+ dquote +:+ p +:+ dquote
                      +:+ " not found or is not a folder")).
  { unfold folder.
    destruct (getAbstractFileByPath app p) as [[f|fp fn ch]|] eqn:E; try done.
    by destruct (Hno fp fn ch). }
  split; [done|]. split; [done|].
  intros refresh oc id s Happ. simpl. by rewrite Happ, Hf.
Qed.

Lemma file_children_filter (ch : list TAbstractFile) :
  File <$> file_children ch = filter (λ c, is_file c = true) ch.
Proof.
  induction ch as [|[f|fp fn sub] ch IH]; [done| |].
  - rewrite filter_cons_True by done. cbn [file_children].
    rewrite fmap_cons. by f_equal.
  - rewrite filter_cons_False by done. apply IH.
Qed.

(** C10. When [p] is the path of a folder, [folder(p)] returns a plain
    array with one entry for each child of the folder that is a file, in
    the order of the children; children that are folders have no entry. *)
Theorem folder_lists_files (p fp fn : string) (ch : list TAbstractFile) :
  getAbstractFileByPath app p = Some (Folder fp fn ch) →
  ∃ entries files,
    folder app p = FolderArray entries
    ∧ File <$> files = filter (λ c, is_file c = true) ch
    ∧ Forall2 (entry_of app) files entries.
Proof.
  intros Hp. exists (folder_entry <$> file_children ch), (file_children ch).
  unfold folder. rewrite Hp. split; [done|]. split.
  - apply file_children_filter.
  - apply Forall2_fmap_r, Forall_Forall2_diag, Forall_forall.
    intros f _. by repeat split.
Qed.

End VaultFacts.

Lemma folder_not_found_witness :
  (∀ fp fn ch,
     Vault.getAbstractFileByPath Demo.vault "notAFolder" ≠ Some (Vault.Folder fp fn ch))
  ∧ ∃ e, Vault.folder Demo.vault "notAFolder" = Vault.FolderError [] [] e ∧ e ≠ ""
       ∧ ∀ refresh oc id s, Plugin.app s = Demo.vault →
           Plugin.perform refresh (Plugin.CallFolder "notAFolder") oc id s
           = (s, Js.Normal (Vault.FolderError [] [] e)).
Proof.
  assert (H : ∀ fp fn ch,
             Vault.getAbstractFileByPath Demo.vault "notAFolder"
             ≠ Some (Vault.Folder fp fn ch)) by (intros fp fn ch; discriminate).
  split; [exact H | exact (folder_not_found Demo.vault "notAFolder" H)].
Defined.

Lemma folder_lists_files_witness :
  Vault.getAbstractFileByPath Demo.vault "folderA" = Some Demo.folderA
  ∧ ∃ entries files,
      Vault.folder Demo.vault "folderA" = Vault.FolderArray entries
      ∧ Vault.File <$> files
        = filter (λ c, Spec.is_file c = true)
                 [Vault.File Demo.note_a; Vault.Folder "folderA/sub" "sub" [];
                  Vault.File Demo.picture]
      ∧ Forall2 (Spec.entry_of Demo.vault) files entries.
Proof.
  split; [reflexivity|].
  exact (folder_lists_files Demo.vault "folderA" "folderA" "folderA" _ eq_refl).
Defined.

(** A file that is not a note is a page but is not among the pages; a
    folder is neither. *)
Example page_of_picture :
  is_Some (Vault.page Demo.vault "folderA/p.png")
  ∧ Vault.page Demo.vault "folderA" = None
  ∧ Vault.page Demo.vault "missing/path" = None
  ∧ length (Vault.pages Demo.vault (Some "folderA/")) = 1
  ∧ length (Vault.pages Demo.vault None) = 2.
Proof. repeat split; try reflexivity. by eexists. Qed.

(** ** Member names *)

Section NameFacts.
Import Names.

Local Ltac in_list :=
  repeat first [apply list_elem_of_here | apply list_elem_of_further].
Local Ltac not_in_list :=
  let H := fresh in
  intros H; repeat (apply elem_of_cons in H as [H|H]; [discriminate|]);
  by apply elem_of_nil in H.

Lemma suggested_members_list :
  suggested_members
  = ["pages"; "page"; "header"; "span"; "list"; "table"; "chart"; "folder"; "app"].
Proof. reflexivity. Qed.

Lemma match_alternative_elem (alts : list string) (rest a : string) :
  match_alternative alts rest = Some a → a ∈ alts.
Proof.
  induction alts as [|alt alts IH]; simpl; [done|].
  destruct (after_prefix rest alt) as [r|].
  - destruct (at_boundary r).
    + intros [= ->]. apply list_elem_of_here.
    + intros H. apply list_elem_of_further, IH, H.
  - intros H. apply list_elem_of_further, IH, H.
Qed.

(** The highlighter decorates exactly the nine names of its pattern. *)
Lemma highlighted_alternatives (m : string) :
  highlighted m = true ↔ m ∈ highlight_alternatives.
Proof.
  unfold highlighted. rewrite bool_decide_eq_true. split.
  - apply match_alternative_elem.
  - unfold highlight_alternatives. rewrite !elem_of_cons, elem_of_nil.
    intros H. repeat (destruct H as [->|H]; [reflexivity|]). done.
Qed.

(** Whatever is suggested or decorated is a member of the sandbox. *)
Lemma offered_members_exist (m : string) :
  m ∈ suggested_members ∨ highlighted m = true → m ∈ sandbox_members.
Proof.
  rewrite highlighted_alternatives, suggested_members_list.
  unfold highlight_alternatives, sandbox_members.
  rewrite !elem_of_cons, !elem_of_nil. intros [H|H].
  - repeat (destruct H as [->|H]; [tauto|]). done.
  - repeat (destruct H as [->|H]; [tauto|]). done.
Qed.

(** C9. The three lists do not agree. The sandbox has [paragraph] and
    [container], which are neither suggested nor decorated; [refresh],
    which is decorated and not suggested; and [app], which is suggested and
    not decorated. *)
Theorem member_lists_disagree :
  ("paragraph" ∈ sandbox_members ∧ ("paragraph" ∉ suggested_members)
   ∧ highlighted "paragraph" = false)
  ∧ ("container" ∈ sandbox_members ∧ ("container" ∉ suggested_members)
     ∧ highlighted "container" = false)
  ∧ ("refresh" ∈ sandbox_members ∧ ("refresh" ∉ suggested_members)
     ∧ highlighted "refresh" = true)
  ∧ ("app" ∈ sandbox_members ∧ "app" ∈ suggested_members
     ∧ highlighted "app" = false)
  ∧ getSuggestions "par" = [] ∧ getSuggestions "refresh" = [].
Proof.
  rewrite suggested_members_list. unfold sandbox_members.
  repeat split; try reflexivity; try not_in_list; in_list.
Qed.

End NameFacts.

(** ** What running scripts leaves alone *)

Section Frame.
Import Js Dom Plugin PluginSpec.

Lemma extends_refl (s : State) : extends s s.
Proof.
  repeat split. exists []. simpl. rewrite app_nil_r, Nat.add_0_r.
  by repeat split.
Qed.

Lemma extends_trans (s1 s2 s3 : State) :
  extends s1 s2 → extends s2 s3 → extends s1 s3.
Proof.
  intros (Ha & Hi & Hd & Ho & Hn & new1 & Ht1 & Hx1 & Hid1 & Hcb1)
         (Ha' & Hi' & Hd' & Ho' & Hn' & new2 & Ht2 & Hx2 & Hid2 & Hcb2).
  unfold extends. rewrite Ha', Hi', Hd', Ho', Hn'. repeat split; try done.
  exists (new1 ++ new2). rewrite length_app. repeat split.
  - by rewrite Ht2, Ht1, app_assoc.
  - lia.
  - rewrite fmap_app, Hid1, Hid2, Hx1. by rewrite seq_app.
  - apply Forall_app. split; [done|]. by rewrite <- Hn.
Qed.

Lemma extends_with_dom (d : Dom) (s : State) : extends s (with_dom d s).
Proof.
  repeat split. exists []. simpl. rewrite app_nil_r, Nat.add_0_r.
  by repeat split.
Qed.

Lemma extends_indicator_timer (s : State) (ind : nat) :
  extends s (setTimeout s (RemoveIndicator ind) 500).1.
Proof.
  repeat split. simpl. eexists [_]. simpl. repeat split; [lia|].
  constructor; [split; [by eexists | done] | constructor].
Qed.

Lemma perform_extends refresh {R} (c : Call R) oc id s :
  (∀ id', framed (refresh id')) → extends s (perform refresh c oc id s).1.
Proof.
  intros Hf. destruct c; simpl; try apply extends_refl;
    try (destruct (Sp.header _ _ _ _)); try (destruct (Sp.paragraph _ _ _));
    try (destruct (Sp.span _ _ _)); try (destruct (Sp.list _ _ _));
    try (destruct (Sp.table _ _ _ _)); try (destruct (Sp.chart _ _));
    try apply extends_with_dom.
  apply Hf.
Qed.

Lemma exec_extends refresh sc oc id :
  (∀ id', framed (refresh id')) → framed (exec refresh sc oc id).
Proof.
  intros Hf. induction sc as [|e|R c k IH]; intros s; simpl;
    try apply extends_refl.
  pose proof (perform_extends refresh c oc id s Hf) as Hp.
  destruct (perform refresh c oc id s) as [s1 r]. simpl in Hp.
  eapply extends_trans; [exact Hp | apply IH].
Qed.

Lemma runCodeBlock_extends js refresh src oc id :
  (∀ id', framed (refresh id')) → framed (runCodeBlock js refresh src oc id).
Proof.
  intros Hf s. unfold runCodeBlock, try_run.
  destruct (compile js src) as [sc|e].
  - pose proof (exec_extends refresh sc oc id Hf s) as He.
    destruct (exec refresh sc oc id s) as [s1 [[]|e]]; simpl in *; [done|].
    destruct (render_error (dom s1) oc e) as [d r]. simpl.
    eapply extends_trans; [exact He | apply extends_with_dom].
  - destruct (render_error (dom s) oc e) as [d r]. apply extends_with_dom.
Qed.

Lemma refreshCodeBlock_body_extends run id :
  (∀ src oc id', framed (run src oc id')) → framed (refreshCodeBlock_body run id).
Proof.
  intros Hr s. unfold refreshCodeBlock_body.
  destruct (map_get id (codeBlockInstances s)) as [inst|]; [|apply extends_refl].
  destruct (createEl (dom s) (element inst) _ _ _) as [d1 ind].
  destruct (createEl (remove_all d1 _) (element inst) _ _ _) as [d3 oc].
  pose proof (Hr (source inst) oc id (with_dom d3 s)) as He.
  destruct (run (source inst) oc id (with_dom d3 s)) as [s1 [[]|e]]; simpl in *.
  - eapply extends_trans; [apply extends_with_dom|].
    eapply extends_trans; [exact He | apply extends_indicator_timer].
  - eapply extends_trans; [apply extends_with_dom | exact He].
Qed.

Lemma refreshCodeBlock_at_extends js depth id :
  framed (refreshCodeBlock_at js depth id).
Proof.
  revert id. induction depth as [|depth IH]; intros id; simpl.
  - intros s. apply extends_refl.
  - apply refreshCodeBlock_body_extends. intros src oc id'.
    by apply runCodeBlock_extends.
Qed.

Lemma refreshCodeBlock_extends js id : framed (refreshCodeBlock js id).
Proof. apply refreshCodeBlock_at_extends. Qed.

Lemma refresh_each_extends js ids : framed (refresh_each js ids).
Proof.
  induction ids as [|id ids IH]; intros s; simpl; [apply extends_refl|].
  pose proof (refreshCodeBlock_extends js id s) as He.
  destruct (refreshCodeBlock js id s) as [s1 [[]|e]]; simpl in *; [|done].
  eapply extends_trans; [exact He | apply IH].
Qed.

Lemma refreshAllCodeBlocks_extends js : framed (refreshAllCodeBlocks js).
Proof. intros s. apply refresh_each_extends. Qed.

End Frame.

(** ** The registry *)

Section Registry.
Import Js Dom Plugin PluginSpec MountSpec.

Lemma map_get_set_eq k v m : map_get k (map_set k v m) = Some v.
Proof.
  induction m as [|[k' v'] m IH]; simpl.
  - by rewrite decide_True.
  - destruct (decide (k' = k)) as [->|Hne]; simpl.
    + by rewrite decide_True.
    + by rewrite decide_False.
Qed.

Lemma map_get_set_ne k k' v m :
  k ≠ k' → map_get k (map_set k' v m) = map_get k m.
Proof.
  intros Hne. induction m as [|[k'' v''] m IH]; simpl.
  - by rewrite decide_False.
  - destruct (decide (k'' = k')) as [->|Hne']; simpl.
    + by rewrite !decide_False.
    + destruct (decide (k'' = k)); [done | apply IH].
Qed.

Lemma map_get_delete_eq k m : map_get k (map_delete k m) = None.
Proof.
  unfold map_delete. induction m as [|[k' v'] m IH]; [done|].
  rewrite filter_cons. simpl. destruct (decide (k' ≠ k)) as [Hne|_]; [|done].
  simpl. by rewrite decide_False.
Qed.

Lemma map_get_delete_ne k k' m :
  k ≠ k' → map_get k (map_delete k' m) = map_get k m.
Proof.
  intros Hne. unfold map_delete. induction m as [|[k'' v''] m IH]; [done|].
  rewrite filter_cons. simpl. destruct (decide (k'' ≠ k')) as [Hne'|Heq]; simpl.
  - by rewrite IH.
  - apply dec_stable in Heq. subst k''. by rewrite decide_False.
Qed.

(** A refresh of a key that is not in the registry does nothing at all. *)
Lemma refresh_body_absent run id s :
  map_get id (codeBlockInstances s) = None →
  refreshCodeBlock_body run id s = (s, Normal ()).
Proof. intros H. unfold refreshCodeBlock_body. by rewrite H. Qed.

(** C3. A refresh of a key that is not in the registry returns at once:
    the state it returns (elements, registry, timers) is the state it was
    given, whether the call comes from the host or from a script with room
    left on the stack; the bulk refresh goes on with the next key. *)
Theorem refresh_absent_is_noop js id s :
  map_get id (codeBlockInstances s) = None →
  refreshCodeBlock js id s = (s, Normal ())
  ∧ (∀ depth, refreshCodeBlock_at js (S depth) id s = (s, Normal ()))
  ∧ (∀ rest, refresh_each js (id :: rest) s = refresh_each js rest s).
Proof.
  intros H.
  assert (Hd : ∀ depth, refreshCodeBlock_at js (S depth) id s = (s, Normal ())).
  { intros depth. simpl. by apply refresh_body_absent. }
  split; [apply Hd|]. split; [exact Hd|].
  intros rest. simpl. unfold refreshCodeBlock. by rewrite Hd.
Qed.

(** The observer's callback takes the instance out of the registry, so a
    later refresh of it is of an absent key. *)
Lemma evicted_is_absent o mutations s :
  existsb (evicts (dom s) (obs_el o)) mutations = true →
  map_get (obs_instance o)
    (codeBlockInstances (observer_callback o mutations s)) = None.
Proof.
  intros H. unfold observer_callback. rewrite H. simpl.
  apply map_get_delete_eq.
Qed.

End Registry.

Lemma refresh_absent_is_noop_witness :
  Plugin.map_get "note.md:abc1234" (Plugin.codeBlockInstances DemoHost.start) = None
  ∧ Plugin.refreshCodeBlock DemoHost.engine "note.md:abc1234" DemoHost.start
    = (DemoHost.start, Js.Normal ()).
Proof.
  split; [reflexivity|].
  exact (proj1 (refresh_absent_is_noop DemoHost.engine "note.md:abc1234"
                  DemoHost.start eq_refl)).
Defined.

(** ** The stored source text *)

Section StoredSource.
Import Js Dom Plugin PluginSpec MountSpec.
Variable js : Engine.

Lemma run_callback_instances cb s :
  codeBlockInstances (run_callback js cb s).1 = codeBlockInstances s.
Proof.
  destruct cb as [|ind]; simpl.
  - pose proof (refreshAllCodeBlocks_extends js s) as (_ & Hi & _).
    by destruct (refreshAllCodeBlocks js s) as [s1 [[]|e]].
  - by destruct (parentNode (dom s) ind).
Qed.

Lemma fire_instances due s :
  codeBlockInstances (fire js due s).1 = codeBlockInstances s.
Proof.
  revert s. induction due as [|t due IH]; intros s; simpl; [done|].
  case_bool_decide; [|apply IH].
  specialize (IH (run_callback js (callback t) (clearTimeout s (timer_id t))).1).
  destruct (fire js due _) as [s2 log]. simpl in *.
  by rewrite IH, run_callback_instances.
Qed.

Lemma mount_instances src el sourcePath random s :
  codeBlockInstances (mount js src el sourcePath random s).1
  = map_set (key_of sourcePath random)
      {| source := src; element := el; context := sourcePath |}
      (codeBlockInstances s).
Proof.
  unfold mount, key_of.
  set (k := sourcePath +:+ ":" +:+ random).
  set (s1 := with_instances _ s).
  set (s2 := match parentNode (dom s1) el with Some _ => _ | None => _ end).
  assert (H2 : codeBlockInstances s2 = codeBlockInstances s1).
  { unfold s2. by destruct (parentNode (dom s1) el). }
  destruct (createEl (dom s2) el _ _ _) as [d oc].
  pose proof (runCodeBlock_extends js (refreshCodeBlock js) src oc k
                (refreshCodeBlock_extends js) (with_dom d s2)) as (_ & Hi & _).
  destruct (runCodeBlock _ _ _ _ _ _) as [s3 [[]|e]]; simpl in *.
  - by rewrite Hi, H2.
  - destruct (render_error (dom s3) el e) as [d' r]. simpl. by rewrite Hi, H2.
Qed.

(** An event leaves the record stored under [k] as it is, or evicts it,
    unless it is a mount that draws the same key. *)
Lemma step_keeps_record e s k inst :
  ¬ mounts_key k e →
  map_get k (codeBlockInstances (step js e s).1) = Some inst →
  map_get k (codeBlockInstances s) = Some inst.
Proof.
  intros Hk. destruct e as [src el sp rnd|kind|a|o ms| |]; simpl.
  - rewrite mount_instances. rewrite map_get_set_ne; [done|].
    intros ->. by apply Hk.
  - by destruct kind; unfold on_trigger, debouncedRefresh;
      destruct (debounceTimer s).
  - done.
  - case_bool_decide; [|done]. unfold observer_callback. simpl.
    destruct (existsb _ _); [|done]. simpl.
    destruct (decide (k = obs_instance o)) as [->|Hne].
    + by rewrite map_get_delete_eq.
    + by rewrite map_get_delete_ne.
  - unfold tick. by rewrite fire_instances.
  - unfold onunload. simpl. by destruct (debounceTimer s).
Qed.

Lemma run_app es1 es2 s :
  (run js (es1 ++ es2) s).1 = (run js es2 (run js es1 s).1).1.
Proof.
  revert s. induction es1 as [|e es1 IH]; intros s; simpl; [done|].
  destruct (step js e s) as [s1 fired]. specialize (IH s1).
  destruct (run js (es1 ++ es2) s1), (run js es1 s1). simpl in *.
  by rewrite IH.
Qed.

Lemma run_keeps_record es s k inst :
  Forall (λ e, ¬ mounts_key k e) es →
  map_get k (codeBlockInstances (run js es s).1) = Some inst →
  map_get k (codeBlockInstances s) = Some inst.
Proof.
  intros Hes. revert s. induction Hes as [|e es He Hes IH]; intros s; simpl; [done|].
  pose proof (step_keeps_record e s k inst He) as Hs.
  destruct (step js e s) as [s1 fired]. specialize (IH s1).
  destruct (run js es s1) as [s2 log]. simpl in *. auto.
Qed.


(** X25. A key that was not registered and now is was drawn by a mount; the
    last such mount is followed by events that leave its record alone. *)
Lemma registered_comes_from_mount es s0 k inst :
  map_get k (codeBlockInstances s0) = None →
  map_get k (codeBlockInstances (run js es s0).1) = Some inst →
  ∃ before after src el sourcePath random,
    es = before ++ Mounted src el sourcePath random :: after
    ∧ key_of sourcePath random = k
    ∧ Forall (λ e, ¬ mounts_key k e) after.
Proof.
  intros Hnone. induction es as [|e es IH] using rev_ind; intros Hget.
  - simpl in Hget. congruence.
  - assert (Hdec : mounts_key k e ∨ ¬ mounts_key k e).
    { destruct e as [src el sp rnd| | | | |]; simpl; try tauto.
      destruct (decide (key_of sp rnd = k)); tauto. }
    destruct Hdec as [Hm|Hm].
    + destruct e as [src el sp rnd| | | | |]; try done.
      exists es, [], src, el, sp, rnd. by repeat split.
    + rewrite run_app in Hget.
      assert (Hes : map_get k (codeBlockInstances (run js es s0).1) = Some inst).
      { apply (run_keeps_record [e] _ k inst); [|done]. by constructor. }
      destruct (IH Hes) as (before & after & src & el & sp & rnd & -> & Hk & Hafter).
      exists before, (after ++ [e]), src, el, sp, rnd.
      split; [by rewrite <- app_assoc|]. split; [done|].
      apply Forall_app. split; [done | by constructor].
Qed.

End StoredSource.


(** ** Elements *)

Section DomFacts.
Import Js Dom DomSpec.


Lemma update_next f x d : next (update f x d) = next d.
Proof. done. Qed.


Lemma wf_lt d x : wf d → exists_in d x → x < next d.
Proof.
  intros Hwf [n Hn]. destruct (decide (x < next d)) as [|Hge]; [done|].
  rewrite Hwf in Hn by lia. done.
Qed.

(** What [createEl] does to each element, the new one included. *)
Lemma createEl_lookup d par t c txt y :
  par ≠ next d →
  nodes (createEl d par t c txt).1 !! y
  = if decide (y = next d)
    then Some {| tag := t; cls := c; text := txt; color := ""; cursor := "";
                 parent := Some par; children := [] |}
    else if decide (y = par)
         then (λ n, set_children (children n ++ [next d]) n) <$> nodes d !! y
         else nodes d !! y.
Proof.
  intros Hpar. unfold createEl, createElement, attach. simpl.
  destruct (decide (y = next d)) as [->|Hy].
  - rewrite lookup_alter_eq, lookup_alter_ne by done.
    by rewrite !lookup_alter_eq, lookup_insert_eq.
  - rewrite lookup_alter_ne by done.
    destruct (decide (y = par)) as [->|Hp].
    + rewrite lookup_alter_eq, !lookup_alter_ne by done.
      by rewrite lookup_insert_ne.
    + rewrite !lookup_alter_ne by done. by rewrite lookup_insert_ne.
Qed.

Lemma createEl_id d par t c txt : (createEl d par t c txt).2 = next d.
Proof. done. Qed.

Lemma createEl_next d par t c txt :
  next (createEl d par t c txt).1 = S (next d).
Proof. done. Qed.

Lemma createEl_wf d par t c txt :
  wf d → par < next d → wf (createEl d par t c txt).1.
Proof.
  intros Hwf Hpar y Hy. rewrite createEl_next in Hy.
  rewrite createEl_lookup by lia.
  rewrite decide_False by lia. rewrite decide_False by lia. apply Hwf. lia.
Qed.

End DomFacts.

(** ** Errors of a script *)

Section ScriptErrors.
Import Js Dom DomSpec Plugin PluginSpec.


(** A refresh that throws ends the bulk refresh: the blocks after it
    are not refreshed. *)
Lemma failed_refresh_stops_the_loop js id rest s s1 e :
  refreshCodeBlock js id s = (s1, Abrupt e) →
  refresh_each js (id :: rest) s = (s1, Abrupt e).
Proof. intros H. simpl. by rewrite H. Qed.

(** When [null] or [undefined] was thrown, reading [e.message] in the
    [catch] clause throws in turn: the [div] is there, without text or
    colour, and [runCodeBlock] throws a [TypeError]. *)
Lemma thrown_nullish_propagates js refresh src oc id s s1 :
  try_run js refresh src oc id s = (s1, Abrupt ThrownNullish) →
  runCodeBlock js refresh src oc id s
  = (with_dom (createEl (dom s1) oc "div" "" "").1 s1,
     Abrupt (ThrownError "Cannot read properties of null (reading 'message')")).
Proof.
  intros Hrun. unfold runCodeBlock. rewrite Hrun. unfold render_error.
  by destruct (createEl (dom s1) oc "div" "" "").
Qed.

(** C2, at the script [throw null]. Two blocks are mounted (elements 1
    and 2) and the debounce timer fires. With [throw null] in the first block the refresh
    of that block throws out of the loop: the second block is not
    refreshed, the first keeps its indicator (no timer is left to remove
    it), and [debounceTimer] is not reset. With [throw new Error('boom')]
    in its place both blocks are refreshed and the timer is reset. *)
Theorem thrown_null_escapes :
  (let s := (DemoBulk.fired "throw null").1 in
   (DemoBulk.fired "throw null").2 = [DebouncedRefresh]
   ∧ childrenOf (dom s) 2 = childrenOf (dom (DemoBulk.pending "throw null")) 2
   ∧ debounceTimer s = Some 1
   ∧ timers s = []
   ∧ childrenOf (dom s) 1 = [5; 8; 9]
   ∧ clsOf (dom s) 8 = "statblock-refreshing"
   ∧ textOf (dom s) 10 = "" ∧ colorOf (dom s) 10 = "")
  ∧ (let s := (DemoBulk.fired "throw new Error('boom')").1 in
     (DemoBulk.fired "throw new Error('boom')").2 = [DebouncedRefresh]
     ∧ childrenOf (dom s) 2 = [10; 11]
     ∧ debounceTimer s = None
     ∧ callback <$> timers s = [RemoveIndicator 7; RemoveIndicator 10]
     ∧ textOf (dom s) 9 = "Error executing code: boom"
     ∧ colorOf (dom s) 9 = "red").
Proof. vm_compute. repeat split. Qed.

End ScriptErrors.

(** ** The scheduler *)

Section Scheduler.
Import Js Dom Plugin PluginSpec SchedulerSpec.
Variable js : Engine.

Lemma filter_none {A} (P : A → Prop) `{∀ x, Decision (P x)} (l : list A) :
  (∀ x, x ∈ l → ¬ P x) → filter P l = [].
Proof.
  induction l as [|x l IH]; intros Hl; [done|].
  rewrite filter_cons_False by (apply Hl; left). apply IH.
  intros y Hy. apply Hl. by right.
Qed.

Lemma filter_all {A} (P : A → Prop) `{∀ x, Decision (P x)} (l : list A) :
  (∀ x, x ∈ l → P x) → filter P l = l.
Proof.
  induction l as [|x l IH]; intros Hl; [done|].
  rewrite filter_cons_True by (apply Hl; left). f_equal. apply IH.
  intros y Hy. apply Hl. by right.
Qed.

Lemma ids_filter_sub (P : Timer → Prop) `{∀ x, Decision (P x)} ts :
  sublist (ids (filter P ts)) (ids ts).
Proof.
  unfold ids. induction ts as [|t ts IH]; [done|].
  rewrite filter_cons. destruct (decide (P t)); simpl.
  - by apply sublist_skip.
  - by apply sublist_cons.
Qed.

Lemma ids_filter_NoDup (P : Timer → Prop) `{∀ x, Decision (P x)} ts :
  NoDup (ids ts) → NoDup (ids (filter P ts)).
Proof. intros Hnd. exact (sublist_NoDup _ _ Hnd (ids_filter_sub P ts)). Qed.

Lemma elem_ids t ts : t ∈ ts → timer_id t ∈ ids ts.
Proof. intros. unfold ids. by apply list_elem_of_fmap_2. Qed.

(** With distinct identifiers, a timer is in the queue when its
    identifier is. *)
Lemma same_id_same_timer t t' ts :
  NoDup (ids ts) → t ∈ ts → t' ∈ ts → timer_id t = timer_id t' → t = t'.
Proof.
  unfold ids. induction ts as [|x ts IH]; intros Hnd Ht Ht' Hid.
  - by apply elem_of_nil in Ht.
  - rewrite fmap_cons in Hnd. apply NoDup_cons in Hnd as [Hx Hnd].
    apply elem_of_cons in Ht as [->|Ht]; apply elem_of_cons in Ht' as [->|Ht'].
    + done.
    + exfalso. apply Hx. rewrite Hid. by apply list_elem_of_fmap_2.
    + exfalso. apply Hx. rewrite <- Hid. by apply list_elem_of_fmap_2.
    + by apply IH.
Qed.

Lemma extends_grows s s' : extends s s' → grows s s'.
Proof. intros (_ & _ & _ & _ & Hn & Hnew). by split. Qed.

Lemma grows_refl s : grows s s.
Proof. apply extends_grows, extends_refl. Qed.

(** What a callback does to the timer queue and to [debounceTimer]. *)
Lemma run_callback_grows cb s :
  grows s (run_callback js cb s).1
  ∧ (debounceTimer (run_callback js cb s).1 = debounceTimer s
     ∨ (debounceTimer (run_callback js cb s).1 = None ∧ cb = DebouncedRefresh)).
Proof.
  destruct cb as [|ind]; simpl.
  - pose proof (refreshAllCodeBlocks_extends js s) as He.
    pose proof (extends_grows _ _ He) as Hg.
    destruct He as (_ & _ & Hd & _).
    destruct (refreshAllCodeBlocks js s) as [s1 [[]|e]]; simpl in *.
    + split; [exact Hg | by right].
    + split; [exact Hg | by left].
  - destruct (parentNode (dom s) ind); simpl;
      (split; [apply extends_grows;
               first [apply extends_with_dom | apply extends_refl] | by left]).
Qed.

Lemma ids_app ts1 ts2 : ids (ts1 ++ ts2) = ids ts1 ++ ids ts2.
Proof. unfold ids. apply fmap_app. Qed.

Lemma ids_elem x ts : x ∈ ids ts ↔ ∃ t, t ∈ ts ∧ timer_id t = x.
Proof.
  unfold ids. rewrite list_elem_of_fmap. split; intros (t & H1 & H2); eauto.
Qed.

(** Timers that a callback adds are numbered from [nextTimer] on, so the
    queue stays without duplicates and below the new [nextTimer]. *)
Lemma grows_queue_ok s s' :
  grows s s' →
  NoDup (ids (timers s)) →
  (∀ t, t ∈ timers s → timer_id t < nextTimer s) →
  NoDup (ids (timers s'))
  ∧ (∀ t, t ∈ timers s' → timer_id t < nextTimer s').
Proof.
  intros (Hnow & new & Ht & Hnext & Hids & Hnew) Hnd Hlt.
  rewrite Ht, Hnext, ids_app. split.
  - apply NoDup_app. split; [done|]. split.
    + intros x Hx Hx'. apply ids_elem in Hx as (t & Ht1 & <-).
      unfold ids in Hx'. rewrite Hids in Hx'. apply elem_of_seq in Hx'.
      specialize (Hlt t Ht1). lia.
    + unfold ids. rewrite Hids. apply NoDup_seq.
  - intros t Hin. apply elem_of_app in Hin as [Hin|Hin].
    + specialize (Hlt t Hin). lia.
    + apply (list_elem_of_fmap_2 timer_id) in Hin. rewrite Hids in Hin.
      apply elem_of_seq in Hin. lia.
Qed.

(** The timers that are due all fire, in order; the queue loses them and
    gains the timers their callbacks set. *)
Lemma fire_spec due s :
  NoDup (ids due) →
  (∀ t, t ∈ due → timer_id t ∈ ids (timers s)) →
  NoDup (ids (timers s)) →
  (∀ t, t ∈ timers s → timer_id t < nextTimer s) →
  (fire js due s).2 = callback <$> due
  ∧ now (fire js due s).1 = now s
  ∧ (debounceTimer (fire js due s).1 = debounceTimer s
     ∨ (debounceTimer (fire js due s).1 = None
        ∧ DebouncedRefresh ∈ callback <$> due))
  ∧ ∃ new,
      timers (fire js due s).1
      = filter (λ t, timer_id t ∉ ids due) (timers s) ++ new
      ∧ nextTimer (fire js due s).1 = nextTimer s + length new
      ∧ ids new = seq (nextTimer s) (length new)
      ∧ Forall (λ t, (∃ ind, callback t = RemoveIndicator ind)
                     ∧ deadline t = now s + 500) new.
Proof.
  revert s. induction due as [|t rest IH]; intros s Hdue Hpend Hnd Hlt.
  - simpl. split; [done|]. split; [done|]. split; [by left|].
    exists []. rewrite app_nil_r, Nat.add_0_r. split; [|done].
    symmetry. apply filter_all. intros x _. apply not_elem_of_nil.
  - unfold ids in Hdue. rewrite fmap_cons in Hdue.
    apply NoDup_cons in Hdue as [Ht Hrest]. fold (ids rest) in Ht, Hrest.
    simpl. rewrite bool_decide_eq_true_2 by (apply Hpend; left).
    set (s0 := clearTimeout s (timer_id t)).
    destruct (run_callback_grows (callback t) s0) as [Hg Hdt].
    set (s1 := (run_callback js (callback t) s0).1) in *.
    assert (Hnd0 : NoDup (ids (timers s0))) by (by apply ids_filter_NoDup).
    assert (Hlt0 : ∀ x, x ∈ timers s0 → timer_id x < nextTimer s0).
    { intros x Hx. apply list_elem_of_filter in Hx as [_ Hx]. by apply Hlt. }
    destruct (grows_queue_ok s0 s1 Hg Hnd0 Hlt0) as [Hnd1 Hlt1].
    destruct Hg as (Hnow1 & new1 & Ht1 & Hnext1 & Hids1 & Hnew1).
    assert (Hpend1 : ∀ r, r ∈ rest → timer_id r ∈ ids (timers s1)).
    { intros r Hr. rewrite Ht1, ids_app. apply elem_of_app. left.
      assert (Hin : timer_id r ∈ ids (timers s)) by (apply Hpend; by right).
      apply ids_elem in Hin as (x & Hx & Hid).
      apply ids_elem. exists x. split; [|done].
      apply list_elem_of_filter. split; [|done].
      rewrite Hid. intros Heq. apply Ht. rewrite <- Heq. by apply elem_ids. }
    destruct (IH s1 Hrest Hpend1 Hnd1 Hlt1)
      as (Hlog & Hnow2 & Hdt2 & new2 & Ht2 & Hnext2 & Hids2 & Hnew2).
    destruct (fire js rest s1) as [s2 log]. simpl in *.
    split; [by rewrite Hlog|]. split; [by rewrite Hnow2, Hnow1|]. split.
    { destruct Hdt2 as [Hsame|[Hnone Hin]].
      - destruct Hdt as [Hsame'|[Hnone' Hcb]].
        + left. by rewrite Hsame, Hsame'.
        + right. split; [by rewrite Hsame|]. rewrite Hcb. left.
      - right. split; [done|]. by right. }
    exists (new1 ++ new2). rewrite length_app, ids_app.
    split; [|split; [|split]].
    + rewrite Ht2, Ht1, filter_app, <- app_assoc. f_equal; [|f_equal].
      * unfold s0. simpl. rewrite list_filter_filter.
        apply list_filter_iff. intros x. rewrite not_elem_of_cons. tauto.
      * apply filter_all. intros x Hx Hin.
        apply elem_ids in Hx. unfold ids in Hx. rewrite Hids1 in Hx.
        apply elem_of_seq in Hx.
        apply ids_elem in Hin as (r & Hr & Hid).
        specialize (Hpend r (list_elem_of_further _ _ _ Hr)).
        apply ids_elem in Hpend as (y & Hy & Hid').
        specialize (Hlt y Hy). simpl in Hx. lia.
    + rewrite Hnext2, Hnext1. simpl. lia.
    + unfold ids in *. rewrite Hids1, Hids2, Hnext1. simpl. by rewrite seq_app.
    + apply Forall_app. split; [done|]. by rewrite <- Hnow1.
Qed.

Lemma filter_iff_in {A} (P Q : A → Prop)
    `{∀ x, Decision (P x)} `{∀ x, Decision (Q x)} (l : list A) :
  (∀ x, x ∈ l → P x ↔ Q x) → filter P l = filter Q l.
Proof.
  induction l as [|x l IH]; intros Hl; [done|].
  rewrite !filter_cons.
  assert (Hx : P x ↔ Q x) by (apply Hl; left).
  rewrite IH by (intros y Hy; apply Hl; by right).
  destruct (decide (P x)), (decide (Q x)); tauto.
Qed.

Lemma filter_comm {A} (P Q : A → Prop)
    `{∀ x, Decision (P x)} `{∀ x, Decision (Q x)} (l : list A) :
  filter P (filter Q l) = filter Q (filter P l).
Proof.
  rewrite !list_filter_filter. apply list_filter_iff. intros x. tauto.
Qed.

Lemma filter_fmap_callback (ts : list Timer) :
  filter (λ cb, cb = DebouncedRefresh) (callback <$> ts)
  = callback <$> filter (λ t, callback t = DebouncedRefresh) ts.
Proof.
  induction ts as [|t ts IH]; [done|].
  rewrite fmap_cons, !filter_cons.
  destruct (decide (callback t = DebouncedRefresh)); simpl; by rewrite IH.
Qed.

(** One millisecond: the timers whose deadline has come fire, in order. *)
Lemma tick_spec s :
  sched_ok s →
  (tick js s).2 = callback <$> filter (λ t, deadline t ≤ S (now s)) (timers s)
  ∧ now (tick js s).1 = S (now s)
  ∧ (debounceTimer (tick js s).1 = debounceTimer s
     ∨ (debounceTimer (tick js s).1 = None
        ∧ DebouncedRefresh ∈ (tick js s).2))
  ∧ ∃ new,
      timers (tick js s).1
      = filter (λ t, S (now s) < deadline t) (timers s) ++ new
      ∧ nextTimer (tick js s).1 = nextTimer s + length new
      ∧ ids new = seq (nextTimer s) (length new)
      ∧ Forall (λ t, (∃ ind, callback t = RemoveIndicator ind)
                     ∧ deadline t = S (now s) + 500) new.
Proof.
  intros (Hnd & Hlt & Hdeb). unfold tick.
  set (s1 := {| app := app s; dom := dom s;
                codeBlockInstances := codeBlockInstances s;
                debounceTimer := debounceTimer s; timers := timers s;
                nextTimer := nextTimer s; now := S (now s);
                observers := observers s |}).
  set (due := filter (λ t, deadline t ≤ now s1) (timers s1)).
  assert (Hdue : NoDup (ids due)) by (by apply ids_filter_NoDup).
  assert (Hpend : ∀ t, t ∈ due → timer_id t ∈ ids (timers s1)).
  { intros t Ht. apply list_elem_of_filter in Ht as [_ Ht]. by apply elem_ids. }
  assert (Hlt1 : ∀ t, t ∈ timers s1 → timer_id t < nextTimer s1).
  { intros t Ht. by apply Hlt. }
  destruct (fire_spec due s1 Hdue Hpend Hnd Hlt1)
    as (Hlog & Hnow & Hdt & new & Ht & Hnext & Hids & Hnew).
  split; [done|]. split; [done|]. split.
  { destruct Hdt as [Hsame|[Hnone Hin]]; [by left|right].
    split; [done|]. by rewrite Hlog. }
  exists new. split; [|done]. rewrite Ht. f_equal.
  apply filter_iff_in. intros t Hin. simpl. split.
  - intros Hnot. destruct (decide (S (now s) < deadline t)); [done|].
    exfalso. apply Hnot. apply elem_ids. apply list_elem_of_filter.
    split; [simpl; lia | done].
  - intros Hlater Hid. apply ids_elem in Hid as (t' & Ht' & Hid).
    apply list_elem_of_filter in Ht' as [Hd Ht']. simpl in Hd.
    assert (t' = t) by (by apply (same_id_same_timer t' t (timers s))).
    subst t'. lia.
Qed.

Lemma sched_ok_fields s s' :
  timers s' = timers s → nextTimer s' = nextTimer s → now s' = now s →
  debounceTimer s' = debounceTimer s → sched_ok s → sched_ok s'.
Proof.
  intros Ht Hn Hnow Hd Hok. unfold sched_ok. by rewrite Ht, Hn, Hnow, Hd.
Qed.

(** The scheduler's pending timers after a millisecond, and the
    scheduler's firings during it. *)
Lemma tick_pending s :
  sched_ok s →
  pending_refreshes (tick js s).1
  = filter (λ t, S (now s) < deadline t) (pending_refreshes s)
  ∧ filter (λ cb, cb = DebouncedRefresh) (tick js s).2
    = callback <$> filter (λ t, deadline t ≤ S (now s)) (pending_refreshes s).
Proof.
  intros Hok.
  destruct (tick_spec s Hok) as (Hlog & _ & _ & new & Ht & _ & _ & Hnew).
  unfold pending_refreshes. split.
  - rewrite Ht, filter_app, filter_comm.
    rewrite (filter_none _ new), app_nil_r; [done|].
    intros x Hx Hcb. rewrite Forall_forall in Hnew.
    destruct (Hnew x Hx) as [[ind Hind] _]. congruence.
  - rewrite Hlog, filter_fmap_callback. by rewrite filter_comm.
Qed.

Lemma tick_sched_ok s : sched_ok s → sched_ok (tick js s).1.
Proof.
  intros Hok.
  destruct (tick_spec s Hok) as (Hlog & Hnow & Hdt & new & Ht & Hnext & Hids & Hnew).
  destruct Hok as (Hnd & Hlt & Hdeb).
  rewrite Forall_forall in Hnew.
  unfold sched_ok. rewrite Ht, Hnext, Hnow, ids_app. split; [|split].
  - apply NoDup_app. split; [by apply ids_filter_NoDup|]. split.
    + intros x Hx Hx'. apply ids_elem in Hx as (t & Hin & <-).
      apply list_elem_of_filter in Hin as [_ Hin].
      rewrite Hids in Hx'. apply elem_of_seq in Hx'.
      specialize (Hlt t Hin). lia.
    + rewrite Hids. apply NoDup_seq.
  - intros t Hin. apply elem_of_app in Hin as [Hin|Hin].
    + apply list_elem_of_filter in Hin as [Hd Hin].
      specialize (Hlt t Hin). lia.
    + destruct (Hnew t Hin) as [_ Hd]. apply elem_ids in Hin.
      rewrite Hids in Hin. apply elem_of_seq in Hin. lia.
  - intros t Hin Hcb. apply elem_of_app in Hin as [Hin|Hin].
    + apply list_elem_of_filter in Hin as [Hd Hin].
      destruct Hdt as [->|[_ Hfired]]; [by apply Hdeb|].
      exfalso. rewrite Hlog in Hfired.
      apply list_elem_of_fmap in Hfired as (t0 & Hcb0 & Hin0).
      apply list_elem_of_filter in Hin0 as [Hd0 Hin0].
      assert (t0 = t); [|subst t0; lia].
      apply (same_id_same_timer t0 t (timers s)); try done.
      pose proof (Hdeb t Hin Hcb) as H1.
      pose proof (Hdeb t0 Hin0 (eq_sym Hcb0)) as H2. congruence.
    + destruct (Hnew t Hin) as [[ind Hind] _]. congruence.
Qed.

(** At most one timer of the scheduler is pending. *)
Lemma sched_ok_one_pending s : sched_ok s → length (pending_refreshes s) ≤ 1.
Proof.
  intros (Hnd & Hlt & Hdeb).
  pose proof (ids_filter_NoDup (λ t, callback t = DebouncedRefresh) _ Hnd) as Hp.
  fold (pending_refreshes s) in Hp.
  destruct (pending_refreshes s) as [|a [|b l]] eqn:E; simpl; [lia|lia|].
  exfalso.
  assert (Ha : a ∈ pending_refreshes s) by (rewrite E; left).
  assert (Hb : b ∈ pending_refreshes s) by (rewrite E; right; left).
  apply list_elem_of_filter in Ha as [Hca Ha].
  apply list_elem_of_filter in Hb as [Hcb Hb].
  pose proof (Hdeb a Ha Hca) as H1. pose proof (Hdeb b Hb Hcb) as H2.
  unfold ids in Hp. rewrite !fmap_cons in Hp.
  apply NoDup_cons in Hp as [Hp _]. apply Hp.
  replace (timer_id a) with (timer_id b) by congruence. left.
Qed.

(** A trigger leaves exactly one pending timer, due one interval from now. *)
Lemma trigger_arms k s :
  sched_ok s →
  armed (now s + debounceInterval) (on_trigger k s)
  ∧ now (on_trigger k s) = now s.
Proof.
  intros (Hnd & Hlt & Hdeb).
  assert (Hon : on_trigger k s = debouncedRefresh s) by (by destruct k).
  rewrite Hon. unfold debouncedRefresh.
  set (s1 := match debounceTimer s with
             | Some t => clearTimeout s t
             | None => s
             end).
  assert (Hs1 : ∃ P : Timer → Prop, ∃ _ : ∀ x, Decision (P x),
                 timers s1 = filter P (timers s)
                 ∧ nextTimer s1 = nextTimer s ∧ now s1 = now s).
  { unfold s1. destruct (debounceTimer s) as [t|].
    - by exists (λ x, timer_id x ≠ t), _.
    - exists (λ _, True), _. split; [|done]. symmetry. by apply filter_all. }
  destruct Hs1 as (P & HP & Ht1 & Hn1 & Hnow1).
  assert (Hnone : ∀ x, x ∈ timers s1 → callback x ≠ DebouncedRefresh).
  { intros x Hx Hcb. unfold s1 in Hx. destruct (debounceTimer s) as [t|] eqn:E.
    - apply list_elem_of_filter in Hx as [Hne Hx].
      specialize (Hdeb x Hx Hcb). congruence.
    - specialize (Hdeb x Hx Hcb). congruence. }
  simpl. rewrite Hnow1, Hn1. split; [|done].
  set (new := {| timer_id := nextTimer s; deadline := now s + debounceInterval;
                 callback := DebouncedRefresh |}).
  split.
  - unfold sched_ok. simpl.
    rewrite ids_app. split; [|split].
    + apply NoDup_app. split; [rewrite Ht1; by apply ids_filter_NoDup|].
      split; [|apply NoDup_singleton].
      intros x Hx Hx'. apply list_elem_of_singleton in Hx'. subst x.
      apply ids_elem in Hx as (t & Hin & Hid). rewrite Ht1 in Hin.
      apply list_elem_of_filter in Hin as [_ Hin].
      specialize (Hlt t Hin). simpl in Hid. lia.
    + intros t Hin. apply elem_of_app in Hin as [Hin|Hin].
      * rewrite Ht1 in Hin. apply list_elem_of_filter in Hin as [_ Hin].
        specialize (Hlt t Hin). lia.
      * apply list_elem_of_singleton in Hin. subst t. simpl.
        unfold debounceInterval. lia.
    + intros t Hin Hcb. apply elem_of_app in Hin as [Hin|Hin].
      * by destruct (Hnone t Hin).
      * apply list_elem_of_singleton in Hin. by subst t.
  - exists new. split; [|done]. unfold pending_refreshes. simpl.
    rewrite filter_app, (filter_none _ (timers s1)) by exact Hnone.
    by rewrite filter_cons_True.
Qed.

(** What scripts do leaves the scheduler as it is. *)
Lemma extends_sched_ok s s' : extends s s' → sched_ok s → sched_ok s'.
Proof.
  intros He (Hnd & Hlt & Hdeb).
  pose proof (extends_grows _ _ He) as Hg.
  destruct (grows_queue_ok s s' Hg Hnd) as [Hnd' Hlt']; [by apply Hlt|].
  destruct He as (_ & _ & Hd & _ & Hnow & new & Ht & Hnext & Hids & Hnew).
  rewrite Forall_forall in Hnew.
  split; [done|]. split.
  - intros t Hin. split; [by apply Hlt'|]. rewrite Hnow.
    rewrite Ht in Hin. apply elem_of_app in Hin as [Hin|Hin].
    + by apply Hlt.
    + destruct (Hnew t Hin) as [_ ->]. lia.
  - intros t Hin Hcb. rewrite Hd. rewrite Ht in Hin.
    apply elem_of_app in Hin as [Hin|Hin]; [by apply Hdeb|].
    destruct (Hnew t Hin) as [[ind Hind] _]. congruence.
Qed.

Lemma mount_extends src el sourcePath random s :
  ∃ m os, extends (with_observers os (with_instances m s))
                  (mount js src el sourcePath random s).1.
Proof.
  unfold mount.
  set (k := sourcePath +:+ ":" +:+ random).
  set (s1 := with_instances _ s).
  set (s2 := match parentNode (dom s1) el with
             | Some p => with_observers _ s1
             | None => s1
             end).
  exists (codeBlockInstances s1), (observers s2).
  assert (H2 : with_observers (observers s2)
                 (with_instances (codeBlockInstances s1) s) = s2).
  { unfold s2. destruct (parentNode (dom s1) el); [done|]. by destruct s. }
  rewrite H2.
  destruct (createEl (dom s2) el _ _ _) as [d oc].
  pose proof (runCodeBlock_extends js (refreshCodeBlock js) src oc k
                (refreshCodeBlock_extends js) (with_dom d s2)) as He.
  destruct (runCodeBlock _ _ _ _ _ _) as [s3 [[]|e]]; simpl in *.
  - eapply extends_trans; [apply extends_with_dom | exact He].
  - destruct (render_error (dom s3) el e) as [d' r]. simpl.
    eapply extends_trans; [apply extends_with_dom|].
    eapply extends_trans; [exact He | apply extends_with_dom].
Qed.

(** Every event keeps the timer queue in order. *)
Lemma step_sched_ok e s : sched_ok s → sched_ok (step js e s).1.
Proof.
  intros Hok. destruct e as [src el sp rnd|kind|a|o ms| |]; simpl.
  - destruct (mount_extends src el sp rnd s) as (m & os & He).
    eapply extends_sched_ok; [exact He|]. by eapply sched_ok_fields.
  - by destruct (trigger_arms kind s Hok) as [[H _] _].
  - by eapply sched_ok_fields.
  - case_bool_decide; [|done]. unfold observer_callback. simpl.
    destruct (existsb _ _); [|done]. by eapply sched_ok_fields.
  - by apply tick_sched_ok.
  - unfold onunload. simpl. destruct (debounceTimer s) as [t|] eqn:E.
    + destruct Hok as (Hnd & Hlt & Hdeb). split; [|split]; simpl.
      * by apply ids_filter_NoDup.
      * intros x Hx. apply list_elem_of_filter in Hx as [_ Hx]. by apply Hlt.
      * intros x Hx Hcb. apply list_elem_of_filter in Hx as [Hne Hx].
        specialize (Hdeb x Hx Hcb). congruence.
    + by eapply sched_ok_fields.
Qed.

Lemma run_sched_ok es s : sched_ok s → sched_ok (run js es s).1.
Proof.
  revert s. induction es as [|e es IH]; intros s Hok; simpl; [done|].
  pose proof (step_sched_ok e s Hok) as H1.
  destruct (step js e s) as [s1 fired]. specialize (IH s1 H1).
  by destruct (run js es s1).
Qed.

Lemma loaded_sched_ok a d : sched_ok (loaded a d).
Proof.
  split; [constructor|]. split; intros t Ht; by apply elem_of_nil in Ht.
Qed.

Lemma run_log_app es1 es2 s :
  (run js (es1 ++ es2) s).2
  = (run js es1 s).2 ++ (run js es2 (run js es1 s).1).2.
Proof.
  revert s. induction es1 as [|e es1 IH]; intros s; simpl; [done|].
  destruct (step js e s) as [s1 fired]. specialize (IH s1).
  destruct (run js (es1 ++ es2) s1), (run js es1 s1). simpl in *.
  by rewrite IH, app_assoc.
Qed.

Lemma refreshes_app l1 l2 : refreshes (l1 ++ l2) = refreshes l1 ++ refreshes l2.
Proof. apply filter_app. Qed.

Lemma refreshes_at (n : nat) (fired : list Callback) :
  refreshes ((λ cb, (n, cb)) <$> fired)
  = (λ cb, (n, cb)) <$> filter (λ cb, cb = DebouncedRefresh) fired.
Proof.
  unfold refreshes. induction fired as [|cb fired IH]; [done|].
  rewrite fmap_cons, !filter_cons. simpl.
  destruct (decide (cb = DebouncedRefresh)); simpl; by rewrite IH.
Qed.

(** A millisecond in *Pending*, before the deadline: still *Pending*, and
    no refresh. *)
Lemma tick_before_deadline s dl :
  armed dl s → S (now s) < dl →
  armed dl (tick js s).1 ∧ now (tick js s).1 = S (now s)
  ∧ filter (λ cb, cb = DebouncedRefresh) (tick js s).2 = [].
Proof.
  intros [Hok (t & Hp & Hdl)] Hlt.
  destruct (tick_pending s Hok) as [Hp' Hlog].
  destruct (tick_spec s Hok) as (_ & Hnow & _).
  rewrite Hp in Hp', Hlog. split; [|split; [done|]].
  - split; [by apply tick_sched_ok|]. exists t. split; [|done].
    rewrite Hp'. rewrite filter_cons_True by lia. done.
  - rewrite Hlog, filter_cons_False by lia. done.
Qed.

(** The millisecond of the deadline: the timer fires once, and the
    scheduler is *Idle*. *)
Lemma tick_at_deadline s :
  armed (S (now s)) s →
  idle (tick js s).1 ∧ now (tick js s).1 = S (now s)
  ∧ filter (λ cb, cb = DebouncedRefresh) (tick js s).2 = [DebouncedRefresh].
Proof.
  intros [Hok (t & Hp & Hdl)].
  destruct (tick_pending s Hok) as [Hp' Hlog].
  destruct (tick_spec s Hok) as (_ & Hnow & _).
  rewrite Hp in Hp', Hlog. split; [|split; [done|]].
  - split; [by apply tick_sched_ok|].
    rewrite Hp'. rewrite filter_cons_False by lia. done.
  - rewrite Hlog, filter_cons_True by lia.
    assert (Hin : t ∈ pending_refreshes s) by (rewrite Hp; left).
    apply list_elem_of_filter in Hin as [Hcb _]. simpl. by rewrite Hcb.
Qed.

(** A millisecond in *Idle*: still *Idle*, and no refresh. *)
Lemma tick_idle s :
  idle s →
  idle (tick js s).1 ∧ now (tick js s).1 = S (now s)
  ∧ filter (λ cb, cb = DebouncedRefresh) (tick js s).2 = [].
Proof.
  intros [Hok Hp].
  destruct (tick_pending s Hok) as [Hp' Hlog].
  destruct (tick_spec s Hok) as (_ & Hnow & _).
  rewrite Hp in Hp', Hlog. split; [|split; [done|]].
  - split; [by apply tick_sched_ok | done].
  - done.
Qed.

Lemma ticks_idle n s :
  idle s →
  idle (run js (repeat Tick n) s).1
  ∧ now (run js (repeat Tick n) s).1 = now s + n
  ∧ refreshes (run js (repeat Tick n) s).2 = [].
Proof.
  revert s. induction n as [|n IH]; intros s Hidle; simpl.
  - split; [done|]. split; [lia | done].
  - destruct (tick_idle s Hidle) as (Hi & Hnow & Hlog).
    destruct (tick js s) as [s1 fired]. simpl in *.
    destruct (IH s1 Hi) as (Hi' & Hnow' & Hlog').
    destruct (run js (repeat Tick n) s1) as [s2 log]. simpl in *.
    split; [done|]. split; [lia|].
    by rewrite refreshes_app, refreshes_at, Hlog, Hlog'.
Qed.

Lemma ticks_before_deadline n s dl :
  armed dl s → now s + n < dl →
  armed dl (run js (repeat Tick n) s).1
  ∧ now (run js (repeat Tick n) s).1 = now s + n
  ∧ refreshes (run js (repeat Tick n) s).2 = [].
Proof.
  revert s. induction n as [|n IH]; intros s Harmed Hlt; simpl.
  - split; [done|]. split; [lia | done].
  - destruct (tick_before_deadline s dl Harmed) as (Ha & Hnow & Hlog); [lia|].
    destruct (tick js s) as [s1 fired]. simpl in *.
    destruct (IH s1 Ha) as (Ha' & Hnow' & Hlog'); [lia|].
    destruct (run js (repeat Tick n) s1) as [s2 log]. simpl in *.
    split; [done|]. split; [lia|].
    by rewrite refreshes_app, refreshes_at, Hlog, Hlog'.
Qed.

Lemma armed_in_future s dl : armed dl s → now s < dl.
Proof.
  intros [(_ & Hlt & _) (t & Hp & <-)].
  assert (Hin : t ∈ pending_refreshes s) by (rewrite Hp; left).
  apply list_elem_of_filter in Hin as [_ Hin]. by apply Hlt.
Qed.

Lemma ticks_reach_deadline n s dl :
  armed dl s → dl ≤ now s + n →
  idle (run js (repeat Tick n) s).1
  ∧ now (run js (repeat Tick n) s).1 = now s + n
  ∧ refreshes (run js (repeat Tick n) s).2 = [(dl, DebouncedRefresh)].
Proof.
  revert s. induction n as [|n IH]; intros s Harmed Hle.
  - pose proof (armed_in_future s dl Harmed). lia.
  - pose proof (armed_in_future s dl Harmed) as Hfut. simpl.
    destruct (decide (dl = S (now s))) as [->|Hne].
    + destruct (tick_at_deadline s Harmed) as (Hi & Hnow & Hlog).
      destruct (tick js s) as [s1 fired]. simpl in *.
      destruct (ticks_idle n s1 Hi) as (Hi' & Hnow' & Hlog').
      destruct (run js (repeat Tick n) s1) as [s2 log]. simpl in *.
      split; [done|]. split; [lia|].
      rewrite refreshes_app, refreshes_at, Hlog, Hlog', Hnow. done.
    + destruct (tick_before_deadline s dl Harmed) as (Ha & Hnow & Hlog); [lia|].
      destruct (tick js s) as [s1 fired]. simpl in *.
      destruct (IH s1 Ha) as (Hi' & Hnow' & Hlog'); [lia|].
      destruct (run js (repeat Tick n) s1) as [s2 log]. simpl in *.
      split; [done|]. split; [lia|].
      by rewrite refreshes_app, refreshes_at, Hlog, Hlog'.
Qed.

(** The rest of a burst, from *Pending* just after a trigger: each further
    trigger comes before the deadline and moves it; nothing is refreshed. *)
Lemma burst_goes_on more s :
  armed (now s + debounceInterval) s →
  Forall (λ gk, gk.1 < debounceInterval) more →
  let r := run js (flat_map (λ gk, repeat Tick gk.1 ++ [Triggered gk.2]) more) s in
  armed (now r.1 + debounceInterval) r.1
  ∧ now r.1 = now s + sum_list (more.*1)
  ∧ refreshes r.2 = [].
Proof.
  intros Harmed Hgaps. revert s Harmed.
  induction Hgaps as [|[gap k] more Hgap Hgaps IH]; intros s Harmed; simpl.
  - split; [done|]. split; [lia | done].
  - simpl in Hgap. rewrite <- app_assoc.
    rewrite run_log_app, (run_app js).
    destruct (ticks_before_deadline gap s _ Harmed) as (Ha & Hnow & Hlog); [lia|].
    set (s1 := (run js (repeat Tick gap) s).1) in *.
    simpl.
    destruct Ha as [Hok1 _].
    destruct (trigger_arms k s1 Hok1) as [Ha2 Hnow2].
    set (s2 := on_trigger k s1) in *.
    rewrite <- Hnow2 in Ha2.
    destruct (IH s2 Ha2) as (Ha3 & Hnow3 & Hlog3).
    destruct (run js (flat_map _ more) s2) as [s3 log3]. simpl in *.
    split; [done|]. split.
    + rewrite Hnow3, Hnow2, Hnow, <- Nat.add_assoc. reflexivity.
    + by rewrite refreshes_app, Hlog, Hlog3.
Qed.

(** C1. A burst of triggers, each less than the interval after the one
    before, then quiet for at least the interval: the bulk refresh runs
    exactly once, one interval after the last trigger, and the scheduler is
    back to *Idle*. Each trigger leaves one pending timer with the deadline
    one interval ahead, and at no moment is more than one timer of the
    scheduler pending. *)
Theorem burst_refreshes_once s0 first more n :
  sched_ok s0 →
  Forall (λ gk, gk.1 < debounceInterval) more →
  debounceInterval ≤ n →
  let events := burst first more ++ repeat Tick n in
  let last_trigger := now s0 + sum_list (more.*1) in
  refreshes (run js events s0).2
  = [(last_trigger + debounceInterval, DebouncedRefresh)]
  ∧ idle (run js events s0).1
  ∧ (∀ k s, sched_ok s → armed (now s + debounceInterval) (on_trigger k s))
  ∧ (∀ i, length (pending_refreshes (run js (take i events) s0).1) ≤ 1).
Proof.
  intros Hok Hgaps Hquiet events last_trigger.
  assert (Hrun : run js events s0
                 = run js (flat_map (λ gk, repeat Tick gk.1 ++ [Triggered gk.2]) more
                             ++ repeat Tick n) (on_trigger first s0)).
  { unfold events, burst. simpl. by destruct (run js _ (on_trigger first s0)). }
  destruct (trigger_arms first s0 Hok) as [Ha Hnow].
  set (s1 := on_trigger first s0) in *. rewrite <- Hnow in Ha.
  destruct (burst_goes_on more s1 Ha Hgaps) as (Ha2 & Hnow2 & Hlog2).
  set (tail := flat_map _ more) in *.
  set (s2 := (run js tail s1).1) in *.
  destruct (ticks_reach_deadline n s2 _ Ha2) as (Hi & _ & Hlog3); [lia|].
  split; [|split; [|split]].
  - rewrite Hrun, run_log_app. fold s2.
    rewrite refreshes_app, Hlog2, Hlog3. simpl.
    unfold last_trigger. by rewrite Hnow2, Hnow.
  - rewrite Hrun, (run_app js). by fold s2.
  - intros k s Hs. by destruct (trigger_arms k s Hs).
  - intros i. apply sched_ok_one_pending. by apply run_sched_ok.
Qed.

End Scheduler.

Lemma burst_refreshes_once_witness :
  SchedulerSpec.sched_ok DemoHost.start
  ∧ Forall (λ gk : nat * Plugin.TriggerKind, gk.1 < Plugin.debounceInterval)
           [(300, Plugin.Create); (999, Plugin.Delete)]
  ∧ Plugin.debounceInterval ≤ 1000
  ∧ SchedulerSpec.refreshes
      (Plugin.run DemoHost.engine
         (SchedulerSpec.burst Plugin.Modify
            [(300, Plugin.Create); (999, Plugin.Delete)]
          ++ repeat Plugin.Tick 1000) DemoHost.start).2
    = [(Plugin.now DemoHost.start
        + sum_list ([(300, Plugin.Create); (999, Plugin.Delete)].*1)
        + Plugin.debounceInterval, Plugin.DebouncedRefresh)].
Proof.
  assert (H1 : SchedulerSpec.sched_ok DemoHost.start)
    by apply loaded_sched_ok.
  assert (H2 : Forall (λ gk : nat * Plugin.TriggerKind,
                         gk.1 < Plugin.debounceInterval)
                 [(300, Plugin.Create); (999, Plugin.Delete)]).
  { unfold Plugin.debounceInterval. repeat constructor; simpl; lia. }
  assert (H3 : Plugin.debounceInterval ≤ 1000)
    by (unfold Plugin.debounceInterval; lia).
  split; [exact H1|]. split; [exact H2|]. split; [exact H3|].
  exact (proj1 (burst_refreshes_once DemoHost.engine DemoHost.start
                  Plugin.Modify _ 1000 H1 H2 H3)).
Defined.

(** The same burst, run: one refresh, at 2299 ms. *)
Example burst_runs_once :
  SchedulerSpec.refreshes
    (Plugin.run DemoHost.engine
       (SchedulerSpec.burst Plugin.Modify
          [(300, Plugin.Create); (999, Plugin.Delete)]
        ++ repeat Plugin.Tick 1000) DemoHost.start).2
  = [(2299, Plugin.DebouncedRefresh)].
Proof. vm_compute. reflexivity. Qed.

(** ** How the element tree evolves *)

Section Evolution.
Import Js Dom DomSpec.

Lemma filter_not_in_nil (l : list nat) : filter (λ k, k ∉ ([] : list nat)) l = l.
Proof.
  induction l as [|x l IH]; [done|].
  rewrite filter_cons_True by apply not_elem_of_nil. by rewrite IH.
Qed.

Lemma filter_not_in_app (S1 S2 l : list nat) :
  filter (λ k, k ∉ S2) (filter (λ k, k ∉ S1) l) = filter (λ k, k ∉ S1 ++ S2) l.
Proof.
  rewrite list_filter_filter. apply list_filter_iff. intros x.
  rewrite elem_of_app. tauto.
Qed.


Lemma evolves_refl E G d : wf d → evolves E G d d.
Proof.
  intros Hwf. split; [done|]. split; [done|]. intros x Hx.
  repeat split; try done. intros _. exists []. split.
  - apply list_subseteq_nil.
  - by rewrite filter_not_in_nil.
Qed.

Lemma evolves_trans E1 E2 G G2 d d1 d2 :
  evolves E1 G d d1 → evolves E2 G2 d1 d2 →
  (∀ g, g ∈ G2 → g ∈ G ∨ next d ≤ g) →
  evolves (E1 ++ E2) G d d2.
Proof.
  intros (Hwf1 & Hn1 & H1) (Hwf2 & Hn2 & H2) HG.
  split; [done|]. split; [lia|]. intros x Hx.
  destruct (H1 x Hx) as (Hex1 & Htag1 & Htext1 & Hpar1 & Hch1).
  destruct (H2 x) as (Hex2 & Htag2 & Htext2 & Hpar2 & Hch2); [lia|].
  split; [auto|]. split; [congruence|]. split; [congruence|]. split.
  - intros Hnot. rewrite elem_of_app in Hnot.
    rewrite Hpar2, Hpar1; tauto.
  - intros HxG.
    assert (HxG2 : x ∉ G2).
    { intros Hin. destruct (HG x Hin); [done | lia]. }
    destruct (Hch1 HxG) as (S1 & HS1 & Hc1).
    destruct (Hch2 HxG2) as (S2 & HS2 & Hc2).
    exists (S1 ++ S2). split.
    + intros k Hk. apply elem_of_app in Hk as [Hk|Hk]; apply elem_of_app; auto.
    + by rewrite Hc2, Hc1, filter_not_in_app.
Qed.


(** A new element under [par]. *)
Lemma createEl_evolves d par t c txt :
  wf d → par < next d → evolves [] [par] d (createEl d par t c txt).1.
Proof.
  intros Hwf Hpar. split; [by apply createEl_wf|].
  split; [rewrite createEl_next; lia|]. intros x Hx.
  assert (Hne : x ≠ next d) by lia.
  unfold exists_in, tagOf, textOf, parentNode, childrenOf.
  rewrite createEl_lookup by lia. rewrite decide_False by done.
  destruct (decide (x = par)) as [->|Hxp].
  - destruct (nodes d !! par) as [n|]; simpl; repeat split; try done;
      try (by eexists); intros Hnot; exfalso; apply Hnot; left.
  - repeat split; try done. intros _. exists []. split; [done|].
    by rewrite filter_not_in_nil.
Qed.

Lemma createEl_new d par t c txt :
  par ≠ next d →
  let d' := (createEl d par t c txt).1 in
  exists_in d' (next d) ∧ tagOf d' (next d) = t ∧ textOf d' (next d) = txt
  ∧ childrenOf d' (next d) = [] ∧ parentNode d' (next d) = Some par.
Proof.
  intros Hpar d'. subst d'.
  unfold exists_in, tagOf, textOf, parentNode, childrenOf.
  rewrite createEl_lookup by done. rewrite decide_True by done.
  simpl. repeat split. by eexists.
Qed.

Lemma createEl_children d par t c txt :
  par ≠ next d → exists_in d par →
  childrenOf (createEl d par t c txt).1 par = childrenOf d par ++ [next d].
Proof.
  intros Hpar [n Hn]. unfold childrenOf.
  rewrite createEl_lookup by done. rewrite decide_False by done.
  rewrite decide_True by done. by rewrite Hn.
Qed.








(** An element that has none of its ancestors equal to [a] is not
    contained in [a]. *)
Lemma walks_to_chain fuel d a x l :
  chain d x l → a ∉ x :: l → walks_to fuel d a x = false.
Proof.
  revert x fuel. induction l as [|p l IH]; intros x fuel [_ Hc] Ha;
    destruct fuel as [|fuel]; simpl;
    rewrite decide_False by (intros ->; apply Ha; left); try done.
  - by rewrite Hc.
  - destruct Hc as [-> Hc]. apply IH; [done|].
    intros Hin. apply Ha. by right.
Qed.

Lemma chain_evolves E G d d' x l :
  evolves E G d d' → wf d → chain d x l →
  (∀ y, y ∈ x :: l → y ∉ E) → chain d' x l.
Proof.
  intros (Hwf' & Hn & H) Hwf. revert x.
  induction l as [|p l IH]; intros x [Hex Hc] HE; simpl.
  - destruct (H x (wf_lt _ _ Hwf Hex)) as (Hex' & _ & _ & Hpar & _).
    split; [auto|]. rewrite Hpar; [done|]. apply HE. left.
  - destruct Hc as [Hp Hc].
    destruct (H x (wf_lt _ _ Hwf Hex)) as (Hex' & _ & _ & Hpar & _).
    split; [auto|]. split.
    + rewrite Hpar; [done|]. apply HE. left.
    + apply IH; [done|]. intros y Hy. apply HE. by right.
Qed.





End Evolution.

(** ** Tables *)

Section Table.
Import Js Dom DomSpec TableSpec.





Lemma chain_exists d x l : chain d x l → exists_in d x.
Proof. by destruct l; intros [? _]. Qed.







End Table.

Section TableExamples.
Import Js Dom DomSpec TableSpec.

Lemma page_dom_wf : wf DemoHost.page_dom.
Proof.
  assert (H0 : wf (createElement {| nodes := ∅; next := 0 |} "body").1).
  { intros x Hx. simpl in *. rewrite lookup_insert_ne by lia.
    apply lookup_empty. }
  change DemoHost.page_dom
    with (createEl
            (createEl (createElement {| nodes := ∅; next := 0 |} "body").1 0
               "div" "block-language-statblock" "").1 0
            "div" "block-language-statblock" "").1.
  apply createEl_wf; [apply createEl_wf; [exact H0 | simpl; lia] | simpl; lia].
Qed.

(** [table(["A","B"], [[1,"x"],[2,"y"]])], computed: a table (3) with a
    header section (4) of one row (5) with two cells (6, 7), and a body (8)
    of two rows (9, 12) with two cells each. *)
Example spec_table :
  let r := Sp.table DemoHost.page_dom 1 ["A"; "B"] DemoTable.spec_rows in
  r.2 = Normal 3
  ∧ childrenOf r.1 1 = [3] ∧ childrenOf r.1 3 = [4; 8]
  ∧ childrenOf r.1 4 = [5] ∧ childrenOf r.1 5 = [6; 7]
  ∧ textOf r.1 <$> [6; 7] = ["A"; "B"]
  ∧ childrenOf r.1 8 = [9; 12]
  ∧ childrenOf r.1 9 = [10; 11] ∧ childrenOf r.1 12 = [13; 14]
  ∧ textOf r.1 <$> [10; 11; 13; 14] = ["1"; "x"; "2"; "y"].
Proof. vm_compute. repeat split. Qed.

End TableExamples.



(** * More of the plugin *)

(** ** The block processor *)

Section BlockProcessor.
Import Js Dom Plugin PluginSpec MountSpec.
Variable js : Engine.



Lemma map_set_keys k v m :
  (map_set k v m).*1 = if decide (k ∈ m.*1) then m.*1 else m.*1 ++ [k].
Proof.
  induction m as [|[k' v'] m IH].
  - rewrite decide_False; [done | apply not_elem_of_nil].
  - cbn [map_set]. rewrite fmap_cons. cbn [fst].
    destruct (decide (k' = k)) as [->|Hne].
    + rewrite decide_True; [done | left].
    + rewrite fmap_cons, IH. cbn [fst].
      destruct (decide (k ∈ m.*1)) as [Hin|Hnot].
      * rewrite decide_True; [done | by right].
      * rewrite decide_False; [done|].
        rewrite not_elem_of_cons. split; [congruence | done].
Qed.

(** X2. Mounting a block stores its record under the key made of the
    source path and the random suffix: a lookup of that key gives the
    record, every other key gives what it gave; a new key comes last in the
    order of enumeration, a key that was there keeps its place. This holds
    whatever the script does, a script that fails to compile included. *)
Theorem mount_registers src el sourcePath random s :
  let k := key_of sourcePath random in
  let s' := (mount js src el sourcePath random s).1 in
  (∀ k', map_get k' (codeBlockInstances s')
         = if decide (k' = k)
           then Some {| source := src; element := el; context := sourcePath |}
           else map_get k' (codeBlockInstances s))
  ∧ (codeBlockInstances s').*1
    = if decide (k ∈ (codeBlockInstances s).*1) then (codeBlockInstances s).*1
      else (codeBlockInstances s).*1 ++ [k].
Proof.
  intros k s'. unfold s'. rewrite mount_instances. fold k. split.
  - intros k'. destruct (decide (k' = k)) as [->|Hne].
    + apply map_get_set_eq.
    + by apply map_get_set_ne.
  - apply map_set_keys.
Qed.

(** X3. A refresh of one block, from the host or through [sp.refresh()],
    leaves the scheduler alone: [debounceTimer] and the pending timer of
    the scheduler are what they were, and so are the registry and the
    clock. *)
Theorem refresh_leaves_scheduler depth id s :
  let s' := (refreshCodeBlock_at js depth id s).1 in
  debounceTimer s' = debounceTimer s
  ∧ pending_refreshes s' = pending_refreshes s
  ∧ codeBlockInstances s' = codeBlockInstances s
  ∧ now s' = now s.
Proof.
  intros s'.
  destruct (refreshCodeBlock_at_extends js depth id s)
    as (_ & Hi & Hd & _ & Hn & new & Ht & _ & _ & Hnew).
  fold s' in Hi, Hd, Hn, Ht. repeat split; try done.
  unfold pending_refreshes. rewrite Ht, filter_app.
  rewrite (filter_none _ new), app_nil_r; [done|].
  intros t Hin Hcb. rewrite Forall_forall in Hnew.
  destruct (Hnew t Hin) as [[ind Hind] _]. congruence.
Qed.

End BlockProcessor.

(** ** Unloading, and a second window *)

Section Lifecycle.
Import Js Dom Plugin PluginSpec SchedulerSpec.
Variable js : Engine.

Lemma onunload_idle s : sched_ok s → idle (onunload s).
Proof.
  intros Hok. pose proof (step_sched_ok js Unloaded s Hok) as Hok'.
  simpl in Hok'. split; [done|].
  destruct Hok as (Hnd & Hlt & Hdeb).
  unfold onunload, pending_refreshes. simpl.
  destruct (debounceTimer s) as [t|] eqn:E; simpl; apply filter_none.
  - intros x Hx Hcb. apply list_elem_of_filter in Hx as [Hne Hx].
    specialize (Hdeb x Hx Hcb). congruence.
  - intros x Hx Hcb. specialize (Hdeb x Hx Hcb). congruence.
Qed.

(** X4. Unloading empties the registry, disconnects the observers and
    cancels the timer of the scheduler: however long the host waits
    afterwards, no bulk refresh runs. *)
Theorem unload_cancels_refresh s n :
  sched_ok s →
  codeBlockInstances (onunload s) = []
  ∧ observers (onunload s) = []
  ∧ debounceTimer (onunload s) = None
  ∧ pending_refreshes (onunload s) = []
  ∧ refreshes (run js (repeat Tick n) (onunload s)).2 = [].
Proof.
  intros Hok. pose proof (onunload_idle s Hok) as Hidle.
  destruct (ticks_idle js n (onunload s) Hidle) as (_ & _ & Hlog).
  destruct Hidle as [_ Hp].
  split; [|split; [|split; [|by split]]];
    unfold onunload; cbn [debounceTimer with_observers with_instances];
    by destruct (debounceTimer s) eqn:E.
Qed.

(** A burst and the quiet after it, from any state of the queue. *)
Lemma window s0 first more n :
  sched_ok s0 →
  Forall (λ gk, gk.1 < debounceInterval) more →
  debounceInterval ≤ n →
  let r := run js (burst first more ++ repeat Tick n) s0 in
  idle r.1
  ∧ now r.1 = now s0 + sum_list (more.*1) + n
  ∧ refreshes r.2
    = [(now s0 + sum_list (more.*1) + debounceInterval, DebouncedRefresh)].
Proof.
  intros Hok Hgaps Hquiet r.
  assert (Hrun : r = run js (flat_map (λ gk, repeat Tick gk.1 ++ [Triggered gk.2]) more
                             ++ repeat Tick n) (on_trigger first s0)).
  { unfold r, burst. simpl. by destruct (run js _ (on_trigger first s0)). }
  destruct (trigger_arms first s0 Hok) as [Ha Hnow].
  set (s1 := on_trigger first s0) in *. rewrite <- Hnow in Ha.
  destruct (burst_goes_on js more s1 Ha Hgaps) as (Ha2 & Hnow2 & Hlog2).
  set (tail := flat_map _ more) in *.
  set (s2 := (run js tail s1).1) in *.
  destruct (ticks_reach_deadline js n s2 _ Ha2) as (Hi & Hnow3 & Hlog3); [lia|].
  rewrite Hrun. split; [|split].
  - rewrite (run_app js). by fold s2.
  - rewrite (run_app js). fold s2. rewrite Hnow3, Hnow2, Hnow. done.
  - rewrite run_log_app. fold s2.
    rewrite refreshes_app, Hlog2, Hlog3. simpl. by rewrite Hnow2, Hnow.
Qed.

(** X5. Two bursts, each followed by a quiet interval: two bulk
    refreshes, each one interval after the last trigger of its burst. A
    trigger that comes after the timer fired opens a window of its own. *)
Theorem second_window s0 first1 more1 n1 first2 more2 n2 :
  sched_ok s0 →
  Forall (λ gk, gk.1 < debounceInterval) more1 → debounceInterval ≤ n1 →
  Forall (λ gk, gk.1 < debounceInterval) more2 → debounceInterval ≤ n2 →
  let last1 := now s0 + sum_list (more1.*1) in
  let last2 := last1 + n1 + sum_list (more2.*1) in
  refreshes
    (run js ((burst first1 more1 ++ repeat Tick n1)
             ++ (burst first2 more2 ++ repeat Tick n2)) s0).2
  = [(last1 + debounceInterval, DebouncedRefresh);
     (last2 + debounceInterval, DebouncedRefresh)].
Proof.
  intros Hok Hg1 Hq1 Hg2 Hq2 last1 last2.
  destruct (window s0 first1 more1 n1 Hok Hg1 Hq1) as ([Hok1 _] & Hnow1 & Hlog1).
  set (s1 := (run js (burst first1 more1 ++ repeat Tick n1) s0).1) in *.
  destruct (window s1 first2 more2 n2 Hok1 Hg2 Hq2) as (_ & _ & Hlog2).
  rewrite run_log_app. fold s1. rewrite refreshes_app, Hlog1, Hlog2, Hnow1.
  done.
Qed.

End Lifecycle.

Lemma unload_cancels_refresh_witness :
  let s := (Plugin.step DemoHost.engine (Plugin.Triggered Plugin.Modify)
              DemoHost.start).1 in
  SchedulerSpec.sched_ok s
  ∧ PluginSpec.pending_refreshes s ≠ []
  ∧ Plugin.codeBlockInstances (Plugin.onunload s) = []
  ∧ Plugin.observers (Plugin.onunload s) = []
  ∧ Plugin.debounceTimer (Plugin.onunload s) = None
  ∧ PluginSpec.pending_refreshes (Plugin.onunload s) = []
  ∧ SchedulerSpec.refreshes
      (Plugin.run DemoHost.engine (repeat Plugin.Tick 2000)
         (Plugin.onunload s)).2 = [].
Proof.
  intros s.
  assert (H : SchedulerSpec.sched_ok s)
    by apply step_sched_ok, loaded_sched_ok.
  split; [exact H|]. split; [by vm_compute|].
  exact (unload_cancels_refresh DemoHost.engine s 2000 H).
Defined.

Lemma second_window_witness :
  SchedulerSpec.sched_ok DemoHost.start
  ∧ Forall (λ gk : nat * Plugin.TriggerKind, gk.1 < Plugin.debounceInterval)
           [(300, Plugin.Create)]
  ∧ Plugin.debounceInterval ≤ 1200
  ∧ Forall (λ gk : nat * Plugin.TriggerKind, gk.1 < Plugin.debounceInterval)
           [(10, Plugin.Delete); (20, Plugin.Modify)]
  ∧ Plugin.debounceInterval ≤ 1000
  ∧ SchedulerSpec.refreshes
      (Plugin.run DemoHost.engine
         ((SchedulerSpec.burst Plugin.Modify [(300, Plugin.Create)]
           ++ repeat Plugin.Tick 1200)
          ++ (SchedulerSpec.burst Plugin.Modify
                [(10, Plugin.Delete); (20, Plugin.Modify)]
              ++ repeat Plugin.Tick 1000)) DemoHost.start).2
    = [(Plugin.now DemoHost.start + sum_list ([(300, Plugin.Create)].*1)
        + Plugin.debounceInterval, Plugin.DebouncedRefresh);
       (Plugin.now DemoHost.start + sum_list ([(300, Plugin.Create)].*1)
        + 1200
        + sum_list ([(10, Plugin.Delete); (20, Plugin.Modify)].*1)
        + Plugin.debounceInterval, Plugin.DebouncedRefresh)].
Proof.
  assert (H1 : SchedulerSpec.sched_ok DemoHost.start)
    by apply loaded_sched_ok.
  assert (H2 : Forall (λ gk : nat * Plugin.TriggerKind,
                         gk.1 < Plugin.debounceInterval)
                 [(300, Plugin.Create)]).
  { unfold Plugin.debounceInterval. repeat constructor; simpl; lia. }
  assert (H3 : Plugin.debounceInterval ≤ 1200)
    by (unfold Plugin.debounceInterval; lia).
  assert (H4 : Forall (λ gk : nat * Plugin.TriggerKind,
                         gk.1 < Plugin.debounceInterval)
                 [(10, Plugin.Delete); (20, Plugin.Modify)]).
  { unfold Plugin.debounceInterval. repeat constructor; simpl; lia. }
  assert (H5 : Plugin.debounceInterval ≤ 1000)
    by (unfold Plugin.debounceInterval; lia).
  split; [exact H1|]. split; [exact H2|]. split; [exact H3|].
  split; [exact H4|]. split; [exact H5|].
  exact (second_window DemoHost.engine DemoHost.start Plugin.Modify _ 1200
           Plugin.Modify _ 1000 H1 H2 H3 H4 H5).
Defined.

(** ** Detachment *)

Section Eviction.
Import Js Dom DomSpec Plugin.

Lemma map_delete_keys k m :
  (map_delete k m).*1 = filter (λ k', k' ≠ k) (m.*1).
Proof.
  unfold map_delete. induction m as [|[k' v'] m IH]; [done|].
  rewrite fmap_cons, !filter_cons. cbn [fst].
  destruct (decide (k' ≠ k)); [rewrite fmap_cons|]; by rewrite IH.
Qed.

(** X6. When the records it is given show the element removed, the
    observer's callback evicts its own instance and nothing else: every
    other key keeps its record and its place in the order of enumeration,
    and the observer is disconnected, so that records delivered to it
    later change nothing. Otherwise the callback changes nothing. *)
Theorem eviction_removes_only_its_block js o mutations s :
  let s' := observer_callback o mutations s in
  if existsb (evicts (dom s) (obs_el o)) mutations
  then map_get (obs_instance o) (codeBlockInstances s') = None
       ∧ (∀ k, k ≠ obs_instance o →
               map_get k (codeBlockInstances s') = map_get k (codeBlockInstances s))
       ∧ (codeBlockInstances s').*1
         = filter (λ k, k ≠ obs_instance o) ((codeBlockInstances s).*1)
       ∧ (o ∉ observers s')
       ∧ (∀ later, (step js (Observed o later) s').1 = s')
       ∧ dom s' = dom s ∧ timers s' = timers s
       ∧ debounceTimer s' = debounceTimer s
  else s' = s.
Proof.
  intros s'. unfold s', observer_callback.
  destruct (existsb (evicts (dom s) (obs_el o)) mutations); [|done].
  cbn [codeBlockInstances observers with_observers with_instances].
  assert (Hnot : o ∉ filter (λ o', o' ≠ o) (observers s)).
  { intros Hin. apply list_elem_of_filter in Hin as [Hne _]. done. }
  split; [apply map_get_delete_eq|]. split; [intros k Hk; by apply map_get_delete_ne|].
  split; [apply map_delete_keys|]. split; [done|]. split; [|done].
  intros later. cbn [step observers with_observers].
  by rewrite bool_decide_eq_false_2.
Qed.

Lemma chain_unique d x l1 l2 : chain d x l1 → chain d x l2 → l1 = l2.
Proof.
  revert x l2. induction l1 as [|p l1 IH]; intros x [|q l2] [_ H1] [_ H2];
    try done; try (destruct H1; congruence); try (destruct H2; congruence).
  destruct H1 as [Hp H1], H2 as [Hq H2].
  assert (p = q) by congruence. subst q. f_equal. by eapply IH.
Qed.

Lemma chain_from_member d x l y :
  chain d x l → y ∈ l → ∃ l', chain d y l' ∧ length l' < length l.
Proof.
  revert x. induction l as [|p l IH]; intros x [_ Hc] Hy.
  - by apply elem_of_nil in Hy.
  - destruct Hc as [_ Hc]. apply elem_of_cons in Hy as [->|Hy].
    + exists l. split; [done | simpl; lia].
    + destruct (IH p Hc Hy) as (l' & Hl' & Hlen). exists l'.
      split; [done | simpl; lia].
Qed.

(** An element and its ancestors up to the root are distinct. *)
Lemma chain_NoDup d x l : chain d x l → NoDup (x :: l).
Proof.
  revert x. induction l as [|p l IH]; intros x Hc.
  - apply NoDup_singleton.
  - apply NoDup_cons. split.
    + intros Hin. destruct (chain_from_member d x (p :: l) x Hc Hin)
        as (l' & Hl' & Hlen).
      pose proof (chain_unique d x _ _ Hc Hl') as Heq. rewrite <- Heq in Hlen. lia.
    + destruct Hc as [_ [_ Hc]]. by apply IH.
Qed.

Lemma chain_all_exist d x l y : chain d x l → y ∈ x :: l → exists_in d y.
Proof.
  revert x. induction l as [|p l IH]; intros x Hc Hy.
  - apply list_elem_of_singleton in Hy. subst y. by destruct Hc.
  - apply elem_of_cons in Hy as [->|Hy]; [by destruct Hc|].
    destruct Hc as [_ [_ Hc]]. by eapply IH.
Qed.

Lemma chain_length d x l : wf d → chain d x l → length (x :: l) ≤ next d.
Proof.
  intros Hwf Hc.
  assert (Hsub : x :: l ⊆+ seq 0 (next d)).
  { apply NoDup_submseteq; [by eapply chain_NoDup|].
    intros y Hy. apply elem_of_seq. split; [lia|].
    simpl. eapply wf_lt; [done|]. by eapply chain_all_exist. }
  apply submseteq_length in Hsub. by rewrite length_seq in Hsub.
Qed.

Lemma walks_to_member fuel d a x l :
  chain d x l → a ∈ x :: l → length l ≤ fuel → walks_to fuel d a x = true.
Proof.
  revert x fuel. induction l as [|p l IH]; intros x fuel Hc Ha Hlen.
  - apply list_elem_of_singleton in Ha. subst a.
    destruct fuel; simpl; by rewrite decide_True.
  - destruct fuel as [|fuel]; [simpl in Hlen; lia|]. simpl.
    destruct (decide (x = a)) as [|Hne]; [done|].
    destruct Hc as [_ [-> Hc]]. apply IH; [done| |simpl in Hlen; lia].
    apply elem_of_cons in Ha as [->|Ha]; [done | done].
Qed.

(** [a.contains(b)] holds exactly when [a] is [b] or one of its
    ancestors. *)
Lemma contains_ancestors d a b l :
  wf d → chain d b l → contains d a b = true ↔ a ∈ b :: l.
Proof.
  intros Hwf Hc. unfold contains. split.
  - intros Hw. destruct (decide (a ∈ b :: l)) as [|Hnot]; [done|].
    rewrite (walks_to_chain _ _ _ _ l) in Hw; done.
  - intros Ha. eapply walks_to_member; try done.
    pose proof (chain_length d b l Hwf Hc). simpl in *. lia.
Qed.

(** X7. Detachment is detected for the element and for each of its
    ancestors, and for nothing else: a record evicts exactly when it is a
    child-list record one of whose removed nodes is the element or an
    ancestor of it. Removing a sibling, or a descendant such as the output
    container, does not evict. *)
Theorem evicts_element_or_ancestor d el l m :
  wf d → chain d el l →
  evicts d el m = true
  ↔ mtype m = ChildList ∧ ∃ node, node ∈ removedNodes m ∧ node ∈ el :: l.
Proof.
  intros Hwf Hc. unfold evicts.
  destruct (mtype m), (removedNodes m) as [|n ns] eqn:E;
    try (split; [done | intros [? _]; done]).
  - split; [done|]. intros (_ & node & Hin & _). by apply elem_of_nil in Hin.
  - rewrite existsb_exists. split.
    + intros (node & Hin & Hor). split; [done|]. exists node.
      split; [by apply list_elem_of_In|].
      apply orb_true_iff in Hor as [Heq|Hcont].
      * apply bool_decide_eq_true in Heq. subst. left.
      * by apply (contains_ancestors d node el l).
    + intros (_ & node & Hin & Hanc). exists node.
      split; [by apply list_elem_of_In|]. apply orb_true_iff. right.
      by apply (contains_ancestors d node el l).
Qed.

End Eviction.

Lemma evicts_element_or_ancestor_witness :
  DomSpec.wf DemoHost.page_dom
  ∧ DomSpec.chain DemoHost.page_dom 1 [0]
  ∧ (Plugin.evicts DemoHost.page_dom 1
       {| Plugin.mtype := Plugin.ChildList; Plugin.removedNodes := [2; 0] |}
     = true
     ↔ Plugin.ChildList = Plugin.ChildList
       ∧ ∃ node, node ∈ [2; 0] ∧ node ∈ [1; 0]).
Proof.
  assert (H : DomSpec.chain DemoHost.page_dom 1 [0]).
  { vm_compute. repeat split; by eexists. }
  split; [exact page_dom_wf|]. split; [exact H|].
  exact (evicts_element_or_ancestor DemoHost.page_dom 1 [0]
           {| Plugin.mtype := Plugin.ChildList; Plugin.removedNodes := [2; 0] |}
           page_dom_wf H).
Defined.

(** ** The queries together *)

Section Queries.
Import Vault Spec.
Variable app : App.

Lemma append_assoc_str (a b c : string) : (a +:+ b) +:+ c = a +:+ (b +:+ c).
Proof.
  induction a as [|x a IH]; [done|].
  change (String x ((a +:+ b) +:+ c) = String x (a +:+ (b +:+ c))).
  by rewrite IH.
Qed.

Lemma startsWith_shorter s p q :
  startsWith s (p +:+ q) = true → startsWith s p = true.
Proof.
  rewrite !startsWith_prefix. intros [rest ->].
  exists (q +:+ rest). apply append_assoc_str.
Qed.

Lemma pages_filter arg :
  pages app arg
  = page_record app <$>
      filter (λ f, startsWith (path f) (default "" arg) = true)
             (getMarkdownFiles app).
Proof.
  unfold pages. f_equal. destruct (default "" arg) as [|c p']; simpl; [|done].
  apply list_filter_iff. intros f. by destruct (path f).
Qed.

Lemma filter_sublist_impl {A} (P Q : A → Prop)
    `{∀ x, Decision (P x)} `{∀ x, Decision (Q x)} (l : list A) :
  (∀ x, P x → Q x) → sublist (filter P l) (filter Q l).
Proof.
  intros HPQ. induction l as [|x l IH]; [done|].
  rewrite !filter_cons. destruct (decide (P x)) as [HP|HP].
  - rewrite decide_True by auto. by apply sublist_skip.
  - destruct (decide (Q x)); [by apply sublist_cons | done].
Qed.

(** X8. A longer prefix narrows the result: the pages for [p] followed by
    [q] are among the pages for [p], in the same order, and the pages for
    any prefix are among all pages. *)
Theorem pages_narrow (p q : string) :
  sublist (pages app (Some (p +:+ q))) (pages app (Some p))
  ∧ sublist (pages app (Some p)) (pages app None).
Proof.
  rewrite !pages_filter. split; apply fmap_sublist, filter_sublist_impl.
  - intros f. apply startsWith_shorter.
  - intros f _. simpl. by destruct (path f).
Qed.

(** X9. No path is a page and a folder at once: when [page(p)] is a
    record, [folder(p)] is the error object, and when [folder(p)] is an
    array, [page(p)] is [null]. Where the store has nothing at [p], [page]
    gives [null] and [folder] the error object. *)
Theorem page_or_folder (p : string) :
  (is_Some (page app p) → ∃ e, folder app p = FolderError [] [] e)
  ∧ (∀ entries, folder app p = FolderArray entries → page app p = None)
  ∧ (getAbstractFileByPath app p = None →
     page app p = None ∧ ∃ e, folder app p = FolderError [] [] e).
Proof.
  unfold page, folder.
  destruct (getAbstractFileByPath app p) as [[f|fp fn ch]|]; repeat split;
    try done; try (by eexists); try (by intros [? ?]).
Qed.

(** X10. On a store where the path of an enumerated document leads back
    to that document, [page] of the path gives the record that [pages]
    lists for it, under every prefix of the path. *)
Theorem page_is_among_pages (f : TFile) (pre rest : string) :
  f ∈ getMarkdownFiles app →
  getAbstractFileByPath app (path f) = Some (File f) →
  path f = pre +:+ rest →
  ∃ r, page app (path f) = Some r ∧ r ∈ pages app (Some pre)
       ∧ r ∈ pages app None ∧ record_of app f r.
Proof.
  intros Hin Hget Hpre. exists (page_record app f).
  unfold page. rewrite Hget. split; [done|].
  rewrite !pages_filter. split; [|split].
  - apply list_elem_of_fmap_2, list_elem_of_filter. split; [|done].
    apply startsWith_prefix. by exists rest.
  - apply list_elem_of_fmap_2, list_elem_of_filter. split; [|done].
    simpl. by destruct (path f).
  - apply page_record_is_record.
Qed.

End Queries.

Lemma page_is_among_pages_witness :
  Demo.note_a ∈ Vault.getMarkdownFiles Demo.vault
  ∧ Vault.getAbstractFileByPath Demo.vault (Vault.path Demo.note_a)
    = Some (Vault.File Demo.note_a)
  ∧ Vault.path Demo.note_a = "folderA/" +:+ "a.md"
  ∧ ∃ r, Vault.page Demo.vault (Vault.path Demo.note_a) = Some r
         ∧ r ∈ Vault.pages Demo.vault (Some "folderA/")
         ∧ r ∈ Vault.pages Demo.vault None
         ∧ Spec.record_of Demo.vault Demo.note_a r.
Proof.
  assert (H : Demo.note_a ∈ Vault.getMarkdownFiles Demo.vault) by left.
  split; [exact H|]. split; [reflexivity|]. split; [reflexivity|].
  exact (page_is_among_pages Demo.vault Demo.note_a "folderA/" "a.md"
           H eq_refl eq_refl).
Defined.

(** ** The suggestion list *)

Section Suggestions.
Import Names.

Lemma lower_idem (c : ascii) : lower (lower c) = lower c.
Proof. destruct c as [[] [] [] [] [] [] [] []]; reflexivity. Qed.

Lemma toLowerCase_idem (s : string) : toLowerCase (toLowerCase s) = toLowerCase s.
Proof.
  induction s as [|c s IH]; [done|]. cbn [toLowerCase]. by rewrite lower_idem, IH.
Qed.

Lemma vault_startsWith_prefix (s pre : string) :
  Vault.startsWith s pre = true ↔ ∃ rest, s = pre +:+ rest.
Proof. apply startsWith_prefix. Qed.

(** [s.includes(q)] holds when [q] occurs in [s]. *)
Lemma includes_occurs (s q : string) :
  includes s q = true ↔ ∃ a b, s = a +:+ q +:+ b.
Proof.
  induction s as [|c s IH].
  - cbn [includes]. rewrite orb_false_r, vault_startsWith_prefix. split.
    + intros [rest Hr]. by exists "", rest.
    + intros ([|x a] & b & Hab); [by exists b | discriminate].
  - cbn [includes]. rewrite orb_true_iff, vault_startsWith_prefix, IH. split.
    + intros [[rest Hr]|(a & b & Hab)].
      * by exists "", rest.
      * exists (String c a), b. by rewrite Hab.
    + intros ([|x a] & b & Hab).
      * left. by exists b.
      * right. exists a, b. by injection Hab.
Qed.

(** X11. [getSuggestions] keeps, in the order of the list, the
    suggestions in whose text the query occurs, both taken in lower case;
    the case of the query makes no difference, and the empty query keeps
    all nine. *)
Theorem suggestions_for_query (q : string) :
  sublist (getSuggestions q) suggestions
  ∧ (∀ s, s ∈ getSuggestions q
          ↔ s ∈ suggestions
            ∧ ∃ a b, toLowerCase (text s) = a +:+ toLowerCase q +:+ b)
  ∧ getSuggestions (toLowerCase q) = getSuggestions q
  ∧ getSuggestions "" = suggestions.
Proof.
  split; [apply sublist_filter|]. split; [|split].
  - intros s. unfold getSuggestions.
    rewrite list_elem_of_filter, includes_occurs. tauto.
  - unfold getSuggestions. by rewrite toLowerCase_idem.
  - reflexivity.
Qed.

End Suggestions.

(** ** Headings, paragraphs and spans *)

Section Rendering.
Import Js Dom DomSpec RenderSpec.



End Rendering.

(** ** The colours of a chart *)

Section Colours.
Import Palette.

Lemma palette_NoDup classes :
  NoDup (if isDarkMode classes then darkModeColors else lightModeColors).
Proof.
  destruct (isDarkMode classes);
    apply (bool_decide_unpack _); vm_compute; exact I.
Qed.

Lemma palette_length classes :
  length (if isDarkMode classes then darkModeColors else lightModeColors) = 10.
Proof. by destruct (isDarkMode classes). Qed.

(** From zero on, the index is taken modulo ten. *)
Lemma getColor_nat classes (i : nat) :
  getColor classes (Z.of_nat i)
  = (if isDarkMode classes then darkModeColors else lightModeColors)
      !! (i mod 10).
Proof.
  unfold getColor. rewrite palette_length.
  rewrite Z.rem_mod_nonneg by lia. rewrite <- Nat2Z.inj_mod.
  rewrite (proj2 (Z.leb_le 0 _)) by lia. by rewrite Nat2Z.id.
Qed.

Lemma getColor_same classes (i j : nat) :
  getColor classes (Z.of_nat i) = getColor classes (Z.of_nat j)
  ↔ i mod 10 = j mod 10.
Proof.
  rewrite !getColor_nat. split; [|by intros ->]. intros Heq.
  pose proof (Nat.mod_upper_bound i 10 ltac:(lia)) as Hi.
  destruct (lookup_lt_is_Some_2
              (if isDarkMode classes then darkModeColors else lightModeColors)
              (i mod 10)) as [c Hc]; [by rewrite palette_length|].
  rewrite Hc in Heq. symmetry in Heq.
  exact (NoDup_lookup _ _ _ c (palette_NoDup classes) Hc Heq).
Qed.

Lemma getColor_defined classes (i : nat) :
  ∃ c, getColor classes (Z.of_nat i) = Some c
       ∧ c ∈ (if isDarkMode classes then darkModeColors else lightModeColors).
Proof.
  rewrite getColor_nat.
  pose proof (Nat.mod_upper_bound i 10 ltac:(lia)) as Hi.
  destruct (lookup_lt_is_Some_2
              (if isDarkMode classes then darkModeColors else lightModeColors)
              (i mod 10)) as [c Hc]; [by rewrite palette_length|].
  exists c. split; [done|]. by eapply list_elem_of_lookup_2.
Qed.

(** X13. [getColor] gives a colour of the palette of the mode for every
    index from zero on, and the same one for two indices exactly when they
    differ by a multiple of ten: the ten colours of a palette are distinct.
    For a negative index that is no multiple of ten it gives
    [undefined]. *)
Theorem getColor_cycles classes (index : Z) :
  let colors := if isDarkMode classes then darkModeColors
                else lightModeColors in
  ((0 ≤ index)%Z →
   (∃ c, getColor classes index = Some c ∧ c ∈ colors)
   ∧ ∀ other, (0 ≤ other)%Z →
       getColor classes index = getColor classes other
       ↔ (index `mod` 10 = other `mod` 10)%Z)
  ∧ ((index < 0)%Z → Z.rem index 10 ≠ 0%Z → getColor classes index = None).
Proof.
  intros colors. split.
  - intros Hi. rewrite <- (Z2Nat.id index) by done. split.
    + apply getColor_defined.
    + intros other Ho. rewrite <- (Z2Nat.id other) by done.
      rewrite getColor_same.
      change 10%Z with (Z.of_nat 10). rewrite <- !Nat2Z.inj_mod. lia.
  - intros Hneg Hnz. unfold getColor. rewrite palette_length.
    change (Z.of_nat 10) with 10%Z.
    pose proof (Z.rem_nonpos index 10 ltac:(lia) ltac:(lia)) as Hle.
    by rewrite (proj2 (Z.leb_gt _ _)) by lia.
Qed.

(** X14. The datasets handed to the charting library keep the labels and
    the data of those given, in their order; each has a background colour,
    and two of them have the same one exactly when their positions differ
    by a multiple of ten. *)
Theorem chart_colours classes datasets :
  let cds := chart_datasets classes datasets in
  cd_label <$> cds = Sp.label <$> datasets
  ∧ cd_data <$> cds = Sp.data <$> datasets
  ∧ ∀ i j a b, cds !! i = Some a → cds !! j = Some b →
      is_Some (cd_backgroundColor a)
      ∧ (cd_backgroundColor a = cd_backgroundColor b ↔ i mod 10 = j mod 10).
Proof.
  intros cds. unfold cds, chart_datasets.
  split; [|split].
  - rewrite fmap_imap. apply imap_const.
  - rewrite fmap_imap. apply imap_const.
  - intros i j a b Ha Hb.
    apply list_lookup_imap_Some in Ha as (x & _ & ->).
    apply list_lookup_imap_Some in Hb as (y & _ & ->).
    cbn [cd_backgroundColor]. split; [|apply getColor_same].
    destruct (getColor_defined classes i) as (c & -> & _). by eexists.
Qed.

End Colours.
(** ** The trigger of the suggestions *)

Section Trigger.
Import Names Suggest.

Lemma after_prefix_spec (s pre r : string) :
  after_prefix s pre = Some r ↔ s = pre +:+ r.
Proof.
  revert s. induction pre as [|c pre IH]; intros s.
  - change ("" +:+ r) with r. destruct s; simpl; split; congruence.
  - change (String c pre +:+ r) with (String c (pre +:+ r)).
    destruct s as [|d s]; [split; [done | intros H; discriminate]|].
    cbn [after_prefix]. case_decide as Hcd.
    + subst d. rewrite IH. split; [by intros -> | intros H; by injection H].
    + split; [done | intros H; injection H as Hc _; by subst].
Qed.

Lemma all_letters_app (a b : string) :
  all_letters (a +:+ b) = all_letters a && all_letters b.
Proof.
  induction a as [|c a IH]; [done|].
  change (String c a +:+ b) with (String c (a +:+ b)).
  cbn [all_letters]. by rewrite IH, andb_assoc.
Qed.

Lemma length_app_str (a b : string) :
  String.length (a +:+ b) = String.length a + String.length b.
Proof.
  induction a as [|c a IH]; [done|].
  change (String c a +:+ b) with (String c (a +:+ b)). simpl. by rewrite IH.
Qed.

Lemma take_drop_str (n : nat) (s : string) : take_str n s +:+ drop_str n s = s.
Proof.
  revert s. induction n as [|n IH]; intros [|c s]; try done.
  cbn [take_str drop_str].
  change (String c (take_str n s) +:+ drop_str n s)
    with (String c (take_str n s +:+ drop_str n s)). by rewrite IH.
Qed.

Lemma take_str_app (a b : string) : take_str (String.length a) (a +:+ b) = a.
Proof.
  induction a as [|c a IH]; [by destruct b|].
  change (String c a +:+ b) with (String c (a +:+ b)). simpl. by rewrite IH.
Qed.

Lemma drop_str_app (a b : string) : drop_str (String.length a) (a +:+ b) = b.
Proof.
  induction a as [|c a IH]; [by destruct b|].
  change (String c a +:+ b) with (String c (a +:+ b)). simpl. by rewrite IH.
Qed.

Lemma match_trigger_here (s q : string) :
  after_prefix s "sp." = Some q → all_letters q = true →
  match_trigger s = Some (0, q).
Proof.
  intros H Hl. destruct s as [|c s]; [done|].
  cbn [match_trigger]. by rewrite H, Hl.
Qed.

(** The pattern matches at one place at most: letters follow up to the
    end, and the dot is none. *)
Lemma match_trigger_spec (s : string) (i : nat) (q : string) :
  match_trigger s = Some (i, q)
  ↔ all_letters q = true
    ∧ ∃ pre, s = pre +:+ "sp." +:+ q ∧ String.length pre = i.
Proof.
  split.
  - revert i. induction s as [|c s IH]; intros i.
    + simpl. discriminate.
    + cbn [match_trigger].
      destruct (after_prefix (String c s) "sp.") as [q'|] eqn:E.
      * destruct (all_letters q') eqn:El.
        { intros H. injection H as <- <-. split; [done|].
          exists "". split; [|done]. apply after_prefix_spec in E. exact E. }
        destruct (match_trigger s) as [[i' q'']|]; [|done].
        intros H. injection H as <- <-.
        destruct (IH i' eq_refl) as (Hl & pre & -> & <-).
        split; [done|]. by exists (String c pre).
      * destruct (match_trigger s) as [[i' q'']|]; [|done].
        intros H. injection H as <- <-.
        destruct (IH i' eq_refl) as (Hl & pre & -> & <-).
        split; [done|]. by exists (String c pre).
  - intros (Hl & pre & -> & <-). induction pre as [|c pre IH].
    + apply match_trigger_here; [|done]. by apply after_prefix_spec.
    + change (String c pre +:+ "sp." +:+ q)
        with (String c (pre +:+ "sp." +:+ q)).
      cbn [match_trigger]. rewrite IH. cbn [String.length].
      destruct (after_prefix (String c (pre +:+ "sp." +:+ q)) "sp.")
        as [q'|] eqn:E; [|done].
      destruct (all_letters q') eqn:El; [|done]. exfalso.
      apply after_prefix_spec in E.
      change ("sp." +:+ q') with (String "s" (String "p" (String "." q'))) in E.
      injection E as _ E.
      destruct pre as [|c1 pre]; [discriminate|].
      change (String c1 pre +:+ "sp." +:+ q)
        with (String c1 (pre +:+ "sp." +:+ q)) in E.
      injection E as _ E.
      destruct pre as [|c2 pre]; [discriminate|].
      change (String c2 pre +:+ "sp." +:+ q)
        with (String c2 (pre +:+ "sp." +:+ q)) in E.
      injection E as _ E. subst q'.
      rewrite all_letters_app in El. apply andb_true_iff in El as [_ El].
      by rewrite all_letters_app in El.
Qed.

(** The loop finds an opening fence at or above the line, with no line
    that starts with three backticks from there down to the line. *)
Lemma inStatBlock_spec (editor : list string) (n : nat) :
  inStatBlock editor n = true
  ↔ ∃ k, k ≤ n ∧ opens_statblock (getLine editor k) = true
         ∧ ∀ j, k < j ≤ n → starts_fence (getLine editor j) = false.
Proof.
  induction n as [|n IH]; cbn [inStatBlock].
  - destruct (opens_statblock (getLine editor 0)) eqn:Eo.
    + split; [|done]. intros _. exists 0. split; [done|]. split; [done|]. lia.
    + split.
      * by destruct (starts_fence (getLine editor 0)).
      * intros (k & Hk & Ho & _). assert (k = 0) as -> by lia. congruence.
  - destruct (opens_statblock (getLine editor (S n))) eqn:Eo.
    + split; [|done]. intros _. exists (S n). split; [done|]. split; [done|]. lia.
    + destruct (starts_fence (getLine editor (S n))) eqn:Es.
      * split; [done|]. intros (k & Hk & Ho & Hbetween).
        destruct (decide (k = S n)) as [->|Hne]; [congruence|].
        rewrite Hbetween in Es by lia. done.
      * rewrite IH. split.
        -- intros (k & Hk & Ho & Hbetween). exists k. split; [lia|].
           split; [done|]. intros j Hj.
           destruct (decide (j = S n)) as [->|Hne]; [done|].
           apply Hbetween. lia.
        -- intros (k & Hk & Ho & Hbetween).
           destruct (decide (k = S n)) as [->|Hne]; [congruence|].
           exists k. split; [lia|]. split; [done|]. intros j Hj.
           apply Hbetween. lia.
Qed.

(** X15. [onTrigger] returns a context exactly when the text of the line up
    to the cursor ends in [sp.] followed by letters only, and an opening
    fence of a block lies at or above the line with no other line starting
    with three backticks below it. The query is those letters, the start is
    just after the dot, the end is the cursor. *)
Theorem onTrigger_spec cursor editor info :
  onTrigger cursor editor = Some info
  ↔ (∃ pre, take_str (ch cursor) (getLine editor (line cursor))
            = pre +:+ "sp." +:+ query info
            ∧ start info
              = {| line := line cursor; ch := String.length pre + 3 |})
    ∧ all_letters (query info) = true
    ∧ end_ info = cursor
    ∧ ∃ k, k ≤ line cursor ∧ opens_statblock (getLine editor k) = true
           ∧ ∀ j, k < j ≤ line cursor
                  → starts_fence (getLine editor j) = false.
Proof.
  unfold onTrigger. rewrite <- inStatBlock_spec.
  set (sub := take_str (ch cursor) (getLine editor (line cursor))).
  split.
  - destruct (match_trigger sub) as [[index group]|] eqn:E; [|done].
    destruct (inStatBlock editor (line cursor)); [|done].
    intros H. injection H as <-. cbn [query start end_].
    apply match_trigger_spec in E as (Hl & pre & Hs & <-).
    split; [by exists pre|]. done.
  - intros ((pre & Hs & Hst) & Hl & He & ->).
    rewrite (proj2 (match_trigger_spec sub (String.length pre) (query info)))
      by (split; [done | by exists pre]).
    destruct info as [st en qu]. cbn [query start end_] in *. by subst.
Qed.

(** X16. Selecting a suggestion in the context [onTrigger] returned puts
    its text in the place of the letters typed after [sp.]: what stood
    before them and what follows the cursor stay, and so does every other
    line. *)
Theorem selectSuggestion_replaces_query cursor editor info suggestion l :
  editor !! line cursor = Some l →
  ch cursor ≤ String.length l →
  onTrigger cursor editor = Some info →
  ∃ pre rest,
    l = pre +:+ "sp." +:+ query info +:+ rest
    ∧ String.length (pre +:+ "sp." +:+ query info) = ch cursor
    ∧ selectSuggestion suggestion info editor
      = <[line cursor := pre +:+ "sp." +:+ text suggestion +:+ rest]> editor.
Proof.
  intros Hl Hch Htrig.
  assert (Hline : getLine editor (line cursor) = l)
    by (unfold getLine; by rewrite Hl).
  unfold onTrigger in Htrig. rewrite Hline in Htrig.
  destruct (match_trigger (take_str (ch cursor) l)) as [[index group]|] eqn:E;
    [|done].
  destruct (inStatBlock editor (line cursor)); [|done].
  injection Htrig as <-.
  apply match_trigger_spec in E as (_ & pre & Hs & <-).
  exists pre, (drop_str (ch cursor) l). cbn [query].
  assert (Hsplit : l = (pre +:+ "sp." +:+ group) +:+ drop_str (ch cursor) l).
  { rewrite <- Hs. symmetry. apply take_drop_str. }
  assert (Hlen : String.length (pre +:+ "sp." +:+ group) = ch cursor).
  { rewrite <- Hs. clear -Hch. revert l Hch.
    induction (ch cursor) as [|n IH]; intros [|c l] Hch; simpl in *;
      try done; try lia.
    rewrite IH; [done | lia]. }
  assert (Htake : take_str (String.length pre + 3) l = pre +:+ "sp.").
  { rewrite Hsplit, !append_assoc_str.
    replace (String.length pre + 3) with (String.length (pre +:+ "sp."))
      by (rewrite length_app_str; simpl; lia).
    rewrite <- (append_assoc_str pre "sp."). apply take_str_app. }
  split; [|split; [done|]].
  - rewrite Hsplit at 1. by rewrite !append_assoc_str.
  - unfold selectSuggestion, replaceRange. cbn [start end_ line ch].
    apply list_eq. intros j. destruct (decide (j = line cursor)) as [->|Hne].
    + rewrite list_lookup_alter, decide_True, Hl by done.
      rewrite list_lookup_insert_eq by (by eapply lookup_lt_Some).
      simpl. by rewrite Htake, !append_assoc_str.
    + rewrite list_lookup_alter, decide_False by done.
      by rewrite list_lookup_insert_ne.
Qed.

End Trigger.

Lemma selectSuggestion_replaces_query_witness :
  DemoEditor.doc !! Suggest.line DemoEditor.cursor
  = Some "const n = sp.pag + 1"
  ∧ Suggest.ch DemoEditor.cursor ≤ String.length "const n = sp.pag + 1"
  ∧ Suggest.onTrigger DemoEditor.cursor DemoEditor.doc
    = Some DemoEditor.context
  ∧ ∃ pre rest,
      "const n = sp.pag + 1"
      = pre +:+ "sp." +:+ Suggest.query DemoEditor.context +:+ rest
      ∧ String.length (pre +:+ "sp." +:+ Suggest.query DemoEditor.context)
        = Suggest.ch DemoEditor.cursor
      ∧ Suggest.selectSuggestion DemoEditor.pages_suggestion
          DemoEditor.context DemoEditor.doc
        = <[Suggest.line DemoEditor.cursor
            := pre +:+ "sp." +:+ Names.text DemoEditor.pages_suggestion
               +:+ rest]> DemoEditor.doc.
Proof.
  assert (H2 : Suggest.ch DemoEditor.cursor
               ≤ String.length "const n = sp.pag + 1") by (simpl; lia).
  split; [reflexivity|]. split; [exact H2|]. split; [reflexivity|].
  exact (selectSuggestion_replaces_query DemoEditor.cursor DemoEditor.doc
           DemoEditor.context DemoEditor.pages_suggestion
           "const n = sp.pag + 1" eq_refl H2 eq_refl).
Defined.

(** The selection, run: the letters typed give way to the signature. *)
Example selection_in_doc :
  Names.getSuggestions (Suggest.query DemoEditor.context)
  = [DemoEditor.pages_suggestion;
     {| Names.text := "page(path)";
        Names.description := "Get a specific page by path" |}]
  ∧ Suggest.selectSuggestion DemoEditor.pages_suggestion DemoEditor.context
      DemoEditor.doc
    = ["# Totals"; "```statblock"; "const n = sp.pages() + 1"; "```"].
Proof. split; reflexivity. Qed.
(** ** The highlighting of blocks *)

Section Highlighting.
Import Names Suggest Highlight HighlightSpec.

Lemma match_alternative_sound alts rest alt :
  match_alternative alts rest = Some alt →
  alt ∈ alts ∧ ∃ b, rest = alt +:+ b ∧ at_boundary b = true.
Proof.
  induction alts as [|a alts IH]; [done|]. cbn [match_alternative].
  destruct (after_prefix rest a) as [r|] eqn:E.
  - destruct (at_boundary r) eqn:Eb.
    + intros H. injection H as <-. split; [left|]. exists r.
      split; [by apply after_prefix_spec | done].
    + intros H. destruct (IH H) as [Hin Hb]. split; [by right | done].
  - intros H. destruct (IH H) as [Hin Hb]. split; [by right | done].
Qed.

Lemma keyword_scan_sound s prev skip pos p alt :
  (p, alt) ∈ keyword_scan prev skip pos s →
  alt ∈ keywords
  ∧ ∃ a b, s = a +:+ alt +:+ b ∧ p = pos + String.length a
           ∧ at_boundary b = true
           ∧ boundary_before (last_or prev a) = true.
Proof.
  revert prev skip pos. induction s as [|c rest IH]; intros prev skip pos Hin.
  - by apply elem_of_nil in Hin.
  - cbn [keyword_scan] in Hin.
    assert (Hrec : ∀ k, (p, alt) ∈ keyword_scan (Some c) k (S pos) rest →
              alt ∈ keywords
              ∧ ∃ a b, String c rest = a +:+ alt +:+ b
                       ∧ p = pos + String.length a
                       ∧ at_boundary b = true
                       ∧ boundary_before (last_or prev a) = true).
    { intros k Hk. destruct (IH _ _ _ Hk) as (Hkw & a & b & -> & -> & Hb & Hbb).
      split; [done|]. exists (String c a), b.
      split; [done|]. split; [simpl; lia|]. by split. }
    destruct skip as [|k]; [|by eapply Hrec].
    destruct (boundary_before prev) eqn:Ebb; [|by eapply Hrec].
    destruct (match_alternative keywords (String c rest)) as [alt'|] eqn:Em;
      [|by eapply Hrec].
    apply elem_of_cons in Hin as [Heq|Hin]; [|by eapply Hrec].
    injection Heq as -> ->.
    apply match_alternative_sound in Em as (Hkw & b & Hs & Hb).
    split; [done|]. exists "", b. split; [exact Hs|].
    split; [simpl; lia|]. by split.
Qed.

Lemma prop_scan_sound s skip pos p alt :
  (p, alt) ∈ prop_scan skip pos s →
  alt ∈ highlight_alternatives
  ∧ ∃ a b, s = a +:+ ("sp." +:+ alt) +:+ b ∧ p = pos + String.length a
           ∧ at_boundary b = true.
Proof.
  revert skip pos. induction s as [|c rest IH]; intros skip pos Hin.
  - by apply elem_of_nil in Hin.
  - cbn [prop_scan] in Hin.
    assert (Hrec : ∀ k, (p, alt) ∈ prop_scan k (S pos) rest →
              alt ∈ highlight_alternatives
              ∧ ∃ a b, String c rest = a +:+ ("sp." +:+ alt) +:+ b
                       ∧ p = pos + String.length a
                       ∧ at_boundary b = true).
    { intros k Hk. destruct (IH _ _ Hk) as (Hkw & a & b & -> & -> & Hb).
      split; [done|]. exists (String c a), b.
      split; [done|]. split; [simpl; lia | done]. }
    destruct skip as [|k]; [|by eapply Hrec].
    destruct (after_prefix (String c rest) "sp.") as [r|] eqn:E;
      [|by eapply Hrec].
    destruct (match_alternative highlight_alternatives r) as [alt'|] eqn:Em;
      [|by eapply Hrec].
    apply elem_of_cons in Hin as [Heq|Hin]; [|by eapply Hrec].
    injection Heq as -> ->.
    apply match_alternative_sound in Em as (Hkw & b & -> & Hb).
    apply after_prefix_spec in E.
    split; [done|]. exists "", b. split; [|split; [simpl; lia | done]].
    rewrite E. change ("" +:+ ("sp." +:+ alt') +:+ b)
      with (("sp." +:+ alt') +:+ b). by rewrite append_assoc_str.
Qed.

(** What is pushed for a line marks keywords and members of that line. *)
Lemma line_decorations_sound lineFrom text r :
  r ∈ line_decorations lineFrom text → marks lineFrom text r.
Proof.
  unfold line_decorations. rewrite elem_of_app, !list_elem_of_fmap.
  intros [([p alt] & -> & Hin)|([p alt] & -> & Hin)]; unfold marks; cbn.
  - apply keyword_scan_sound in Hin as (Hkw & a & b & Hs & Hp & Hb & Hbb).
    exists alt, p. split; [|done]. split; [done|]. split; [|done].
    exists a, b. split; [done|]. split; [simpl in Hp; lia|]. by split.
  - apply prop_scan_sound in Hin as (Hkw & a & b & Hs & Hp & Hb).
    exists alt, p. split; [|lia]. split; [done|]. split; [|lia].
    exists a, b. split; [done|]. split; [simpl in Hp; lia|]. by split.
Qed.

Lemma flag_after_snoc b l t :
  flag_after b (l ++ [t])
  = if opens_statblock t then true
    else if flag_after b l && closes_block t then false
    else flag_after b l.
Proof. revert b. induction l as [|x l IH]; intros b; simpl; [done | apply IH]. Qed.

Lemma flag_after_app b l1 l2 :
  flag_after b (l1 ++ l2) = flag_after (flag_after b l1) l2.
Proof. revert b. induction l1 as [|x l IH]; intros b; simpl; [done | apply IH]. Qed.

Lemma open_after_snoc b l t :
  opens_statblock t = false →
  open_after b (l ++ [t]) ↔ open_after b l ∧ closes_block t = false.
Proof.
  intros Ho. unfold open_after. split.
  - intros [(k & (t0 & Hk & Hto) & Hafter)|[Hb Hall]].
    + apply lookup_snoc_Some in Hk as [[Hlt Hk]|[-> ->]]; [|congruence].
      split.
      * left. exists k. split; [by exists t0|]. intros j t1 Hj Hl.
        apply (Hafter j); [done|]. by apply lookup_app_l_Some.
      * apply (Hafter (length l)); [done|]. by apply list_lookup_middle.
    + split.
      * right. split; [done|]. intros j t1 Hl.
        apply (Hall j). by apply lookup_app_l_Some.
      * apply (Hall (length l)). by apply list_lookup_middle.
  - intros [[(k & (t0 & Hk & Hto) & Hafter)|[Hb Hall]] Hc].
    + left. exists k. split; [exists t0; split; [by apply lookup_app_l_Some | done]|].
      intros j t1 Hj Hl.
      apply lookup_snoc_Some in Hl as [[Hlt Hl]|[-> <-]]; [by eapply Hafter | done].
    + right. split; [done|]. intros j t1 Hl.
      apply lookup_snoc_Some in Hl as [[Hlt Hl]|[-> <-]]; [by eapply Hall | done].
Qed.

(** The flag of the loop is set exactly when a block is open. *)
Lemma flag_after_true b l : flag_after b l = true ↔ open_after b l.
Proof.
  induction l as [|t l IH] using rev_ind.
  - simpl. unfold open_after. split.
    + intros ->. right. split; [done|]. intros j t Hl. done.
    + intros [(k & (t & Hk & _) & _)|[Hb _]]; done.
  - rewrite flag_after_snoc. destruct (opens_statblock t) eqn:Eo.
    + split; [|done]. intros _. left. exists (length l).
      split; [exists t; split; [by apply list_lookup_middle | done]|].
      intros j t1 Hj Hl. apply lookup_lt_Some in Hl.
      rewrite length_app in Hl. simpl in Hl. lia.
    + rewrite (open_after_snoc b l t Eo), <- IH.
      destruct (flag_after b l), (closes_block t); simpl; split;
        try done; by intros [? ?].
Qed.

Lemma line_from_S t rest i :
  line_from (t :: rest) (S i) = String.length t + 1 + line_from rest i.
Proof. done. Qed.

(** Every decoration comes from a line that is met with the flag set and
    is no fence. *)
Lemma scan_sound lines b lineFrom r :
  r ∈ scan b lineFrom lines →
  ∃ i text, lines !! i = Some text
            ∧ flag_after b (take i lines) = true
            ∧ opens_statblock text = false ∧ closes_block text = false
            ∧ r ∈ line_decorations (lineFrom + line_from lines i) text.
Proof.
  revert b lineFrom. induction lines as [|t rest IH]; intros b lineFrom Hin.
  - by apply elem_of_nil in Hin.
  - cbn [scan] in Hin.
    assert (Hrec : ∀ b',
              b' = (if opens_statblock t then true
                    else if b && closes_block t then false else b) →
              r ∈ scan b' (lineFrom + String.length t + 1) rest →
              ∃ i text, (t :: rest) !! i = Some text
                ∧ flag_after b (take i (t :: rest)) = true
                ∧ opens_statblock text = false ∧ closes_block text = false
                ∧ r ∈ line_decorations (lineFrom + line_from (t :: rest) i) text).
    { intros b' Hb' Hr. destruct (IH _ _ Hr) as (i & text & Hl & Hf & Ho & Hc & Hd).
      exists (S i), text. split; [done|]. split; [simpl; by rewrite <- Hb'|].
      split; [done|]. split; [done|]. rewrite line_from_S.
      by replace (lineFrom + (String.length t + 1 + line_from rest i))
        with (lineFrom + String.length t + 1 + line_from rest i) by lia. }
    destruct (opens_statblock t) eqn:Eo; [by apply (Hrec true)|].
    destruct b; cbn [andb] in *; [|by apply (Hrec false)].
    destruct (closes_block t) eqn:Ec; [by apply (Hrec false)|].
    apply elem_of_app in Hin as [Hin|Hin]; [|by apply (Hrec true)].
    exists 0, t. split; [done|]. split; [done|]. split; [done|]. split; [done|].
    unfold line_from. simpl. by rewrite Nat.add_0_r.
Qed.

Lemma in_block_flag doc i text :
  doc !! i = Some text →
  in_block doc i
  ↔ opens_statblock text = false ∧ closes_block text = false
    ∧ flag_after false (take i doc) = true.
Proof.
  intros Hl. rewrite flag_after_true. unfold in_block, open_after. split.
  - intros ((text' & Hl' & Ho & Hc) & k & Hk & (t & Hkt & Hto) & Hbetween).
    assert (text' = text) as -> by congruence.
    split; [done|]. split; [done|]. left. exists k.
    split; [exists t; split; [by apply lookup_take_Some | done]|].
    intros j t1 Hj Hlj. apply lookup_take_Some in Hlj as [Hlj Hji].
    by apply (Hbetween j t1).
  - intros (Ho & Hc & [(k & (t & Hkt & Hto) & Hafter)|[? _]]); [|done].
    apply lookup_take_Some in Hkt as [Hkt Hki].
    split; [by exists text|]. exists k. split; [done|].
    split; [by exists t|]. intros j t1 [Hkj Hji] Hlj.
    apply (Hafter j t1); [done|]. by apply lookup_take_Some.
Qed.

Lemma scan_app b lineFrom l1 l2 :
  scan b lineFrom (l1 ++ l2)
  = scan b lineFrom l1
    ++ scan (flag_after b l1)
         (lineFrom + sum_list (map (λ l, String.length l + 1) l1)) l2.
Proof.
  revert b lineFrom. induction l1 as [|t l1 IH]; intros b lineFrom.
  - simpl. by rewrite Nat.add_0_r.
  - cbn [scan app flag_after map]. 
    replace (lineFrom + sum_list (String.length t + 1 :: map (λ l, String.length l + 1) l1))
      with (lineFrom + String.length t + 1 + sum_list (map (λ l, String.length l + 1) l1))
      by (simpl; lia).
    destruct (opens_statblock t); [apply IH|].
    destruct (b && closes_block t) eqn:E; [apply IH|].
    destruct b; [|apply IH]. by rewrite IH, app_assoc.
Qed.

(** The decorations of a line inside a block stand together in the
    list. *)
Lemma update_line doc i text :
  doc !! i = Some text → in_block doc i →
  ∃ before after,
    update doc = before ++ line_decorations (line_from doc i) text ++ after.
Proof.
  intros Hl Hin. apply (in_block_flag doc i text Hl) in Hin as (Ho & Hc & Hf).
  assert (Hd : update doc = scan false 0 (take i doc ++ text :: drop (S i) doc))
    by (by rewrite take_drop_middle).
  rewrite Hd, scan_app, Hf. cbn [scan]. rewrite Ho, Hc. cbn [andb].
  eexists _, _. reflexivity.
Qed.

(** X17. Every decoration handed to the editor lies on a line inside a
    block and marks, within that line, a keyword that stands there as a
    whole word or the name of a member after [sp.] that no word character
    follows: nothing is decorated outside the blocks, on a fence, or
    across lines. *)
Theorem decorations_sound doc r :
  r ∈ update doc →
  ∃ i text, doc !! i = Some text ∧ in_block doc i
            ∧ marks (line_from doc i) text r
            ∧ line_from doc i ≤ from r
            ∧ to r ≤ line_from doc i + String.length text.
Proof.
  intros Hin. apply scan_sound in Hin as (i & text & Hl & Hf & Ho & Hc & Hd).
  exists i, text. split; [done|].
  split; [by apply (in_block_flag doc i text Hl)|].
  apply line_decorations_sound in Hd. simpl in Hd. split; [done|].
  destruct Hd as (word & at_ & Hm & Hto). rewrite Hto.
  destruct (mark r); destruct Hm as (_ & (a & b & -> & <- & _) & ->);
    rewrite !length_app_str; simpl; lia.
Qed.

(** X18. Where a line of a block names a member before a keyword, the list
    handed to [Decoration.set] is not in ascending order: the decorations
    of the keywords of a line are pushed before those of its members,
    wherever they stand in the line. *)
Theorem decorations_not_ascending doc i text p kw q m :
  doc !! i = Some text → in_block doc i →
  (p, kw) ∈ keyword_matches text → (q, m) ∈ prop_matches text →
  q + 3 < p →
  ¬ ascending (update doc).
Proof.
  intros Hl Hin Hkw Hm Hlt Hasc.
  destruct (update_line doc i text Hl Hin) as (before & after & Hup).
  unfold ascending in Hasc. rewrite Hup in Hasc.
  apply StronglySorted_app_1_r, StronglySorted_app_1_l in Hasc.
  unfold line_decorations in Hasc.
  pose proof (StronglySorted_app_1_elem_of _ _ _
                {| mark := SpBlockKeyword; from := line_from doc i + p;
                   to := line_from doc i + p + String.length kw |}
                {| mark := SpBlockFunction; from := line_from doc i + q + 2 + 1;
                   to := line_from doc i + q + (3 + String.length m) |}
                Hasc) as Hle.
  cbn [from] in Hle.
  assert (line_from doc i + p ≤ line_from doc i + q + 2 + 1); [|lia].
  apply Hle.
  - apply list_elem_of_fmap. by exists (p, kw).
  - apply list_elem_of_fmap. by exists (q, m).
Qed.

End Highlighting.

Lemma decorations_sound_witness :
  {| Highlight.mark := Highlight.SpBlockKeyword;
     Highlight.from := 25; Highlight.to := 31 |}
    ∈ Highlight.update DemoEditor.member_first
  ∧ ∃ i text,
      DemoEditor.member_first !! i = Some text
      ∧ HighlightSpec.in_block DemoEditor.member_first i
      ∧ HighlightSpec.marks (HighlightSpec.line_from DemoEditor.member_first i)
          text
          {| Highlight.mark := Highlight.SpBlockKeyword;
             Highlight.from := 25; Highlight.to := 31 |}
      ∧ HighlightSpec.line_from DemoEditor.member_first i ≤ 25
      ∧ 31 ≤ HighlightSpec.line_from DemoEditor.member_first i
             + String.length text.
Proof.
  assert (H : {| Highlight.mark := Highlight.SpBlockKeyword;
                 Highlight.from := 25; Highlight.to := 31 |}
                ∈ Highlight.update DemoEditor.member_first)
    by (vm_compute; left).
  split; [exact H|].
  exact (decorations_sound DemoEditor.member_first _ H).
Defined.

Lemma decorations_not_ascending_witness :
  DemoEditor.member_first !! 1 = Some "sp.list(x); return 1"
  ∧ HighlightSpec.in_block DemoEditor.member_first 1
  ∧ (12, "return") ∈ Highlight.keyword_matches "sp.list(x); return 1"
  ∧ (0, "list") ∈ Highlight.prop_matches "sp.list(x); return 1"
  ∧ 0 + 3 < 12
  ∧ ¬ HighlightSpec.ascending (Highlight.update DemoEditor.member_first).
Proof.
  assert (H1 : DemoEditor.member_first !! 1 = Some "sp.list(x); return 1")
    by reflexivity.
  assert (H2 : HighlightSpec.in_block DemoEditor.member_first 1).
  { apply (in_block_flag _ _ _ H1). by vm_compute. }
  assert (H3 : (12, "return")
                 ∈ Highlight.keyword_matches "sp.list(x); return 1")
    by (vm_compute; left).
  assert (H4 : (0, "list") ∈ Highlight.prop_matches "sp.list(x); return 1")
    by (vm_compute; left).
  assert (H5 : 0 + 3 < 12) by lia.
  split; [exact H1|]. split; [exact H2|]. split; [exact H3|].
  split; [exact H4|]. split; [exact H5|].
  exact (decorations_not_ascending DemoEditor.member_first 1 _ 12 "return"
           0 "list" H1 H2 H3 H4 H5).
Defined.

(** The line of [DemoEditor.member_first], run: the keyword, which stands
    later in the line, comes first in the list. *)
Example member_first_decorations :
  Highlight.update DemoEditor.member_first
  = [ {| Highlight.mark := Highlight.SpBlockKeyword;
         Highlight.from := 25; Highlight.to := 31 |};
      {| Highlight.mark := Highlight.SpBlockFunction;
         Highlight.from := 16; Highlight.to := 20 |} ].
Proof. reflexivity. Qed.

(** ** Where suggestions and highlighting agree *)

Section Agreement.
Import Names Suggest Highlight HighlightSpec.

Lemma opens_starts_fence t : opens_statblock t = true → starts_fence t = true.
Proof.
  unfold opens_statblock, starts_fence.
  destruct (after_prefix t "```statblock") as [rest|] eqn:E; [|done].
  intros _. apply after_prefix_spec in E. apply startsWith_prefix.
  exists ("statblock" +:+ rest). by rewrite E.
Qed.

Lemma closes_starts_fence t : closes_block t = true → starts_fence t = true.
Proof.
  unfold closes_block, starts_fence.
  destruct (after_prefix t "```") as [rest|] eqn:E; [|done].
  intros _. apply after_prefix_spec in E. apply startsWith_prefix.
  by exists rest.
Qed.

Lemma dot_after_prefix (pre q : string) :
  In "."%char (list_ascii_of_string (pre +:+ "sp." +:+ q)).
Proof.
  induction pre as [|c pre IH]; [right; right; by left|].
  change (String c pre +:+ "sp." +:+ q) with (String c (pre +:+ "sp." +:+ q)).
  by right.
Qed.

Lemma take_str_In c n s :
  In c (list_ascii_of_string (take_str n s)) → In c (list_ascii_of_string s).
Proof.
  revert s. induction n as [|n IH]; intros [|d s]; simpl; try done.
  intros [H|H]; [by left | right; by apply IH].
Qed.

Lemma all_space_no_dot rest :
  all_space rest = true → ¬ In "."%char (list_ascii_of_string rest).
Proof.
  induction rest as [|c rest IH]; simpl; [tauto|].
  intros Hs [H|H].
  - subst c. done.
  - apply andb_true_iff in Hs as [_ Hs]. by apply IH.
Qed.

(** The pattern of [onTrigger] finds nothing on an opening fence. *)
Lemma fence_no_trigger t n :
  opens_statblock t = true → match_trigger (take_str n t) = None.
Proof.
  unfold opens_statblock.
  destruct (after_prefix t "```statblock") as [rest|] eqn:E; [|done].
  intros Hs. apply after_prefix_spec in E.
  destruct (match_trigger (take_str n t)) as [[i q]|] eqn:Em; [|done].
  exfalso. apply match_trigger_spec in Em as (_ & pre & Hpre & _).
  pose proof (dot_after_prefix pre q) as Hdot. rewrite <- Hpre in Hdot.
  apply take_str_In in Hdot. rewrite E in Hdot.
  apply (all_space_no_dot rest Hs).
  repeat (destruct Hdot as [Hdot|Hdot]; [discriminate|]). exact Hdot.
Qed.

(** X19. Suggestions are offered only where the highlighting applies: when
    [onTrigger] returns a context for a cursor in the document, the line of
    the cursor lies inside a block as the highlighting delimits it. *)
Theorem trigger_only_in_block cursor editor info :
  line cursor < length editor →
  onTrigger cursor editor = Some info →
  in_block editor (line cursor).
Proof.
  intros Hlt. unfold onTrigger.
  destruct (match_trigger _) as [[index group]|] eqn:Em; [|done].
  destruct (inStatBlock editor (line cursor)) eqn:Ei; [|done]. intros _.
  apply inStatBlock_spec in Ei as (k & Hk & Ho & Hbetween).
  destruct (decide (k = line cursor)) as [->|Hne].
  { by rewrite (fence_no_trigger _ _ Ho) in Em. }
  destruct (lookup_lt_is_Some_2 editor (line cursor) Hlt) as [text Htext].
  destruct (lookup_lt_is_Some_2 editor k ltac:(lia)) as [t Ht].
  assert (Hline : ∀ j x, editor !! j = Some x → getLine editor j = x)
    by (intros j x Hj; unfold getLine; by rewrite Hj).
  assert (Hs : starts_fence text = false).
  { rewrite <- (Hline _ _ Htext). apply Hbetween. lia. }
  split.
  - exists text. split; [done|]. split.
    + destruct (opens_statblock text) eqn:E; [|done].
      apply opens_starts_fence in E. congruence.
    + destruct (closes_block text) eqn:E; [|done].
      apply closes_starts_fence in E. congruence.
  - exists k. split; [lia|]. split.
    + exists t. split; [done|]. by rewrite <- (Hline _ _ Ht).
    + intros j x Hj Hx. destruct (closes_block x) eqn:E; [|done].
      apply closes_starts_fence in E. rewrite <- (Hline _ _ Hx) in E.
      rewrite Hbetween in E by lia. done.
Qed.

End Agreement.

Lemma trigger_only_in_block_witness :
  Suggest.line DemoEditor.cursor < length DemoEditor.doc
  ∧ Suggest.onTrigger DemoEditor.cursor DemoEditor.doc
    = Some DemoEditor.context
  ∧ HighlightSpec.in_block DemoEditor.doc (Suggest.line DemoEditor.cursor).
Proof.
  assert (H1 : Suggest.line DemoEditor.cursor < length DemoEditor.doc)
    by (simpl; lia).
  split; [exact H1|]. split; [reflexivity|].
  exact (trigger_only_in_block DemoEditor.cursor DemoEditor.doc
           DemoEditor.context H1 eq_refl).
Defined.

(** The converse fails: past a line that starts with three backticks and
    goes on, the highlighting still applies and decorates the member, and
    no suggestion is offered. *)
Example highlighted_without_trigger :
  HighlightSpec.in_block DemoEditor.inner_fence 2
  ∧ Highlight.update DemoEditor.inner_fence
    = [ {| Highlight.mark := Highlight.SpBlockFunction;
           Highlight.from := 22; Highlight.to := 26 |} ]
  ∧ Suggest.onTrigger {| Suggest.line := 2; Suggest.ch := 7 |}
      DemoEditor.inner_fence = None.
Proof.
  split; [|split; reflexivity].
  apply (in_block_flag DemoEditor.inner_fence 2 "sp.page" eq_refl).
  by vm_compute.
Qed.
(** ** Lists *)

Section Lists.
Import Js Dom DomSpec.

Lemma list_items_app d ul a b :
  Sp.list_items d ul (a ++ b)
  = match Sp.list_items d ul a with
    | (d1, Normal _) => Sp.list_items d1 ul b
    | (d1, Abrupt x) => (d1, Abrupt x)
    end.
Proof.
  revert d. induction a as [|[s|e] a IH]; intros d; cbn [app Sp.list_items].
  - done.
  - destruct (createEl d ul "li" "" s) as [d1 li]. apply IH.
  - destruct (createEl d ul "li" "" "") as [d1 li].
    destruct (appendChild d1 li e) as [d2 [[]|x]]; [apply IH | done].
Qed.

(** The loop over items that are strings: one new item each, in order. *)
Lemma list_items_strings texts d ul :
  wf d → exists_in d ul →
  ∃ d', Sp.list_items d ul (Sp.ItemStr <$> texts) = (d', Normal ())
        ∧ evolves [] [ul] d d'
        ∧ next d' = next d + length texts
        ∧ childrenOf d' ul = childrenOf d ul ++ seq (next d) (length texts)
        ∧ (∀ i txt, texts !! i = Some txt →
             nodes d' !! (next d + i)
             = Some {| tag := "li"; cls := ""; text := txt; color := "";
                       cursor := ""; parent := Some ul; children := [] |})
        ∧ ∀ x, x ≠ ul → x < next d → nodes d' !! x = nodes d !! x.
Proof.
  revert d. induction texts as [|t texts IH]; intros d Hwf Hul.
  - exists d. split; [done|]. split; [by apply evolves_refl|].
    split; [simpl; lia|]. split; [simpl; by rewrite app_nil_r|].
    split; [intros i txt Hi; done | done].
  - pose proof (wf_lt _ _ Hwf Hul) as Hlt.
    assert (Hne : ul ≠ next d) by lia.
    rewrite fmap_cons. cbn [Sp.list_items].
    pose proof (createEl_evolves d ul "li" "" t Hwf Hlt) as Hev1.
    pose proof (createEl_next d ul "li" "" t) as Hnext1.
    pose proof (createEl_children d ul "li" "" t Hne Hul) as Hch1.
    pose proof (createEl_lookup d ul "li" "" t) as Hlook1.
    destruct (createEl d ul "li" "" t) as [d1 li]. cbn [fst] in *.
    assert (Hwf1 : wf d1) by apply Hev1.
    assert (Hul1 : exists_in d1 ul).
    { destruct Hev1 as (_ & _ & Hx). by apply (Hx ul Hlt). }
    destruct (IH d1 Hwf1 Hul1) as (d' & Hrun & Hev & Hnext & Hch & Hitems & Hsame).
    exists d'. split; [done|]. split; [|split; [|split; [|split]]].
    + replace (@nil nat) with (@nil nat ++ []) by done.
      eapply evolves_trans; [exact Hev1 | exact Hev|].
      intros g Hg. by left.
    + rewrite Hnext, Hnext1. simpl. lia.
    + rewrite Hch, Hch1, Hnext1, <- app_assoc. done.
    + intros [|i] txt Hi.
      * injection Hi as ->. rewrite Nat.add_0_r, Hsame by lia.
        rewrite Hlook1 by done. by rewrite decide_True.
      * replace (next d + S i) with (next d1 + i) by lia.
        by apply Hitems.
    + intros x Hx Hxlt. rewrite Hsame by lia. rewrite Hlook1 by done.
      rewrite decide_False by lia. by rewrite decide_False.
Qed.

Lemma node_facts d x n :
  nodes d !! x = Some n →
  tagOf d x = tag n ∧ textOf d x = text n
  ∧ parentNode d x = parent n ∧ childrenOf d x = children n.
Proof.
  intros H. unfold tagOf, textOf, parentNode, childrenOf. by rewrite H.
Qed.

(** X20. [list] of strings never throws: it appends one new [ul] to the
    output target and returns it; the [ul] holds one new [li] for each
    string, in their order, with the string as its text; no other element
    changes. *)
Theorem list_of_strings d oc texts :
  wf d → exists_in d oc →
  let ul := next d in
  ∃ d', Sp.list d oc (Sp.ItemStr <$> texts) = (d', Normal ul)
        ∧ tagOf d' ul = "ul" ∧ parentNode d' ul = Some oc
        ∧ childrenOf d' oc = childrenOf d oc ++ [ul]
        ∧ childrenOf d' ul = seq (S ul) (length texts)
        ∧ (∀ i txt, texts !! i = Some txt →
             tagOf d' (S ul + i) = "li" ∧ textOf d' (S ul + i) = txt
             ∧ parentNode d' (S ul + i) = Some ul
             ∧ childrenOf d' (S ul + i) = [])
        ∧ ∀ x, x ≠ oc → x < next d → nodes d' !! x = nodes d !! x.
Proof.
  intros Hwf Hoc ul. pose proof (wf_lt _ _ Hwf Hoc) as Hlt.
  assert (Hne : oc ≠ next d) by lia.
  unfold Sp.list.
  pose proof (createEl_evolves d oc "ul" "" "" Hwf Hlt) as Hev1.
  pose proof (createEl_next d oc "ul" "" "") as Hnext1.
  pose proof (createEl_children d oc "ul" "" "" Hne Hoc) as Hch1.
  pose proof (createEl_lookup d oc "ul" "" "") as Hlook1.
  destruct (createEl_new d oc "ul" "" "" Hne) as (Hex & Htag & _ & Hkids & Hpar).
  assert (Hul : (createEl d oc "ul" "" "").2 = ul).
  { unfold createEl, createElement. simpl. done. }
  destruct (createEl d oc "ul" "" "") as [d1 ul']. cbn [fst snd] in *.
  subst ul'. fold ul in Hex, Htag, Hkids, Hpar, Hch1, Hnext1.
  assert (Hwf1 : wf d1) by apply Hev1.
  destruct (list_items_strings texts d1 ul Hwf1 Hex)
    as (d' & -> & Hev & Hnext & Hch & Hitems & Hsame).
  exists d'. split; [done|].
  destruct Hev as (_ & _ & Hx).
  destruct (Hx ul ltac:(lia)) as (_ & Htag' & _ & Hpar' & _).
  split; [by rewrite Htag'|]. split; [rewrite Hpar'; [done | apply not_elem_of_nil]|].
  assert (Hoc' : nodes d' !! oc = nodes d1 !! oc) by (apply Hsame; unfold ul; lia).
  split; [|split; [|split]].
  - rewrite <- Hch1. unfold childrenOf. by rewrite Hoc'.
  - by rewrite Hch, Hkids, Hnext1.
  - intros i txt Hi. rewrite <- Hnext1.
    by destruct (node_facts _ _ _ (Hitems i txt Hi)) as (-> & -> & -> & ->).
  - intros x Hxoc Hxlt. rewrite Hsame by (unfold ul; lia).
    rewrite Hlook1 by done. rewrite decide_False by lia. by rewrite decide_False.
Qed.

(** X21. [list] throws when an item is the output target or an element
    that contains it: the item's [li], already in the list, cannot take an
    element it lies in. The list stays in the output with the items that
    came before and the one empty item. *)
Theorem list_of_ancestor_throws d oc l texts e rest :
  wf d → chain d oc l → e ∈ oc :: l →
  let ul := next d in
  ∃ d', Sp.list d oc ((Sp.ItemStr <$> texts) ++ Sp.ItemEl e :: rest)
        = (d', Abrupt HierarchyRequestError)
        ∧ childrenOf d' oc = childrenOf d oc ++ [ul]
        ∧ childrenOf d' ul = seq (S ul) (S (length texts))
        ∧ childrenOf d' (S ul + length texts) = [].
Proof.
  intros Hwf Hchain He ul.
  pose proof (chain_exists _ _ _ Hchain) as Hoc.
  pose proof (wf_lt _ _ Hwf Hoc) as Hlt.
  assert (Hne : oc ≠ next d) by lia.
  unfold Sp.list.
  pose proof (createEl_evolves d oc "ul" "" "" Hwf Hlt) as Hev1.
  pose proof (createEl_next d oc "ul" "" "") as Hnext1.
  pose proof (createEl_children d oc "ul" "" "" Hne Hoc) as Hch1.
  destruct (createEl_new d oc "ul" "" "" Hne) as (Hex & _ & _ & Hkids & Hpar).
  assert (Hul : (createEl d oc "ul" "" "").2 = ul).
  { unfold createEl, createElement. simpl. done. }
  destruct (createEl d oc "ul" "" "") as [d1 ul']. cbn [fst snd] in *.
  subst ul'. fold ul in Hex, Hkids, Hpar, Hch1, Hnext1.
  assert (Hwf1 : wf d1) by apply Hev1.
  assert (Hc1 : chain d1 ul (oc :: l)).
  { split; [done|]. split; [done|].
    eapply chain_evolves; [exact Hev1 | done | done|].
    intros y _. apply not_elem_of_nil. }
  rewrite list_items_app.
  destruct (list_items_strings texts d1 ul Hwf1 Hex)
    as (d2 & -> & Hev2 & Hnext2 & Hch2 & _ & Hsame2).
  assert (Hwf2 : wf d2) by apply Hev2.
  assert (Hc2 : chain d2 ul (oc :: l)).
  { eapply chain_evolves; [exact Hev2 | done | done|].
    intros y _. apply not_elem_of_nil. }
  pose proof (chain_exists _ _ _ Hc2) as Hex2.
  pose proof (wf_lt _ _ Hwf2 Hex2) as Hlt2.
  assert (Hne2 : ul ≠ next d2) by lia.
  cbn [Sp.list_items].
  pose proof (createEl_evolves d2 ul "li" "" "" Hwf2 Hlt2) as Hev3.
  pose proof (createEl_children d2 ul "li" "" "" Hne2 Hex2) as Hch3.
  pose proof (createEl_lookup d2 ul "li" "" "") as Hlook3.
  destruct (createEl_new d2 ul "li" "" "" Hne2) as (Hex3 & _ & _ & Hkids3 & Hpar3).
  assert (Hli : (createEl d2 ul "li" "" "").2 = next d2).
  { unfold createEl, createElement. simpl. done. }
  destruct (createEl d2 ul "li" "" "") as [d3 li]. cbn [fst snd] in *.
  subst li.
  assert (Hwf3 : wf d3) by apply Hev3.
  assert (Hc3 : chain d3 (next d2) (ul :: oc :: l)).
  { split; [done|]. split; [done|].
    eapply chain_evolves; [exact Hev3 | done | done|].
    intros y _. apply not_elem_of_nil. }
  unfold appendChild.
  rewrite (proj2 (contains_ancestors d3 e (next d2) _ Hwf3 Hc3))
    by (right; by right).
  exists d3. split; [done|].
  assert (Hoc2 : nodes d2 !! oc = nodes d1 !! oc) by (apply Hsame2; unfold ul; lia).
  assert (Hoc3 : nodes d3 !! oc = nodes d2 !! oc).
  { rewrite Hlook3 by done. rewrite decide_False by lia.
    rewrite decide_False by (unfold ul; lia). done. }
  split; [|split].
  - rewrite <- Hch1. unfold childrenOf. by rewrite Hoc3, Hoc2.
  - rewrite Hch3, Hch2, Hkids, Hnext2, Hnext1.
    by rewrite (seq_S (length texts) (S ul)).
  - by rewrite <- Hnext1, <- Hnext2.
Qed.

End Lists.

Lemma list_of_strings_witness :
  DomSpec.wf DemoHost.page_dom
  ∧ DomSpec.exists_in DemoHost.page_dom 1
  ∧ ∃ d', Sp.list DemoHost.page_dom 1 (Sp.ItemStr <$> ["one"; "two"])
          = (d', Js.Normal 3)
          ∧ DomSpec.tagOf d' 3 = "ul" ∧ Dom.parentNode d' 3 = Some 1
          ∧ Dom.childrenOf d' 1 = Dom.childrenOf DemoHost.page_dom 1 ++ [3]
          ∧ Dom.childrenOf d' 3 = seq 4 2
          ∧ (∀ i txt, ["one"; "two"] !! i = Some txt →
               DomSpec.tagOf d' (4 + i) = "li" ∧ DomSpec.textOf d' (4 + i) = txt
               ∧ Dom.parentNode d' (4 + i) = Some 3
               ∧ Dom.childrenOf d' (4 + i) = [])
          ∧ ∀ x, x ≠ 1 → x < 3 →
                 Dom.nodes d' !! x = Dom.nodes DemoHost.page_dom !! x.
Proof.
  assert (H : DomSpec.exists_in DemoHost.page_dom 1) by (vm_compute; by eexists).
  split; [exact page_dom_wf|]. split; [exact H|].
  exact (list_of_strings DemoHost.page_dom 1 ["one"; "two"] page_dom_wf H).
Defined.

Lemma list_of_ancestor_throws_witness :
  DomSpec.wf DemoHost.page_dom
  ∧ DomSpec.chain DemoHost.page_dom 1 [0]
  ∧ 0 ∈ [1; 0]
  ∧ ∃ d', Sp.list DemoHost.page_dom 1
            ((Sp.ItemStr <$> ["one"]) ++ Sp.ItemEl 0 :: [Sp.ItemStr "two"])
          = (d', Js.Abrupt Dom.HierarchyRequestError)
          ∧ Dom.childrenOf d' 1 = Dom.childrenOf DemoHost.page_dom 1 ++ [3]
          ∧ Dom.childrenOf d' 3 = seq 4 2
          ∧ Dom.childrenOf d' 5 = [].
Proof.
  assert (H1 : DomSpec.chain DemoHost.page_dom 1 [0]).
  { vm_compute. repeat split; by eexists. }
  assert (H2 : 0 ∈ [1; 0]) by (right; left).
  split; [exact page_dom_wf|]. split; [exact H1|]. split; [exact H2|].
  exact (list_of_ancestor_throws DemoHost.page_dom 1 [0] ["one"] 0
           [Sp.ItemStr "two"] page_dom_wf H1 H2).
Defined.
(** ** Every keyword of a block is decorated *)

Section KeywordsDecorated.
Import Names Suggest Highlight HighlightSpec.

Lemma keywords_are_words :
  Forall (λ w, all_word w = true ∧ w ≠ "") keywords.
Proof. unfold keywords. repeat constructor; done. Qed.

(** A run of word characters that ends at a boundary is determined by the
    text. *)
Lemma same_word x1 y1 x2 y2 :
  x1 +:+ y1 = x2 +:+ y2 →
  all_word x1 = true → all_word x2 = true →
  at_boundary y1 = true → at_boundary y2 = true →
  x1 = x2.
Proof.
  revert x2. induction x1 as [|c x1 IH]; intros [|c2 x2] Heq H1 H2 Hb1 Hb2.
  - done.
  - change ("" +:+ y1) with y1 in Heq.
    change (String c2 x2 +:+ y2) with (String c2 (x2 +:+ y2)) in Heq.
    subst y1. simpl in Hb1, H2. apply andb_true_iff in H2 as [H2 _].
    by rewrite H2 in Hb1.
  - change ("" +:+ y2) with y2 in Heq.
    change (String c x1 +:+ y1) with (String c (x1 +:+ y1)) in Heq.
    subst y2. simpl in Hb2, H1. apply andb_true_iff in H1 as [H1 _].
    by rewrite H1 in Hb2.
  - change (String c x1 +:+ y1) with (String c (x1 +:+ y1)) in Heq.
    change (String c2 x2 +:+ y2) with (String c2 (x2 +:+ y2)) in Heq.
    injection Heq as -> Heq. simpl in H1, H2.
    apply andb_true_iff in H1 as [_ H1]. apply andb_true_iff in H2 as [_ H2].
    f_equal. by eapply IH.
Qed.

Lemma match_alternative_complete alts rest w b :
  w ∈ alts → rest = w +:+ b → at_boundary b = true →
  is_Some (match_alternative alts rest).
Proof.
  intros Hin -> Hb. induction alts as [|a alts IH]; [by apply elem_of_nil in Hin|].
  cbn [match_alternative].
  destruct (decide (w = a)) as [->|Hne].
  - rewrite (proj2 (after_prefix_spec (a +:+ b) a b)) by done.
    rewrite Hb. by eexists.
  - apply elem_of_cons in Hin as [?|Hin]; [done|].
    destruct (after_prefix (w +:+ b) a) as [r|]; [|by apply IH].
    destruct (at_boundary r); [by eexists | by apply IH].
Qed.

(** Between two matches the scan passes word characters only, so that it
    is free again where a whole word starts. *)
Lemma keyword_scan_complete a prev skip pos word b :
  word ∈ keywords → at_boundary b = true →
  boundary_before (last_or prev a) = true →
  (skip = 0
   ∨ boundary_before prev = false
     ∧ all_word (take_str skip (a +:+ word +:+ b)) = true) →
  (pos + String.length a, word)
    ∈ keyword_scan prev skip pos (a +:+ word +:+ b).
Proof.
  intros Hkw Hb.
  pose proof keywords_are_words as Hwords. rewrite Forall_forall in Hwords.
  destruct (Hwords word Hkw) as [Hword Hne].
  revert prev skip pos. induction a as [|c a IH]; intros prev skip pos Hbb Hinv.
  - change ("" +:+ word +:+ b) with (word +:+ b). simpl in Hbb.
    destruct Hinv as [->|[Hf _]]; [|congruence].
    destruct word as [|c w]; [done|].
    change (String c w +:+ b) with (String c (w +:+ b)).
    cbn [keyword_scan]. rewrite Hbb.
    destruct (match_alternative_complete keywords (String c (w +:+ b))
                (String c w) b Hkw eq_refl Hb) as [alt Halt].
    rewrite Halt.
    apply match_alternative_sound in Halt as (Halt & b' & Heq & Hb').
    destruct (Hwords alt Halt) as [Hw' _].
    assert (alt = String c w) as ->.
    { symmetry. eapply (same_word (String c w) b alt b'); done. }
    rewrite Nat.add_0_r. left.
  - change (String c a +:+ word +:+ b) with (String c (a +:+ word +:+ b)).
    change (String c a +:+ word +:+ b) with (String c (a +:+ word +:+ b)) in Hinv.
    cbn [keyword_scan]. cbn [last_or] in Hbb.
    replace (pos + String.length (String c a)) with (S pos + String.length a)
      by (simpl; lia).
    destruct skip as [|k].
    + destruct (if boundary_before prev
                then match_alternative keywords (String c (a +:+ word +:+ b))
                else None) as [alt|] eqn:Em.
      * right. apply IH; [done|].
        destruct (boundary_before prev); [|done].
        apply match_alternative_sound in Em as (Halt & b' & Heq & Hb').
        destruct (Hwords alt Halt) as [Hw' Hne'].
        destruct alt as [|c' t]; [done|].
        change (String c' t +:+ b') with (String c' (t +:+ b')) in Heq.
        injection Heq as <- Heq. simpl in Hw'.
        apply andb_true_iff in Hw' as [Hc Ht].
        destruct t as [|c2 t]; [by left|]. right.
        split; [simpl; by rewrite Hc|].
        rewrite Heq.
        change (String.length (String c (String c2 t)) - 1)
          with (String.length (String c2 t)).
        by rewrite take_str_app.
      * apply IH; [done | by left].
    + destruct Hinv as [?|[Hf Hall]]; [done|].
      cbn [take_str all_word] in Hall. apply andb_true_iff in Hall as [Hc Hall].
      apply IH; [done|]. destruct k as [|k]; [by left|]. right.
      split; [simpl; by rewrite Hc | done].
Qed.

(** X22. Every keyword that stands as a whole word on a line inside a
    block is decorated, over its own extent. *)
Theorem keywords_decorated doc i text word at_ :
  doc !! i = Some text → in_block doc i →
  word ∈ keywords → stands_at true word at_ text →
  {| mark := SpBlockKeyword;
     from := line_from doc i + at_;
     to := line_from doc i + at_ + String.length word |} ∈ update doc.
Proof.
  intros Hl Hin Hkw (a & b & -> & <- & Hb & Hbb).
  destruct (update_line doc i _ Hl Hin) as (before & after & ->).
  apply elem_of_app. right. apply elem_of_app. left.
  unfold line_decorations. apply elem_of_app. left.
  apply list_elem_of_fmap. exists (String.length a, word). split; [done|].
  apply (keyword_scan_complete a None 0 0 word b Hkw Hb (Hbb eq_refl)).
  by left.
Qed.

End KeywordsDecorated.

Lemma keywords_decorated_witness :
  DemoEditor.member_first !! 1 = Some "sp.list(x); return 1"
  ∧ HighlightSpec.in_block DemoEditor.member_first 1
  ∧ "return" ∈ Highlight.keywords
  ∧ HighlightSpec.stands_at true "return" 12 "sp.list(x); return 1"
  ∧ {| Highlight.mark := Highlight.SpBlockKeyword;
       Highlight.from := HighlightSpec.line_from DemoEditor.member_first 1 + 12;
       Highlight.to := HighlightSpec.line_from DemoEditor.member_first 1 + 12
                       + String.length "return" |}
      ∈ Highlight.update DemoEditor.member_first.
Proof.
  assert (H1 : DemoEditor.member_first !! 1 = Some "sp.list(x); return 1")
    by reflexivity.
  assert (H2 : HighlightSpec.in_block DemoEditor.member_first 1).
  { apply (in_block_flag _ _ _ H1). by vm_compute. }
  assert (H3 : "return" ∈ Highlight.keywords).
  { unfold Highlight.keywords. do 4 right. left. }
  assert (H4 : HighlightSpec.stands_at true "return" 12 "sp.list(x); return 1").
  { exists "sp.list(x); ", " 1". by repeat split. }
  split; [exact H1|]. split; [exact H2|]. split; [exact H3|]. split; [exact H4|].
  exact (keywords_decorated DemoEditor.member_first 1 _ "return" 12
           H1 H2 H3 H4).
Defined.
(** ** Every member named in a block is decorated *)

Section MembersDecorated.
Import Names Suggest Highlight HighlightSpec.

Lemma members_are_words :
  Forall (λ w, all_word w = true) highlight_alternatives.
Proof. unfold highlight_alternatives. repeat constructor. Qed.

Lemma suffixes_head c s : String c s ∈ suffixes (String c s).
Proof. left. Qed.

Lemma suffixes_tail s c r :
  String c r ∈ suffixes s → r = "" ∨ r ∈ suffixes s.
Proof.
  induction s as [|d s IH]; cbn [suffixes]; intros Hin.
  - by apply elem_of_nil in Hin.
  - apply elem_of_cons in Hin as [Heq|Hin].
    + injection Heq as -> ->. destruct s as [|e s]; [by left|].
      right. right. apply suffixes_head.
    + destruct (IH Hin) as [?|?]; [by left | right; by right].
Qed.

Lemma passed_tail c r :
  String c r ∈ passed_after_member → r = "" ∨ r ∈ passed_after_member.
Proof.
  unfold passed_after_member. intros Hin.
  apply list_elem_of_In, in_flat_map in Hin as (alt & Halt & Hin).
  apply list_elem_of_In, suffixes_tail in Hin.
  destruct Hin as [?|Hin]; [by left|]. right.
  apply list_elem_of_In, in_flat_map. exists alt.
  split; [done | by apply list_elem_of_In].
Qed.

Lemma passed_whole alt :
  alt ∈ highlight_alternatives → "p." +:+ alt ∈ passed_after_member.
Proof.
  intros Halt. unfold passed_after_member.
  apply list_elem_of_In, in_flat_map.
  exists alt. split; [by apply list_elem_of_In|].
  apply list_elem_of_In. apply suffixes_head.
Qed.

Ltac clash Heq Hlt Hb a :=
  simpl in Hlt;
  first
    [ lia
    | destruct a as [|? a];
      [ unfold String.append in Heq;
        first [ discriminate Heq
              | injection Heq as Heq; subst; vm_compute in Hb; discriminate Hb ]
      | unfold String.append in Heq; fold String.append in Heq;
        first [ discriminate Heq
              | injection Heq as _ Heq; clash Heq Hlt Hb a ] ] ].

(** No member is named from within what the scan passes after a match. *)
Lemma no_member_inside :
  Forall (λ r, ∀ y a z,
            r +:+ y = a +:+ "sp." +:+ z →
            String.length a < String.length r →
            at_boundary y = true → False)
         passed_after_member.
Proof.
  let l := eval vm_compute in passed_after_member in
  change passed_after_member with l.
  repeat (constructor;
          [intros y a z Heq Hlt Hb;
           unfold String.append in Heq; fold String.append in Heq;
           clash Heq Hlt Hb a|]).
  constructor.
Qed.

Lemma prop_scan_complete a skip pos word b :
  word ∈ highlight_alternatives → at_boundary b = true →
  (skip = 0
   ∨ ∃ r y, a +:+ ("sp." +:+ word) +:+ b = r +:+ y
            ∧ String.length r = skip
            ∧ r ∈ passed_after_member ∧ at_boundary y = true) →
  (pos + String.length a, word)
    ∈ prop_scan skip pos (a +:+ ("sp." +:+ word) +:+ b).
Proof.
  intros Hm Hb.
  pose proof members_are_words as Hwords. rewrite Forall_forall in Hwords.
  pose proof no_member_inside as Hclash. rewrite Forall_forall in Hclash.
  revert skip pos. induction a as [|c a IH]; intros skip pos Hinv.
  - assert (skip = 0) as ->.
    { destruct Hinv as [?|(r & y & Heq & Hlen & Hr & Hy)]; [done|].
      destruct (decide (skip = 0)) as [?|Hne]; [done|]. exfalso.
      apply (Hclash r Hr y "" (word +:+ b)); [|simpl; lia | done].
      rewrite <- Heq. change ("" +:+ ("sp." +:+ word) +:+ b)
        with (("sp." +:+ word) +:+ b). by rewrite append_assoc_str. }
    change ("" +:+ ("sp." +:+ word) +:+ b)
      with (String "s" (String "p" (String "." (word +:+ b)))).
    cbn [prop_scan].
    rewrite (proj2 (after_prefix_spec _ "sp." (word +:+ b))) by done.
    destruct (match_alternative_complete highlight_alternatives (word +:+ b)
                word b Hm eq_refl Hb) as [alt Halt].
    rewrite Halt.
    apply match_alternative_sound in Halt as (Halt & b' & Heq & Hb').
    assert (alt = word) as ->.
    { symmetry. eapply (same_word word b alt b'); auto. }
    rewrite Nat.add_0_r. left.
  - change (String c a +:+ ("sp." +:+ word) +:+ b)
      with (String c (a +:+ ("sp." +:+ word) +:+ b)).
    change (String c a +:+ ("sp." +:+ word) +:+ b)
      with (String c (a +:+ ("sp." +:+ word) +:+ b)) in Hinv.
    cbn [prop_scan].
    replace (pos + String.length (String c a)) with (S pos + String.length a)
      by (simpl; lia).
    destruct skip as [|k].
    + destruct (after_prefix (String c (a +:+ ("sp." +:+ word) +:+ b)) "sp.")
        as [r0|] eqn:E; [|apply IH; by left].
      destruct (match_alternative highlight_alternatives r0) as [alt|] eqn:Em;
        [|apply IH; by left].
      right. apply IH. right.
      apply match_alternative_sound in Em as (Halt & b' & -> & Hb').
      apply after_prefix_spec in E.
      change ("sp." +:+ alt +:+ b')
        with (String "s" (String "p" (String "." (alt +:+ b')))) in E.
      injection E as _ E.
      exists ("p." +:+ alt), b'. split; [by rewrite E|].
      split; [rewrite length_app_str; simpl; lia|].
      split; [by apply passed_whole | done].
    + destruct Hinv as [?|(r & y & Heq & Hlen & Hr & Hy)]; [done|].
      apply IH. destruct k as [|k]; [by left|]. right.
      destruct r as [|c' r]; [done|].
      change (String c' r +:+ y) with (String c' (r +:+ y)) in Heq.
      injection Heq as _ Heq. exists r, y. split; [done|].
      split; [simpl in Hlen; lia|]. split; [|done].
      destruct (passed_tail c' r Hr) as [->|?]; [simpl in Hlen; lia | done].
Qed.

(** X23. Every member of the highlighted names that follows [sp.] on a
    line inside a block, with no word character after it, is decorated
    from after the dot to its end. *)
Theorem members_decorated doc i text word at_ :
  doc !! i = Some text → in_block doc i →
  word ∈ highlight_alternatives →
  stands_at false ("sp." +:+ word) at_ text →
  {| mark := SpBlockFunction;
     from := line_from doc i + at_ + 3;
     to := line_from doc i + at_ + 3 + String.length word |} ∈ update doc.
Proof.
  intros Hl Hin Hm (a & b & -> & <- & Hb & _).
  destruct (update_line doc i _ Hl Hin) as (before & after & ->).
  apply elem_of_app. right. apply elem_of_app. left.
  unfold line_decorations. apply elem_of_app. right.
  apply list_elem_of_fmap. exists (String.length a, word). split.
  - cbn [fst snd]. f_equal; lia.
  - apply (prop_scan_complete a 0 0 word b Hm Hb). by left.
Qed.

End MembersDecorated.

Lemma members_decorated_witness :
  DemoEditor.member_first !! 1 = Some "sp.list(x); return 1"
  ∧ HighlightSpec.in_block DemoEditor.member_first 1
  ∧ "list" ∈ Names.highlight_alternatives
  ∧ HighlightSpec.stands_at false ("sp." +:+ "list") 0 "sp.list(x); return 1"
  ∧ {| Highlight.mark := Highlight.SpBlockFunction;
       Highlight.from := HighlightSpec.line_from DemoEditor.member_first 1 + 0 + 3;
       Highlight.to := HighlightSpec.line_from DemoEditor.member_first 1 + 0 + 3
                       + String.length "list" |}
      ∈ Highlight.update DemoEditor.member_first.
Proof.
  assert (H1 : DemoEditor.member_first !! 1 = Some "sp.list(x); return 1")
    by reflexivity.
  assert (H2 : HighlightSpec.in_block DemoEditor.member_first 1).
  { apply (in_block_flag _ _ _ H1). by vm_compute. }
  assert (H3 : "list" ∈ Names.highlight_alternatives).
  { unfold Names.highlight_alternatives. do 4 right. left. }
  assert (H4 : HighlightSpec.stands_at false ("sp." +:+ "list") 0
                 "sp.list(x); return 1").
  { exists "", "(x); return 1". by repeat split. }
  split; [exact H1|]. split; [exact H2|]. split; [exact H3|]. split; [exact H4|].
  exact (members_decorated DemoEditor.member_first 1 _ "list" 0
           H1 H2 H3 H4).
Defined.

(** ** Instances of two statements about scripts and the registry *)


Lemma registered_comes_from_mount_witness :
  Plugin.map_get (MountSpec.key_of "note.md" "abc1234")
    (Plugin.codeBlockInstances DemoHost.start) = None
  ∧ Plugin.map_get (MountSpec.key_of "note.md" "abc1234")
      (Plugin.codeBlockInstances
         (Plugin.run DemoHost.engine
            (Plugin.Tick
               :: Plugin.Mounted "sp.paragraph('ok')" 1 "note.md" "abc1234"
               :: DemoRun.afterwards) DemoHost.start).1)
    = Some DemoRun.mounted_record
  ∧ ∃ before after src el sourcePath random,
      Plugin.Tick
        :: Plugin.Mounted "sp.paragraph('ok')" 1 "note.md" "abc1234"
        :: DemoRun.afterwards
      = before ++ Plugin.Mounted src el sourcePath random :: after
      ∧ MountSpec.key_of sourcePath random
        = MountSpec.key_of "note.md" "abc1234"
      ∧ Forall (λ e, ¬ MountSpec.mounts_key
                         (MountSpec.key_of "note.md" "abc1234") e) after.
Proof.
  assert (H2 : Plugin.map_get (MountSpec.key_of "note.md" "abc1234")
      (Plugin.codeBlockInstances
         (Plugin.run DemoHost.engine
            (Plugin.Tick
               :: Plugin.Mounted "sp.paragraph('ok')" 1 "note.md" "abc1234"
               :: DemoRun.afterwards) DemoHost.start).1)
    = Some DemoRun.mounted_record) by (vm_compute; reflexivity).
  split; [reflexivity|]. split; [exact H2|].
  exact (registered_comes_from_mount DemoHost.engine _ DemoHost.start
           (MountSpec.key_of "note.md" "abc1234") DemoRun.mounted_record
           eq_refl H2).
Defined.
